(** * The package bundling orchestrator of the fullcalendar workspace

    A shallow embedding of the package bundling script of [scripts/src/pkg]
    (the file that holds [analyzePkg], [generateEntryContent], the input-map
    builder, the rollup plugins, the three bundling drivers, their watch-mode
    counterparts and the entry point) and the properties its specification
    states about it, followed by further properties of the same code.  Two
    neighbours of the script are embedded with it: the function that
    [writeDistPkgJson] ([scripts/src/pkg/json.ts]) maps over the export map
    to name the files of the bundler in the manifest of [dist], and the
    functions that move an event from one resource to another
    ([massageEventDragMutation], [computeResourceEditable],
    [applyEventDefMutation]).

    Conventions of the embedding.
    - A JavaScript string is a [string]; the regular expressions of the source
      are written out as the string functions they compute.  The replacement
      text of [replace] with a string pattern is read as JavaScript reads
      it, dollar patterns included ([Str.getSubstitution]); the replacement
      texts that the source writes out hold no dollar sign.
    - A JavaScript object that the code enumerates with [for .. in] or
      [Object.keys] is the list of its own enumerable properties, in
      enumeration order: array indices first, in ascending order, then the
      other keys in the order of their creation.  It is written with
      [objSet], which keeps this order.  An object that is only read by key
      is the [gmap] of its own properties, or a [gset] when every stored
      value is [true].
    - These objects are made by object literals, spreads and [JSON.parse]:
      a read by key and the [in] operator also find the properties that
      they inherit from [Object.prototype] ([objectPrototypeKeys]).  An
      assignment creates or updates a property of the object itself.  Not
      embedded is the assignment under the key [__proto__], which sets the
      prototype of the object instead: the entry identifiers and output
      identifiers of a package are taken to differ from that name.
    - [path.join], [path.resolve] and [path.dirname] are Node's POSIX
      functions, transcribed in [Module Path].
    - rollup is an external engine: a bundling driver is embedded as the
      sequence of requests it sends to the engine.
    - The generator modules ([import]), the file system query ([globby]),
      the manifest reader and the built-in functions of [Object.prototype]
      are the environment of an analysis, a record of functions.  A
      generator is the function from the entry id to the way its awaited
      call ends, with a value or with an exception; the file system query
      and the manifest reader fulfil or reject (a call that never settles
      is not modelled). *)

From Stdlib Require Import Ascii.
From Stdlib Require String.
From stdpp Require Import base option list strings gmap pretty.

#[local] Set Warnings "-register-all".

(** ** Strings *)

Module Str.

(** [stripPrefix p s] is [Some r] when [s = p ++ r]. *)
Fixpoint stripPrefix (p s : string) : option string :=
  match p, s with
  | EmptyString, _ => Some s
  | String a p', String b s' =>
      if Ascii.eqb a b then stripPrefix p' s' else None
  | String _ _, EmptyString => None
  end.

Definition startsWith (p s : string) : bool :=
  match stripPrefix p s with Some _ => true | None => false end.

(** [endsWith suf s]: JavaScript's [s.endsWith(suf)]. *)
Fixpoint endsWith (suf s : string) : bool :=
  if String.eqb s suf then true
  else match s with
       | EmptyString => false
       | String _ s' => endsWith suf s'
       end.

(** [s.replace(/R$/, repl)] for a regular expression [R] without
    alternatives of its own anchoring: [lang t] tells whether [t], taken
    whole, matches [R].  The engine tries the start positions from the left,
    and at each one the match has to reach the end of the input. *)
Fixpoint replaceAtEnd (lang : string -> bool) (repl s : string) : string :=
  if lang s then repl
  else match s with
       | EmptyString => EmptyString
       | String c s' => String c (replaceAtEnd lang repl s')
       end.

(** [GetSubstitution] for a pattern that is a string, which has no capture
    groups: in the replacement text [$$] stands for a dollar sign, [$&] for
    the text that matched, [$`] for the text before the match and [$'] for
    the text after it.  Any other dollar sign stands for itself, also before
    a digit or [<]. *)
Fixpoint getSubstitution (matched before after template : string) : string :=
  match template with
  | EmptyString => EmptyString
  | String c t =>
      if Ascii.eqb c "$" then
        match t with
        | String d t' =>
            if Ascii.eqb d "$"
            then String "$" (getSubstitution matched before after t')
            else if Ascii.eqb d "&"
            then matched +:+ getSubstitution matched before after t'
            else if Ascii.eqb d "`"
            then before +:+ getSubstitution matched before after t'
            else if Ascii.eqb d "'"
            then after +:+ getSubstitution matched before after t'
            else String c (getSubstitution matched before after t)
        | EmptyString => String c EmptyString
        end
      else String c (getSubstitution matched before after t)
  end.

(** The text before and the text after the first [pat] of [s]. *)
Fixpoint splitAtChar (pat : ascii) (s : string) : option (string * string) :=
  match s with
  | EmptyString => None
  | String c s' =>
      if Ascii.eqb c pat then Some (EmptyString, s')
      else match splitAtChar pat s' with
           | Some (before, after) => Some (String c before, after)
           | None => None
           end
  end.

(** [s.replace(pat, repl)] for a one-character string pattern: the first
    occurrence only, replaced by what [repl] stands for there. *)
Definition replaceFirstChar (pat : ascii) (repl s : string) : string :=
  match splitAtChar pat s with
  | Some (before, after) =>
      before
      +:+ getSubstitution (String pat EmptyString) before after repl
      +:+ after
  | None => s
  end.

(** [s.indexOf(c) !== -1]. *)
Fixpoint contains (c : ascii) (s : string) : bool :=
  match s with
  | EmptyString => false
  | String d s' => Ascii.eqb d c || contains c s'
  end.

(** The longest prefix of [s] made of characters that satisfy [p], and the
    rest: what a greedy [[class]*] consumes. *)
Fixpoint span (p : ascii -> bool) (s : string) : string * string :=
  match s with
  | EmptyString => (EmptyString, EmptyString)
  | String c s' =>
      if p c then let '(a, b) := span p s' in (String c a, b)
      else (EmptyString, s)
  end.

(** [s.split('/')]. *)
Fixpoint splitSlash (s : string) : list string :=
  match s with
  | EmptyString => [EmptyString]
  | String c s' =>
      if Ascii.eqb c "/" then EmptyString :: splitSlash s'
      else match splitSlash s' with
           | h :: t => String c h :: t
           | [] => [String c EmptyString]
           end
  end.

Definition isEmpty (s : string) : bool :=
  match s with EmptyString => true | _ => false end.

(** [s.substring(n)]. *)
Fixpoint substringFrom (n : nat) (s : string) : string :=
  match n, s with
  | O, _ => s
  | S n', String _ s' => substringFrom n' s'
  | S _, EmptyString => EmptyString
  end.

Fixpoint dropWhile {A} (p : A -> bool) (l : list A) : list A :=
  match l with
  | [] => []
  | x :: l' => if p x then dropWhile p l' else l
  end.

End Str.

(** ** Node's [path] module (POSIX) *)

Module Path.

(** One segment of [normalizeString]: empty and [.] segments are skipped, a
    [..] removes the segment before it, or is kept when there is none and the
    path may climb above its root.  The stack holds the segments kept so far,
    last one first. *)
Definition normalizeStep (allowAboveRoot : bool)
    (stack : list string) (seg : string) : list string :=
  if String.eqb seg "" || String.eqb seg "." then stack
  else if String.eqb seg ".." then
    match stack with
    | top :: rest =>
        if String.eqb top ".." then
          (if allowAboveRoot then seg :: stack else stack)
        else rest
    | [] => if allowAboveRoot then [seg] else []
    end
  else seg :: stack.

Definition normalizeString (allowAboveRoot : bool) (path : string) : string :=
  String.concat "/"
    (rev (fold_left (normalizeStep allowAboveRoot) (Str.splitSlash path) [])).

Definition isAbsolute (path : string) : bool := Str.startsWith "/" path.

Definition normalize (path : string) : string :=
  if Str.isEmpty path then "."
  else
    let isAbs := isAbsolute path in
    let trailingSeparator := Str.endsWith "/" path in
    let p := normalizeString (negb isAbs) path in
    if Str.isEmpty p then
      (if isAbs then "/" else if trailingSeparator then "./" else ".")
    else
      let p := if trailingSeparator then p +:+ "/" else p in
      if isAbs then "/" +:+ p else p.

(** [path.join(...args)]: the non-empty arguments, joined by [/], then
    normalized. *)
Definition join (args : list string) : string :=
  match List.filter (fun a => negb (Str.isEmpty a)) args with
  | [] => "."
  | parts => normalize (String.concat "/" parts)
  end.

(** [path.resolve(p)] with one argument, in a process whose working directory
    is [cwd]: the arguments are taken from the right until an absolute one is
    met, [cwd] being the last resort. *)
Definition resolve (cwd p : string) : string :=
  let '(resolvedPath, resolvedAbsolute) :=
    if Str.isEmpty p then (EmptyString, false)
    else (p +:+ "/", isAbsolute p) in
  let '(resolvedPath, resolvedAbsolute) :=
    if resolvedAbsolute || Str.isEmpty cwd
    then (resolvedPath, resolvedAbsolute)
    else (cwd +:+ "/" +:+ resolvedPath, isAbsolute cwd) in
  let r := normalizeString (negb resolvedAbsolute) resolvedPath in
  if resolvedAbsolute then "/" +:+ r
  else if Str.isEmpty r then "." else r.

Definition isSlash (c : ascii) : bool := Ascii.eqb c "/".

(** [path.dirname(p)]: the scan runs from the end down to index 1; trailing
    slashes are skipped, then the last segment, and the path is cut at the
    slash found there. *)
Definition dirname (path : string) : string :=
  match String.list_ascii_of_string path with
  | [] => "."
  | c0 :: tl =>
      let hasRoot := isSlash c0 in
      let afterSlashes := Str.dropWhile isSlash (rev tl) in
      let afterSegment :=
        Str.dropWhile (fun c => negb (isSlash c)) afterSlashes in
      match afterSegment with
      | [] => if hasRoot then "/" else "."
      | _ :: before =>
          match before with
          | [] => if hasRoot then "//"
                  else String.string_of_list_ascii [c0]
          | _ => String.string_of_list_ascii (c0 :: rev before)
          end
      end
  end.

End Path.

Definition joinPaths := Path.join.
Definition resolvePath := Path.resolve.
Definition dirname := Path.dirname.

(** ** JavaScript values *)

(** How a call, or an [import], ends once awaited: with a value, or with an
    exception (given by its message). *)
Inductive Completion (A : Type) : Type :=
  | Returns (value : A)
  | Throws (reason : string).
Arguments Returns {A} value.
Arguments Throws {A} reason.

(** The values that reach this file: the parsed manifest holds JSON, a
    generator module exports and returns whatever its author wrote.  An array
    is an object whose keys are its indices.  A function value carries how a
    call of it with an entry id ends. *)
Inductive JsValue : Type :=
  | JUndefined
  | JNull
  | JBoolean (b : bool)
  | JNumber (n : Z)
  | JString (s : string)
  | JObject (props : list (string * JsValue))
  | JFunction (call : string -> Completion JsValue).

(** The [typeof] operator. *)
Definition typeOf (v : JsValue) : string :=
  match v with
  | JUndefined => "undefined"
  | JNull => "object"
  | JBoolean _ => "boolean"
  | JNumber _ => "number"
  | JString _ => "string"
  | JObject _ => "object"
  | JFunction _ => "function"
  end.

(** What a condition such as [if (v)] or [v && ..] tests. *)
Definition truthy (v : JsValue) : bool :=
  match v with
  | JUndefined | JNull => false
  | JBoolean b => b
  | JNumber n => negb (n =? 0)%Z
  | JString s => negb (Str.isEmpty s)
  | JObject _ | JFunction _ => true
  end.

(** The properties a [for (key in v)] loop visits; [null] has none. *)
Definition forInProps (v : JsValue) : list (string * JsValue) :=
  match v with
  | JObject props => props
  | _ => []
  end.

(** ** Plain objects *)

(** The names of the properties of [Object.prototype].  An object made by
    an object literal, a spread or [JSON.parse] inherits them: [obj[k]] and
    [k in obj] find them when [obj] has no property [k] of its own.  What
    they hold is a built-in function, and under [__proto__] the prototype
    itself: a truthy value. *)
Definition objectPrototypeKeys : list string :=
  [ "constructor"; "__defineGetter__"; "__defineSetter__"; "hasOwnProperty";
    "__lookupGetter__"; "__lookupSetter__"; "isPrototypeOf";
    "propertyIsEnumerable"; "toString"; "valueOf"; "__proto__";
    "toLocaleString" ].

Definition inheritsProp (k : string) : bool :=
  existsb (String.eqb k) objectPrototypeKeys.

(** [k in obj], for an object given by its own properties. *)
Definition hasProp {V} (obj : gmap string V) (k : string) : bool :=
  bool_decide (is_Some (obj !! k)) || inheritsProp k.

(** [if (obj[k])], for an object given by its own properties. *)
Definition truthyProp (obj : gmap string JsValue) (k : string) : bool :=
  match obj !! k with
  | Some v => truthy v
  | None => inheritsProp k
  end.

(** ** Enumerated objects *)

Definition isDigit (c : ascii) : bool :=
  let n := N_of_ascii c in (48 <=? n)%N && (n <=? 57)%N.

(** The number that a string of decimal digits stands for. *)
Fixpoint digitsValue (acc : N) (s : string) : option N :=
  match s with
  | EmptyString => Some acc
  | String c s' =>
      if isDigit c
      then digitsValue (acc * 10 + (N_of_ascii c - 48))%N s'
      else None
  end.

(** The array index that a property key stands for: a decimal numeral
    without a leading zero, below [2^32 - 1]. *)
Definition arrayIndex (k : string) : option N :=
  match k with
  | EmptyString => None
  | String c rest =>
      if Ascii.eqb c "0" && negb (Str.isEmpty rest) then None
      else match digitsValue 0 k with
           | Some n => if (n <? 4294967295)%N then Some n else None
           | None => None
           end
  end.

(** The enumeration order of two keys: array indices come first, in
    ascending order; the other keys follow in the order of their
    creation. *)
Definition keyBefore (k k' : string) : bool :=
  match arrayIndex k, arrayIndex k' with
  | Some n, Some n' => (n <? n')%N
  | Some _, None => true
  | None, _ => false
  end.

Section Obj.
Context {V : Type}.

(** [obj[k]] for a key that [obj] has, [None] standing for [undefined]. *)
Fixpoint objGet (k : string) (obj : list (string * V)) : option V :=
  match obj with
  | [] => None
  | (k', v') :: rest => if String.eqb k' k then Some v' else objGet k rest
  end.

(** A property that exists keeps its place. *)
Fixpoint objReplace (k : string) (v : V) (obj : list (string * V))
    : list (string * V) :=
  match obj with
  | [] => []
  | (k', v') :: rest =>
      if String.eqb k' k then (k', v) :: rest
      else (k', v') :: objReplace k v rest
  end.

(** A new property takes the place that the enumeration order gives its
    key. *)
Fixpoint objInsert (k : string) (v : V) (obj : list (string * V))
    : list (string * V) :=
  match obj with
  | [] => [(k, v)]
  | (k', v') :: rest =>
      if keyBefore k k' then (k, v) :: obj
      else (k', v') :: objInsert k v rest
  end.

(** [obj[k] = v]. *)
Definition objSet (k : string) (v : V) (obj : list (string * V))
    : list (string * V) :=
  match objGet k obj with
  | Some _ => objReplace k v obj
  | None => objInsert k v obj
  end.

(** [Object.keys(obj)]. *)
Definition objKeys (obj : list (string * V)) : list string := obj.*1.

(** [for (k in obj) { .. obj[k] .. }]: the keys, each with the value read
    under it. *)
Definition forInEntries (obj : list (string * V)) : list (string * V) :=
  omap (fun k => pair k <$> objGet k obj) (objKeys obj).

(** [Object.assign(target, source)]. *)
Definition objAssign (target source : list (string * V))
    : list (string * V) :=
  fold_left (fun acc kv => objSet kv.1 kv.2 acc) source target.
End Obj.

(** ** App-specific path utilities *)

Definition isTsExt (t : string) : bool :=
  String.eqb t ".ts" || String.eqb t ".tsx".

Definition isScriptExt (t : string) : bool :=
  String.eqb t ".js" || String.eqb t ".jsx"
  || String.eqb t ".ts" || String.eqb t ".tsx".

(** [s.replace(/^\.\//, '')]. *)
Definition stripDotSlash (s : string) : string :=
  match Str.stripPrefix "./" s with
  | Some rest => rest
  | None => s
  end.

(** [relSrcPath.replace(/\.tsx?/, '')], not anchored: the first [.ts] of the
    path, with the [x] that may follow it. *)
Fixpoint stripFirstTsx (s : string) : string :=
  match Str.stripPrefix ".tsx" s with
  | Some rest => rest
  | None =>
      match Str.stripPrefix ".ts" s with
      | Some rest => rest
      | None =>
          match s with
          | EmptyString => EmptyString
          | String c s' => String c (stripFirstTsx s')
          end
      end
  end.

Definition buildTscPath (pkgDir relSrcPath ext : string) : string :=
  Str.replaceAtEnd isTsExt ""
    (joinPaths [pkgDir; "dist"; ".tsc"; relSrcPath]) +:+ ext.

Definition buildOutputId (relSrcPath : string) : string :=
  Str.replaceAtEnd isScriptExt "" (stripDotSlash relSrcPath).

(** [/^\.\.?\/?/.test(path)]: a first dot is required, the second dot and
    the slash are optional. *)
Definition isPathRelative (path : string) : bool :=
  match Str.stripPrefix "." path with
  | Some _ => true
  | None => false
  end.

Definition isPathAsset (path : string) : bool :=
  existsb (fun assetExt => Str.endsWith assetExt path) [".css"].

(** [importer] is [None] for [undefined]; [!importer] also holds for the
    empty string.  [cwd] is the working directory [path.resolve] reads. *)
Definition computeImportPath (cwd id : string) (importer : option string)
    : option string :=
  match importer with
  | Some (String c imp) =>
      if isPathRelative id
      then Some (joinPaths [dirname (String c imp); id])
      else None
  | _ =>
      if isPathRelative id then Some (resolvePath cwd id) else Some id
  end.

(** The class [[a-z-.]] of [extractPkgName]'s regular expression. *)
Definition isPkgNameChar (c : ascii) : bool :=
  let n := nat_of_ascii c in
  ((97 <=? n)%nat && (n <=? 122)%nat) || Ascii.eqb c "-" || Ascii.eqb c ".".

(** [importId.match(/^(@[a-z-.]+\/)?[a-z-.]+/)]: the scope group is tried
    first; its class run is followed by a slash only when taken whole, and
    an id that starts with [@] matches in no other way. *)
Definition extractPkgName (importId : string) : option string :=
  match Str.stripPrefix "@" importId with
  | Some afterAt =>
      let '(scope, rest) := Str.span isPkgNameChar afterAt in
      match Str.stripPrefix "/" rest with
      | Some afterSlash =>
          let '(name, _) := Str.span isPkgNameChar afterSlash in
          if Str.isEmpty scope || Str.isEmpty name then None
          else Some ("@" +:+ scope +:+ "/" +:+ name)
      | None => None
      end
  | None =>
      let '(name, _) := Str.span isPkgNameChar importId in
      if Str.isEmpty name then None else Some name
  end.

(** ** Package metadata *)

(** Modelled from the spec: the [iife] sub-object of an entry configuration
    ([./meta.js] is not among the sources): an optional global [name], an
    optional [globals] mapping from import id to the name of a browser
    global, an optional [generator] module reference. *)
Record IifeConfig : Type := {
  iifeName : option string;
  iifeGlobals : option (gmap string JsValue);
  iifeGenerator : option string;
}.

(** Modelled from the spec: one declared export key's build rules
    ([EntryConfig] of [./meta.js]). *)
Record EntryConfig : Type := {
  generator : option string;
  iife : option IifeConfig;
}.

Definition EntryConfigMap : Type := list (string * EntryConfig).

(** Modelled from the spec: the build configuration of a manifest, with its
    per-kind enable flags ([None] when the flag is absent) and its export
    map. *)
Record BuildConfig : Type := {
  esm : option bool;
  cjs : option bool;
  types : option bool;
  exports : option EntryConfigMap;
}.

(** Modelled from the spec: the parsed manifest ([SrcPkgMeta] of
    [./meta.js]); an absent dependency mapping is the empty one. *)
Record SrcPkgMeta : Type := {
  dependencies : gmap string string;
  peerDependencies : gmap string string;
  devDependencies : gmap string string;
  buildConfig : option BuildConfig;
}.

(** [o ?? d] and [o || d] on a property that is absent or holds a value of
    the declared type. *)
Definition orDefault {A} (o : option A) (d : A) : A :=
  match o with Some a => a | None => d end.

(** A module reference is used when it is a non-empty string: [if (ref)]. *)
Definition truthyRef (ref : option string) : option string :=
  match ref with
  | Some (String c r) => Some (String c r)
  | _ => None
  end.

Definition emptyBuildConfig : BuildConfig :=
  {| esm := None; cjs := None; types := None; exports := None |}.

(** ** The environment of an analysis *)

(** What this file throws or lets through: the configuration errors that
    [generateEntryContent] raises with [new Error(..)], an exception of the
    [import] or of the generator itself, the [TypeError] of reading a
    property of [undefined], and the failure of reading the manifest or of
    searching the source directory. *)
Inductive Exception : Type :=
  | ConfigError (message : string)
  | ImportError (reason : string)
  | GeneratorError (reason : string)
  | TypeError (message : string)
  | IoError (reason : string).

(** The outcome of an [async] function. *)
Inductive Promise (A : Type) : Type :=
  | Fulfilled (a : A)
  | Rejected (exn : Exception).
Arguments Fulfilled {A} a.
Arguments Rejected {A} exn.

Record Env : Type := {
  (** [(await import(path)).default]: [JUndefined] when the module has no
      default export, an exception when the module does not load *)
  importDefault : string -> Completion JsValue;
  (** [await globby(pattern, { cwd })], which rejects when the search
      fails *)
  globby : string -> string -> Promise (list string);
  (** [await readSrcPkgMeta(pkgDir)], which rejects when the manifest cannot
      be read *)
  readSrcPkgMeta : string -> Promise SrcPkgMeta;
  (** [process.cwd()] *)
  cwd : string;
  (** how a call of the built-in function [Object.prototype[name]] with one
      argument ends *)
  builtinCall : string -> string -> Completion JsValue;
}.

(** The value that an object inherits under a name of [Object.prototype]:
    a built-in function, and under [__proto__] the prototype itself, an
    object without enumerable properties. *)
Definition inheritedValue (env : Env) (name : string) : JsValue :=
  if String.eqb name "__proto__" then JObject []
  else JFunction (builtinCall env name).

(** [obj[k]], for an object given by its own properties; [None] stands for
    [undefined]. *)
Definition getProp (env : Env) (obj : gmap string JsValue) (k : string)
    : option JsValue :=
  match obj !! k with
  | Some v => Some v
  | None => if inheritsProp k then Some (inheritedValue env k) else None
  end.

(** ** Generated content *)

Definition EntryContentMap : Type := list (string * JsValue).

Definition generateEntryContent (env : Env) (entryId generatorPath : string)
    : Promise EntryContentMap :=
  match importDefault env generatorPath with
  | Throws reason => Rejected (ImportError reason)
  | Returns (JFunction generatorFunc) =>
      match generatorFunc entryId with
      | Throws reason => Rejected (GeneratorError reason)
      | Returns generatorRes =>
          if String.eqb (typeOf generatorRes) "string" then
            if Str.contains "*" entryId then
              Rejected (ConfigError
                "Generator string output can't have blob entrypoint name")
            else Fulfilled (objSet entryId generatorRes [])
          else if String.eqb (typeOf generatorRes) "object" then
            if negb (Str.contains "*" entryId) then
              Rejected (ConfigError
                "Generator object output must have blob entrypoint name")
            else
              Fulfilled
                (fold_left
                   (fun entryContentMap kv =>
                      objSet (Str.replaceFirstChar "*" kv.1 entryId) kv.2
                        entryContentMap)
                   (forInEntries (forInProps generatorRes)) [])
          else Rejected (ConfigError "Invalid type of generator output")
      end
  | Returns _ =>
      Rejected (ConfigError "Generator must have a default function export")
  end.

(** ** Package analysis *)

Definition RelSrcPathMap : Type := list (string * list string).

Record PkgAnalysis : Type := {
  pkgDir : string;
  pkgMeta : SrcPkgMeta;
  entryConfigMap : EntryConfigMap;
  relSrcPathMap : RelSrcPathMap;
  entryContentMap : EntryContentMap;
  iifeEntryContentMap : EntryContentMap;
}.

(** The paths that [globby] finds are strings already. *)
Definition queryRelSrcPaths (env : Env) (pkgDir entryId : string)
    : Promise (list string) :=
  let srcDir := joinPaths [pkgDir; "src"] in
  globby env
    ((if String.eqb entryId "." then "index" else stripDotSlash entryId)
       +:+ ".{ts,tsx}")
    srcDir.

(** The three maps that the entry callbacks of [analyzePkg] share. *)
Record Maps : Type := {
  mRelSrcPaths : RelSrcPathMap;
  mEntryContent : EntryContentMap;
  mIifeEntryContent : EntryContentMap;
}.

Definition emptyMaps : Maps :=
  {| mRelSrcPaths := []; mEntryContent := []; mIifeEntryContent := [] |}.

(** One assignment to a shared map. *)
Inductive Write : Type :=
  | WriteEntryContent (expandedEntryId : string) (content : JsValue)
  | WriteRelSrcPaths (entryId : string) (relSrcPaths : list string)
  | WriteIifeEntryContent (expandedEntryId : string) (content : JsValue).

Definition applyWrite (m : Maps) (w : Write) : Maps :=
  match w with
  | WriteEntryContent k v =>
      {| mRelSrcPaths := mRelSrcPaths m;
         mEntryContent := objSet k v (mEntryContent m);
         mIifeEntryContent := mIifeEntryContent m |}
  | WriteRelSrcPaths k v =>
      {| mRelSrcPaths := objSet k v (mRelSrcPaths m);
         mEntryContent := mEntryContent m;
         mIifeEntryContent := mIifeEntryContent m |}
  | WriteIifeEntryContent k v =>
      {| mRelSrcPaths := mRelSrcPaths m;
         mEntryContent := mEntryContent m;
         mIifeEntryContent := objSet k v (mIifeEntryContent m) |}
  end.

(** What one entry callback does between two [await]s: the assignments it
    runs without interruption, or the exception that rejects it. *)
Inductive Step : Type :=
  | Writes (ws : list Write)
  | Fails (exn : Exception).

(** The loop over [relSrcPaths] that runs the IIFE generator: every turn
    awaits the generator, then copies its content map. *)
Fixpoint iifeSteps (env : Env) (pkgDir iifeGenerator : string)
    (relSrcPaths : list string) : list Step :=
  match relSrcPaths with
  | [] => []
  | relSrcPath :: rest =>
      let expandedEntryId := stripFirstTsx relSrcPath in
      let generatorPath := joinPaths [pkgDir; iifeGenerator] in
      match generateEntryContent env expandedEntryId generatorPath with
      | Rejected msg => [Fails msg]
      | Fulfilled contentMap =>
          Writes (map (fun kv => WriteIifeEntryContent kv.1 kv.2) contentMap)
          :: iifeSteps env pkgDir iifeGenerator rest
      end
  end.

(** The callback that [analyzePkg] maps over [Object.keys(entryConfigMap)]. *)
Definition entrySteps (env : Env) (pkgDir : string)
    (entryConfigMap : EntryConfigMap) (entryId : string) : list Step :=
  match objGet entryId entryConfigMap with
  | None => [Fails (TypeError "entryConfig is undefined")]
  | Some entryConfig =>
      let afterAwait (first : list Write) (relSrcPaths : list string) :=
        Writes (first ++ [WriteRelSrcPaths entryId relSrcPaths])
        :: match truthyRef (iife entryConfig ≫= iifeGenerator) with
           | Some iifeGenerator =>
               iifeSteps env pkgDir iifeGenerator relSrcPaths
           | None => []
           end in
      match truthyRef (generator entryConfig) with
      | Some generator =>
          let generatorPath := joinPaths [pkgDir; generator] in
          match generateEntryContent env entryId generatorPath with
          | Rejected msg => [Fails msg]
          | Fulfilled contentMap =>
              afterAwait
                (map (fun kv => WriteEntryContent kv.1 kv.2) contentMap)
                (map (fun entryId => entryId +:+ ".ts") (objKeys contentMap))
          end
      | None =>
          match queryRelSrcPaths env pkgDir entryId with
          | Rejected exn => [Fails exn]
          | Fulfilled relSrcPaths => afterAwait [] relSrcPaths
          end
      end
  end.

(** [Promise.all] over the callbacks: the steps of all callbacks in the
    order in which the event loop ran them.  The first rejection rejects the
    whole; otherwise every assignment has been applied. *)
Definition runStep (acc : Promise Maps) (s : Step) : Promise Maps :=
  match acc with
  | Rejected msg => Rejected msg
  | Fulfilled m =>
      match s with
      | Fails msg => Rejected msg
      | Writes ws => Fulfilled (fold_left applyWrite ws m)
      end
  end.

Definition runSteps (steps : list Step) : Promise Maps :=
  fold_left runStep steps (Fulfilled emptyMaps).

Definition entryConfigMapOf (meta : SrcPkgMeta) : EntryConfigMap :=
  orDefault (exports (orDefault (buildConfig meta) emptyBuildConfig)) [].

(** The callbacks of an analysis, one per key of the export map; none is
    started when the manifest cannot be read. *)
Definition analysisTasks (env : Env) (pkgDir : string) : list (list Step) :=
  match readSrcPkgMeta env pkgDir with
  | Rejected _ => []
  | Fulfilled pkgMeta =>
      let entryConfigMap := entryConfigMapOf pkgMeta in
      map (entrySteps env pkgDir entryConfigMap) (objKeys entryConfigMap)
  end.

Definition settleAnalysis (env : Env) (pkgDir : string) (steps : list Step)
    : Promise PkgAnalysis :=
  match readSrcPkgMeta env pkgDir with
  | Rejected exn => Rejected exn
  | Fulfilled pkgMeta =>
      match runSteps steps with
      | Rejected msg => Rejected msg
      | Fulfilled m =>
          Fulfilled {| pkgDir := pkgDir;
                       pkgMeta := pkgMeta;
                       entryConfigMap := entryConfigMapOf pkgMeta;
                       relSrcPathMap := mRelSrcPaths m;
                       entryContentMap := mEntryContent m;
                       iifeEntryContentMap := mIifeEntryContent m |}
      end
  end.

(** A schedule names, turn after turn, the callback that runs its next
    step.  [followSchedule] follows it and gives the steps in the order they
    ran, provided the schedule runs every callback to its end. *)
Fixpoint followSchedule {A} (schedule : list nat) (queues : list (list A))
    : option (list A) :=
  match schedule with
  | [] => if forallb (fun q => match q with [] => true | _ => false end) queues
          then Some [] else None
  | i :: schedule' =>
      match queues !! i with
      | Some (x :: q) =>
          cons x <$> followSchedule schedule' (<[i := q]> queues)
      | _ => None
      end
  end.

(** The schedule that runs the callbacks one after the other. *)
Fixpoint sequentialFrom {A} (i : nat) (queues : list (list A)) : list nat :=
  match queues with
  | [] => []
  | q :: rest => replicate (length q) i ++ sequentialFrom (S i) rest
  end.

(** [analyzePkg] under a given schedule of its concurrent callbacks; [None]
    when the schedule is not one of this analysis. *)
Definition analyzePkgScheduled (env : Env) (pkgDir : string)
    (schedule : list nat) : option (Promise PkgAnalysis) :=
  settleAnalysis env pkgDir
  <$> followSchedule schedule (analysisTasks env pkgDir).

(** [analyzePkg] when every callback finishes before the next one resumes. *)
Definition analyzePkg (env : Env) (pkgDir : string) : Promise PkgAnalysis :=
  settleAnalysis env pkgDir (concat (analysisTasks env pkgDir)).

(** ** Rollup input *)

Definition RollupInputMap : Type := list (string * string).

(** The (entry id, relative source path) pairs in the order of the nested
    loops [for (entryId in relSrcPathMap) for (relSrcPath of ..)]. *)
Definition entrySrcPairs (relSrcPathMap : RelSrcPathMap)
    : list (string * string) :=
  flat_map (fun kv => map (pair kv.1) kv.2) (forInEntries relSrcPathMap).

Definition buildInputMap (pkgAnalysis : PkgAnalysis) (ext : string)
    : RollupInputMap :=
  fold_left
    (fun inputs pr =>
       let relSrcPath := pr.2 in
       let outputId := buildOutputId relSrcPath in
       objSet outputId (buildTscPath (pkgDir pkgAnalysis) relSrcPath ext)
         inputs)
    (entrySrcPairs (relSrcPathMap pkgAnalysis)) [].

(** ** Rollup plugins *)

(** What a [resolveId] hook returns when it claims a specifier: a path, or
    [{ id, external: true }].  [None] defers to the next plugin. *)
Inductive ResolveResult : Type :=
  | ResolvedPath (path : string)
  | External (id : string).

Record RollupPlugin : Type := {
  pluginName : string;
  resolveId : string -> option string -> option ResolveResult;
  load : string -> option JsValue;
}.

Definition noLoad : string -> option JsValue := fun _ => None.

Definition externalizeDepsPlugin (pkgAnalysis : PkgAnalysis) : RollupPlugin :=
  let pkgMeta := pkgMeta pkgAnalysis in
  (* a spread keeps the later value; only the keys are read *)
  let deps := peerDependencies pkgMeta ∪ dependencies pkgMeta in
  {| pluginName := "externalize-deps";
     resolveId := fun id _ =>
       match extractPkgName id with
       | Some pkgName =>
           if negb (Str.isEmpty pkgName) && hasProp deps pkgName
           then Some (External id)
           else None
       | None => None
       end;
     load := noLoad |}.

Definition externalizeGlobals (iifeGlobals : gmap string JsValue)
    : RollupPlugin :=
  {| pluginName := "externalize-globals";
     resolveId := fun id _ =>
       if truthyProp iifeGlobals id then Some (External id) else None;
     load := noLoad |}.

(** The keys that the loop of [externalizeExportsPlugin] assigns [true]
    to.  They end in [.js]: none is a name of [Object.prototype]. *)
Definition tscPathMap (pkgAnalysis : PkgAnalysis) : gset string :=
  fold_left
    (fun acc pr => {[ buildTscPath (pkgDir pkgAnalysis) pr.2 ".js" ]} ∪ acc)
    (entrySrcPairs (relSrcPathMap pkgAnalysis)) ∅.

Definition externalizeExportsPlugin (env : Env) (pkgAnalysis : PkgAnalysis)
    : RollupPlugin :=
  let tscPaths := tscPathMap pkgAnalysis in
  {| pluginName := "externalize-exports";
     resolveId := fun id importer =>
       match computeImportPath (cwd env) id importer with
       | Some importPath =>
           if negb (Str.isEmpty importPath)
              && (bool_decide (importPath ∈ tscPaths)
                  || inheritsProp importPath)
           then
             (* source files reference each other via .js, but esm output
                uses .mjs *)
             Some (External (Str.replaceAtEnd (String.eqb ".js") ".mjs" id))
           else None
       | None => None
       end;
     load := noLoad |}.

Definition externalizeAssetsPlugin (env : Env) : RollupPlugin :=
  {| pluginName := "externalize-assets";
     resolveId := fun id importer =>
       match computeImportPath (cwd env) id importer with
       | Some importPath =>
           if negb (Str.isEmpty importPath) && isPathAsset importPath
           then Some (External id) else None
       | None => None
       end;
     load := noLoad |}.

Definition isPathWithinDir (path dirPath : string) : bool :=
  Str.startsWith
    (Str.replaceAtEnd (String.eqb "a") "" (joinPaths [dirPath; "a"])) path.

Definition rerootAssetsPlugin (env : Env) (pkgDir : string) : RollupPlugin :=
  let srcDir := joinPaths [pkgDir; "src"] in
  let tscDir := joinPaths [pkgDir; "dist"; ".tsc"] in
  {| pluginName := "reroot-assets";
     resolveId := fun id importer =>
       match computeImportPath (cwd env) id importer with
       | Some importPath =>
           if negb (Str.isEmpty importPath) && isPathAsset importPath
              && isPathWithinDir importPath tscDir
           then Some (ResolvedPath
                  (srcDir +:+ Str.substringFrom (String.length tscDir)
                                importPath))
           else None
       | None => None
       end;
     load := noLoad |}.

(** The properties that the loops of [generatedContentPlugin] assign.
    Their keys end in [.js]: none is a name of [Object.prototype]. *)
Definition pathContentMap (pkgAnalysis : PkgAnalysis) : gmap string JsValue :=
  let withLib :=
    fold_left
      (fun acc kv =>
         <[ buildTscPath (pkgDir pkgAnalysis) kv.1 ".js" := kv.2 ]> acc)
      (forInEntries (entryContentMap pkgAnalysis)) ∅ in
  fold_left
    (fun acc kv =>
       <[ buildTscPath (pkgDir pkgAnalysis) kv.1 ".iife.js" := kv.2 ]> acc)
    (forInEntries (iifeEntryContentMap pkgAnalysis)) withLib.

Definition generatedContentPlugin (env : Env) (pkgAnalysis : PkgAnalysis)
    : RollupPlugin :=
  let contents := pathContentMap pkgAnalysis in
  {| pluginName := "generated-content";
     resolveId := fun id importer =>
       match computeImportPath (cwd env) id importer with
       | Some importPath =>
           if negb (Str.isEmpty importPath) && truthyProp contents importPath
           then Some (ResolvedPath importPath) else None
       | None => None
       end;
     (* if undefined, fallback to normal file load *)
     load := fun id => getProp env contents id |}.

(** ** Bundling drivers *)

(** A plugin of this file, or one of the packages it imports. *)
Inductive PluginRef : Type :=
  | Own (plugin : RollupPlugin)
  | Imported (package : string).

Record RollupOutputOptions : Type := {
  format : string;
  dir : option string;
  file : option string;
  entryFileNames : option string;
  sourcemap : option bool;
  exportsMode : option string;
  globals : option (gmap string JsValue);
  name : option string;
}.

Inductive RollupInput : Type :=
  | InputMap (inputs : RollupInputMap)
  | InputFile (path : string).

(** What a driver asks of the bundler engine and of the minifier. *)
Inductive Request : Type :=
  | Rollup (input : RollupInput) (plugins : list PluginRef)
  | BundleWrite (options : RollupOutputOptions)
  | BundleClose
  | Minify (output input : string).

Definition buildContentProcessingPlugins : list PluginRef :=
  [ Imported "@rollup/plugin-node-resolve";
    Imported "@rollup/plugin-commonjs";
    Imported "@rollup/plugin-json";
    Imported "rollup-plugin-postcss" ].

(** [isDev && sourcemapsPlugin()] leaves [false] in the list when [isDev] is
    off; rollup skips it. *)
Definition buildModulePlugins (env : Env) (pkgAnalysis : PkgAnalysis)
    (isDev : bool) : list PluginRef :=
  [ Own (generatedContentPlugin env pkgAnalysis);
    Own (externalizeDepsPlugin pkgAnalysis);
    Own (rerootAssetsPlugin env (pkgDir pkgAnalysis)) ]
  ++ (if isDev then [Imported "rollup-plugin-sourcemaps"] else [])
  ++ buildContentProcessingPlugins.

Definition buildEsmOutputOptions (pkgDir : string) (isDev : bool)
    : RollupOutputOptions :=
  {| format := "esm";
     dir := Some (joinPaths [pkgDir; "dist"]);
     file := None;
     entryFileNames := Some "[name].mjs";
     sourcemap := Some isDev;
     exportsMode := None;
     globals := None;
     name := None |}.

Definition buildCjsOutputOptions (pkgDir : string) : RollupOutputOptions :=
  {| format := "cjs";
     dir := Some (joinPaths [pkgDir; "dist"]);
     file := None;
     entryFileNames := Some "[name].cjs";
     sourcemap := None;
     exportsMode := Some "named";
     globals := None;
     name := None |}.

(** The requests of [bundleModules], in order.  [Promise.all] skips the
    [false] that a disabled output leaves in its array. *)
Definition bundleModules (env : Env) (pkgAnalysis : PkgAnalysis)
    (isDev : bool) : list Request :=
  let buildConfig :=
    orDefault (buildConfig (pkgMeta pkgAnalysis)) emptyBuildConfig in
  let esmEnabled := orDefault (esm buildConfig) true in
  let cjsEnabled := orDefault (cjs buildConfig) true in
  if negb esmEnabled && negb cjsEnabled then []
  else
    Rollup (InputMap (buildInputMap pkgAnalysis ".js"))
           (buildModulePlugins env pkgAnalysis isDev)
    :: (if esmEnabled
        then [BundleWrite (buildEsmOutputOptions (pkgDir pkgAnalysis) isDev)]
        else [])
    ++ (if negb isDev && cjsEnabled
        then [BundleWrite (buildCjsOutputOptions (pkgDir pkgAnalysis))]
        else [])
    ++ [BundleClose].

Definition buildIifePlugins (env : Env) (pkgAnalysis : PkgAnalysis)
    (iifeGlobals : gmap string JsValue) : list PluginRef :=
  [ Own (generatedContentPlugin env pkgAnalysis);
    Own (externalizeGlobals iifeGlobals);
    Own (rerootAssetsPlugin env (pkgDir pkgAnalysis)) ]
  ++ buildContentProcessingPlugins.

Definition buildIifeOutputOptions (pkgDir : string) (entryConfig : EntryConfig)
    (relSrcPath : string) : RollupOutputOptions :=
  let iifeConfig :=
    orDefault (iife entryConfig)
      {| iifeName := None; iifeGlobals := None; iifeGenerator := None |} in
  {| format := "iife";
     dir := None;
     file := Some (joinPaths [pkgDir; "dist"; buildOutputId relSrcPath]
                     +:+ ".js");
     entryFileNames := None;
     sourcemap := None;
     exportsMode :=
       match iifeName iifeConfig with Some _ => None | None => Some "none" end;
     globals := Some (orDefault (iifeGlobals iifeConfig) ∅);
     name := iifeName iifeConfig |}.

(** [minifyFile]: the terser run, by its output and input paths. *)
Definition minifyFile (unminifiedIifePath : string) : Request :=
  Minify (Str.replaceAtEnd (String.eqb ".js") ".min.js" unminifiedIifePath)
         unminifiedIifePath.

(** One bundler pass of [bundleIifes], for one source path of an entry. *)
Definition iifePass (env : Env) (pkgAnalysis : PkgAnalysis)
    (entryConfig : EntryConfig) (iifeConfig : IifeConfig)
    (relSrcPath : string) : list Request :=
  let outputOptions :=
    buildIifeOutputOptions (pkgDir pkgAnalysis) entryConfig relSrcPath in
  [ Rollup (InputFile (buildTscPath (pkgDir pkgAnalysis) relSrcPath ".iife.js"))
           (buildIifePlugins env pkgAnalysis
              (orDefault (iifeGlobals iifeConfig) ∅));
    BundleWrite outputOptions;
    BundleClose;
    minifyFile (orDefault (file outputOptions) "") ].

(** The passes that [bundleIifes] starts, one list of requests per pass.
    Reading [.iife] of an entry configuration that is [undefined] throws;
    under a name of [Object.prototype] the configuration read is a built-in
    value, which has no [iife]. *)
Fixpoint iifePasses (env : Env) (pkgAnalysis : PkgAnalysis)
    (entries : list (string * list string)) : Promise (list (list Request)) :=
  match entries with
  | [] => Fulfilled []
  | (entryId, relSrcPaths) :: rest =>
      match objGet entryId (entryConfigMap pkgAnalysis) with
      | None =>
          if inheritsProp entryId then iifePasses env pkgAnalysis rest
          else Rejected (TypeError "entryConfig is undefined")
      | Some entryConfig =>
          let passes :=
            match iife entryConfig with
            | Some iifeConfig =>
                map (iifePass env pkgAnalysis entryConfig iifeConfig)
                    relSrcPaths
            | None => []
            end in
          match iifePasses env pkgAnalysis rest with
          | Fulfilled more => Fulfilled (passes ++ more)
          | Rejected msg => Rejected msg
          end
      end
  end.

Definition bundleIifes (env : Env) (pkgAnalysis : PkgAnalysis)
    : Promise (list (list Request)) :=
  iifePasses env pkgAnalysis (forInEntries (relSrcPathMap pkgAnalysis)).

(** The output file of a pass: the [file] of the options it writes with. *)
Definition passOutputFiles (pass : list Request) : list string :=
  omap (fun r => match r with BundleWrite o => file o | _ => None end) pass.

Definition isRollup (r : Request) : bool :=
  match r with Rollup _ _ => true | _ => false end.

Definition writtenFormats (rs : list Request) : list string :=
  omap (fun r => match r with BundleWrite o => Some (format o) | _ => None end)
       rs.

(** ** The types pipeline *)

Definition buildTypesPlugins (env : Env) (pkgAnalysis : PkgAnalysis)
    : list PluginRef :=
  [ Own (externalizeAssetsPlugin env);
    Own (externalizeDepsPlugin pkgAnalysis);
    (* because dts-bundler gets confused by code-splitting *)
    Own (externalizeExportsPlugin env pkgAnalysis);
    Imported "rollup-plugin-dts";
    Imported "@rollup/plugin-node-resolve" ].

Definition buildTypesOutputOptions (pkgDir : string) : RollupOutputOptions :=
  {| format := "esm";
     dir := Some (joinPaths [pkgDir; "dist"]);
     file := None;
     entryFileNames := Some "[name].d.ts";
     sourcemap := None;
     exportsMode := None;
     globals := None;
     name := None |}.

(** The requests of [bundleTypes], in order. *)
Definition bundleTypes (env : Env) (pkgAnalysis : PkgAnalysis)
    : list Request :=
  let typesEnabled :=
    orDefault (buildConfig (pkgMeta pkgAnalysis) ≫= types) true in
  if negb typesEnabled then []
  else
    [ Rollup (InputMap (buildInputMap pkgAnalysis ".d.ts"))
             (buildTypesPlugins env pkgAnalysis);
      BundleWrite (buildTypesOutputOptions (pkgDir pkgAnalysis));
      BundleClose ].

(** ** Watch mode *)

(** The options of a [rollupWatch] call. *)
Record RollupWatchOptions : Type := {
  watchInput : RollupInput;
  watchPlugins : list PluginRef;
  watchOutput : RollupOutputOptions;
}.


(** The watcher that [continuouslyBundleIifes] starts for one source path of
    an entry. *)
Definition iifeWatcher (env : Env) (pkgAnalysis : PkgAnalysis)
    (entryConfig : EntryConfig) (iifeConfig : IifeConfig)
    (relSrcPath : string) : RollupWatchOptions :=
  let outputOptions :=
    buildIifeOutputOptions (pkgDir pkgAnalysis) entryConfig relSrcPath in
  {| watchInput :=
       InputFile (buildTscPath (pkgDir pkgAnalysis) relSrcPath ".iife.js");
     watchPlugins :=
       buildIifePlugins env pkgAnalysis (orDefault (iifeGlobals iifeConfig) ∅);
     watchOutput := outputOptions |}.

(** The loop of [continuouslyBundleIifes]: the watchers started, and the
    exception that ended the loop, if any.  Reading [.iife] of an entry
    configuration that is [undefined] throws; the watchers of the entries
    before it are running by then.  Under a name of [Object.prototype] the
    configuration read is a built-in value, which has no [iife]. *)
Fixpoint iifeWatchers (env : Env) (pkgAnalysis : PkgAnalysis)
    (entries : list (string * list string))
    : list RollupWatchOptions * option Exception :=
  match entries with
  | [] => ([], None)
  | (entryId, relSrcPaths) :: rest =>
      match objGet entryId (entryConfigMap pkgAnalysis) with
      | None =>
          if inheritsProp entryId then iifeWatchers env pkgAnalysis rest
          else ([], Some (TypeError "entryConfig is undefined"))
      | Some entryConfig =>
          let watchers :=
            match iife entryConfig with
            | Some iifeConfig =>
                map (iifeWatcher env pkgAnalysis entryConfig iifeConfig)
                    relSrcPaths
            | None => []
            end in
          let '(more, exn) := iifeWatchers env pkgAnalysis rest in
          (watchers ++ more, exn)
      end
  end.

Definition continuouslyBundleIifes (env : Env) (pkgAnalysis : PkgAnalysis)
    : list RollupWatchOptions * option Exception :=
  iifeWatchers env pkgAnalysis (forInEntries (relSrcPathMap pkgAnalysis)).

(** ** The entry point of the script *)








(** ** The manifest written to [dist] *)





(** ** Resource mutations *)

(** The event definition ([EventDef] of [@fullcalendar/core]), by the
    fields that the functions below read and write. *)
Record EventDef : Type := {
  resourceIds : list string;
  (** [None] for [null] or [undefined] *)
  resourceEditable : option bool;
  sourceId : string;
}.

(** An event source, by the [resourceEditable] of its [extendedProps]. *)
Record EventSource : Type := {
  sourceResourceEditable : option bool;
}.

(** What [computeResourceEditable] reads of the reducer context: the event
    sources of the current state, a plain object given by its own
    properties, and two options. *)
Record ReducerContext : Type := {
  eventSources : gmap string EventSource;
  eventResourceEditable : option bool;
  editable : option bool;
}.

(** The [resourceMutation] of an event mutation. *)
Record ResourceMutation : Type := {
  matchResourceId : string;
  setResourceId : string;
}.

(** A resource id that is present and not empty: what [resource0 && ..]
    tests. *)
Definition truthyId (resourceId : option string) : option string :=
  match resourceId with
  | Some (String c r) => Some (String c r)
  | _ => None
  end.

(** [massageEventDragMutation], by the [resourceMutation] it leaves in the
    event mutation; [hit0] and [hit1] are given by the [resourceId] of
    their date spans. *)
Definition massageEventDragMutation (resourceMutation : option ResourceMutation)
    (hit0 hit1 : option string) : option ResourceMutation :=
  match truthyId hit0, truthyId hit1 with
  | Some resource0, Some resource1 =>
      if negb (String.eqb resource0 resource1)
      then Some {| matchResourceId := resource0; setResourceId := resource1 |}
      else resourceMutation
  | _, _ => resourceMutation
  end.

(** [l.indexOf(x)], [None] standing for [-1]. *)
Fixpoint indexOf (x : string) (l : list string) : option nat :=
  match l with
  | [] => None
  | y :: l' => if String.eqb y x then Some 0 else (S <$> indexOf x l')
  end.

(** What [eventSources[sourceId]] gives when the event has a source id:
    the source stored under it, or the built-in value that the object
    inherits under that name. *)
Inductive SourceRead : Type :=
  | OwnSource (source : EventSource)
  | InheritedSource
  | NoSource.

Definition readEventSource (context : ReducerContext) (sourceId : string)
    : SourceRead :=
  if Str.isEmpty sourceId then NoSource
  else match eventSources context !! sourceId with
       | Some source => OwnSource source
       | None => if inheritsProp sourceId then InheritedSource else NoSource
       end.

(** A built-in value has no [extendedProps]: reading [resourceEditable] of
    it throws. *)
Definition computeResourceEditable (eventDef : EventDef)
    (context : ReducerContext) : Completion (option bool) :=
  let fromOptions :=
    match eventResourceEditable context with
    | Some b => Some b
    | None => editable context
    end in
  match resourceEditable eventDef with
  | Some b => Returns (Some b)
  | None =>
      match readEventSource context (sourceId eventDef) with
      | OwnSource source =>
          match sourceResourceEditable source with
          | Some b => Returns (Some b)
          | None => Returns fromOptions
          end
      | InheritedSource =>
          Throws "Cannot read properties of undefined (reading 'resourceEditable')"
      | NoSource => Returns fromOptions
      end
  end.

(** [applyEventDefMutation], by the event definition it leaves.  Without a
    resource mutation [computeResourceEditable] is not called. *)
Definition applyEventDefMutation (eventDef : EventDef)
    (resourceMutation : option ResourceMutation) (context : ReducerContext)
    : Completion EventDef :=
  match resourceMutation with
  | Some resourceMutation =>
      match computeResourceEditable eventDef context with
      | Throws reason => Throws reason
      | Returns editable =>
          if orDefault editable false then
            match indexOf (matchResourceId resourceMutation)
                    (resourceIds eventDef) with
            | Some index =>
                (* copy, then remove *)
                let resourceIds := delete index (resourceIds eventDef) in
                let resourceIds :=
                  match indexOf (setResourceId resourceMutation)
                          resourceIds with
                  | None => resourceIds ++ [setResourceId resourceMutation]
                  | Some _ => resourceIds (* already in there *)
                  end in
                Returns {| resourceIds := resourceIds;
                           resourceEditable := resourceEditable eventDef;
                           sourceId := sourceId eventDef |}
            | None => Returns eventDef
            end
          else Returns eventDef
      end
  | None => Returns eventDef
  end.

(** * The vocabulary of the properties *)

(** ** Proof automation *)

(** Evaluates the comparisons of closed strings in the goal. *)
Ltac eval_eqb :=
  repeat match goal with
         | |- context [String.eqb ?a ?b] =>
             let v := eval vm_compute in (String.eqb a b) in
             progress change (String.eqb a b) with v
         end.

(** ** The content generator adapter *)

(** The generator module loads and the call of its default export with
    the entry id returns. *)
Definition generatorReturns (env : Env) (entryId generatorPath : string)
    : Prop :=
  ∃ generatorFunc generatorRes,
    importDefault env generatorPath = Returns (JFunction generatorFunc)
    ∧ generatorFunc entryId = Returns generatorRes.

(** The four ways in which a generator breaks its contract. *)
Definition generatorFault (env : Env) (entryId generatorPath : string)
    : Prop :=
  (∃ defaultExport,
      importDefault env generatorPath = Returns defaultExport
      ∧ typeOf defaultExport ≠ "function")
  ∨ ∃ generatorFunc generatorRes,
      importDefault env generatorPath = Returns (JFunction generatorFunc)
      ∧ generatorFunc entryId = Returns generatorRes
      ∧ ((typeOf generatorRes = "string" ∧ Str.contains "*" entryId = true)
         ∨ (typeOf generatorRes = "object"
            ∧ Str.contains "*" entryId = false)
         ∨ (typeOf generatorRes ≠ "string" ∧ typeOf generatorRes ≠ "object")).

(** ** Externalize-Dependencies *)

(** What the spread [{...dependencies, ...peerDependencies}] holds. *)
Definition isRuntimeOrPeerDep (pkgMeta : SrcPkgMeta) (pkgName : string)
    : Prop :=
  pkgName ∈ dom (dependencies pkgMeta)
  ∨ pkgName ∈ dom (peerDependencies pkgMeta).

(** The characters of [s] all satisfy [p]. *)
Fixpoint allChars (p : ascii → bool) (s : string) : bool :=
  match s with
  | EmptyString => true
  | String c s' => p c && allChars p s'
  end.

(** [rest] is empty or starts with a slash: a package name ends there. *)
Definition endsName (rest : string) : bool :=
  match rest with
  | EmptyString => true
  | String c _ => Path.isSlash c
  end.

(** The leading package-name segment of a bare specifier, in the words of
    the specification: the text before the first slash, and for a scoped
    specifier [@scope/name/..] the text before the second slash. *)
Definition leadingPackageSegment (id : string) : string :=
  let notSlash := λ c, negb (Path.isSlash c) in
  let '(first, rest) := Str.span notSlash id in
  if Str.startsWith "@" id then
    match Str.stripPrefix "/" rest with
    | Some afterSlash =>
        let '(second, _) := Str.span notSlash afterSlash in
        first +:+ "/" +:+ second
    | None => first
    end
  else first.

(** ** The module pipeline *)

(** The two output kinds of the module pipeline, as [bundleModules] reads
    them from the build configuration: a flag that is absent counts as
    enabled. *)
Definition esmEnabled (pkgAnalysis : PkgAnalysis) : bool :=
  orDefault
    (esm (orDefault (buildConfig (pkgMeta pkgAnalysis)) emptyBuildConfig))
    true.

Definition cjsEnabled (pkgAnalysis : PkgAnalysis) : bool :=
  orDefault
    (cjs (orDefault (buildConfig (pkgMeta pkgAnalysis)) emptyBuildConfig))
    true.

(** The requests hold a call of [rollup]. *)
Definition invokesBundler (requests : list Request) : bool :=
  existsb isRollup requests.

(** ** The IIFE pipeline *)

(** The entry declares an [iife] sub-configuration. *)
Definition declaresIife (entryConfigMap : EntryConfigMap) (entryId : string)
    : bool :=
  match objGet entryId entryConfigMap with
  | Some entryConfig => bool_decide (is_Some (iife entryConfig))
  | None => false
  end.

(** The (entry, resolved source path) pairs that get a pass. *)
Definition iifePairs (pkgAnalysis : PkgAnalysis) : list (string * string) :=
  List.filter (λ pr, declaresIife (entryConfigMap pkgAnalysis) pr.1)
    (entrySrcPairs (relSrcPathMap pkgAnalysis)).

(** [pkgDir/dist/<output id>.js]. *)
Definition iifeOutputFile (pkgDir relSrcPath : string) : string :=
  joinPaths [pkgDir; "dist"; buildOutputId relSrcPath] +:+ ".js".

(** The inputs of the [rollup] calls of a pass. *)
Definition rollupInputs (pass : list Request) : list RollupInput :=
  omap (λ r, match r with Rollup input _ => Some input | _ => None end) pass.

(** ** Externalize-Exports *)

(** The import path of [id] is the compiled [.js] path of one of the
    resolved source paths of the analysis. *)
Definition importsOwnEntryPoint (env : Env) (pkgAnalysis : PkgAnalysis)
    (id : string) (importer : option string) : Prop :=
  ∃ pr, pr ∈ entrySrcPairs (relSrcPathMap pkgAnalysis)
        ∧ computeImportPath (cwd env) id importer
          = Some (buildTscPath (pkgDir pkgAnalysis) pr.2 ".js").

(** ** Package analysis *)

(** The assignments of a step. *)
Definition stepWrites (s : Step) : list Write :=
  match s with
  | Writes ws => ws
  | Fails _ => []
  end.

(** The step throws nothing. *)
Definition succeeds (s : Step) : Prop :=
  match s with
  | Writes _ => True
  | Fails _ => False
  end.

#[local] Instance succeeds_dec (s : Step) : Decision (succeeds s).
Proof. destruct s; simpl; apply _. Defined.

(** The key that an assignment writes, by the map it writes to. *)
Definition entryContentKey (w : Write) : option string :=
  match w with WriteEntryContent k _ => Some k | _ => None end.

Definition iifeEntryContentKey (w : Write) : option string :=
  match w with WriteIifeEntryContent k _ => Some k | _ => None end.

Definition relSrcPathsKey (w : Write) : option string :=
  match w with WriteRelSrcPaths k _ => Some k | _ => None end.

(** The source paths that the last assignment to [relSrcPathMap[k]] stored. *)
Fixpoint lastRelSrcPaths (k : string) (ws : list Write)
    : option (list string) :=
  match ws with
  | [] => None
  | w :: ws' =>
      match lastRelSrcPaths k ws' with
      | Some paths => Some paths
      | None =>
          match w with
          | WriteRelSrcPaths k' paths =>
              if String.eqb k' k then Some paths else None
          | _ => None
          end
      end
  end.

(** No key is assigned two different lists of source paths. *)
Definition singleValued (ws : list Write) : Prop :=
  ∀ k paths paths',
    WriteRelSrcPaths k paths ∈ ws → WriteRelSrcPaths k paths' ∈ ws →
    paths = paths'.

(** The export map of the manifest of [pkgDir]; it is empty when the
    manifest cannot be read. *)
Definition exportMapOf (env : Env) (pkgDir : string) : EntryConfigMap :=
  match readSrcPkgMeta env pkgDir with
  | Fulfilled pkgMeta => entryConfigMapOf pkgMeta
  | Rejected _ => []
  end.

(** The source paths that the callback of [entryId] resolves. *)
Definition resolvedSrcPaths (env : Env) (pkgDir : string)
    (entryConfigMap : EntryConfigMap) (entryId : string) : list string :=
  match objGet entryId entryConfigMap with
  | None => []
  | Some entryConfig =>
      match truthyRef (generator entryConfig) with
      | Some generator =>
          match generateEntryContent env entryId
                  (joinPaths [pkgDir; generator]) with
          | Fulfilled contentMap =>
              map (λ entryId, entryId +:+ ".ts") (objKeys contentMap)
          | Rejected _ => []
          end
      | None =>
          match queryRelSrcPaths env pkgDir entryId with
          | Fulfilled relSrcPaths => relSrcPaths
          | Rejected _ => []
          end
      end
  end.

(** Two analyses have the same structure: the same package, the same entry
    identifiers, the same resolved source paths for each entry, and the
    same keys in each of the two generated-content mappings. *)
Definition sameStructure (a1 a2 : PkgAnalysis) : Prop :=
  pkgDir a1 = pkgDir a2
  ∧ pkgMeta a1 = pkgMeta a2
  ∧ entryConfigMap a1 = entryConfigMap a2
  ∧ (∀ entryId, entryId ∈ objKeys (relSrcPathMap a1)
                ↔ entryId ∈ objKeys (relSrcPathMap a2))
  ∧ (∀ entryId, objGet entryId (relSrcPathMap a1)
                = objGet entryId (relSrcPathMap a2))
  ∧ (∀ k, k ∈ objKeys (entryContentMap a1)
          ↔ k ∈ objKeys (entryContentMap a2))
  ∧ (∀ k, k ∈ objKeys (iifeEntryContentMap a1)
          ↔ k ∈ objKeys (iifeEntryContentMap a2)).

(** Two runs end alike: both reject, or both return analyses of the same
    structure. *)
Definition sameOutcome (r1 r2 : Promise PkgAnalysis) : Prop :=
  match r1, r2 with
  | Fulfilled a1, Fulfilled a2 => sameStructure a1 a2
  | Rejected _, Rejected _ => True
  | _, _ => False
  end.

(** The entry identifiers of the analysis that a run returned, in the
    order in which [relSrcPathMap] lists them. *)
Definition entryIdsOf (run : option (Promise PkgAnalysis)) : list string :=
  match run with
  | Some (Fulfilled pkgAnalysis) => objKeys (relSrcPathMap pkgAnalysis)
  | _ => []
  end.

(** ** Example packages *)

(** The built-in functions of [Object.prototype], called with a string and
    without a receiver, as Node runs them: [toString] names the type of
    [undefined], [isPrototypeOf] answers no, [constructor] wraps the string
    in an object whose properties are its characters, and the others refuse
    [undefined]. *)
Definition objectPrototypeCall (name arg : string) : Completion JsValue :=
  if String.eqb name "toString" then Returns (JString "[object Undefined]")
  else if String.eqb name "isPrototypeOf" then Returns (JBoolean false)
  else if String.eqb name "constructor" then
    Returns (JObject (imap (λ i c, (pretty i, JString (String c EmptyString)))
                        (String.list_ascii_of_string arg)))
  else Throws "Cannot convert undefined or null to object".

(** The package of end-to-end scenario 2: one wildcard entry whose
    generator returns the mapping [{a, b}]. *)
Definition pluginsEnv : Env :=
  {| importDefault := λ path,
       if String.eqb path "/pkg/generate-plugins.js" then
         Returns (JFunction (λ _, Returns
           (JObject [("a", JString "export const a = 1");
                     ("b", JString "export const b = 2")])))
       else Returns JUndefined;
     globby := λ _ _, Fulfilled [];
     readSrcPkgMeta := λ _,
       Fulfilled
         {| dependencies := ∅; peerDependencies := ∅; devDependencies := ∅;
            buildConfig := Some
              {| esm := None; cjs := None; types := None;
                 exports := Some
                   [("./plugins/*",
                     {| generator := Some "./generate-plugins.js";
                        iife := None |})] |} |};
     cwd := "/pkg";
     builtinCall := objectPrototypeCall |}.

(** A package whose generator names its themes with dollar signs. *)
Definition dollarKeysEnv : Env :=
  {| importDefault := λ path,
       if String.eqb path "/pkg/generate-themes.js" then
         Returns (JFunction (λ _, Returns
           (JObject [("$&", JString "export const all = 0");
                     ("a$$", JString "export const a = 1");
                     ("a$", JString "export const b = 2")])))
       else Returns JUndefined;
     globby := λ _ _, Fulfilled [];
     readSrcPkgMeta := λ _,
       Fulfilled
         {| dependencies := ∅; peerDependencies := ∅; devDependencies := ∅;
            buildConfig := Some
              {| esm := None; cjs := None; types := None;
                 exports := Some
                   [("./themes/*",
                     {| generator := Some "./generate-themes.js";
                        iife := None |})] |} |};
     cwd := "/pkg";
     builtinCall := objectPrototypeCall |}.

(** A package whose runtime dependency has a digit in its name. *)
Definition d3Analysis : PkgAnalysis :=
  {| pkgDir := "/pkg";
     pkgMeta := {| dependencies := {[ "d3-array" := "^3.2.0" ]};
                   peerDependencies := ∅;
                   devDependencies := ∅;
                   buildConfig := None |};
     entryConfigMap := [];
     relSrcPathMap := [];
     entryContentMap := [];
     iifeEntryContentMap := [] |}.

(** A package that lists lodash among its development dependencies only. *)
Definition devOnlyAnalysis : PkgAnalysis :=
  {| pkgDir := "/pkg";
     pkgMeta := {| dependencies := {[ "preact" := "~10.12.1" ]};
                   peerDependencies := {[ "@fullcalendar/core" := "~6.0.0" ]};
                   devDependencies := {[ "lodash" := "^4.17.21" ]};
                   buildConfig := None |};
     entryConfigMap := [];
     relSrcPathMap := [];
     entryContentMap := [];
     iifeEntryContentMap := [] |}.

(** Two entries whose source paths share an output identifier. *)
Definition collidingAnalysis : PkgAnalysis :=
  {| pkgDir := "/pkg";
     pkgMeta := {| dependencies := ∅; peerDependencies := ∅;
                   devDependencies := ∅; buildConfig := None |};
     entryConfigMap :=
       [("./global", {| generator := None;
                        iife := Some {| iifeName := Some "FullCalendar";
                                        iifeGlobals := None;
                                        iifeGenerator := None |} |});
        ("./lib", {| generator := None; iife := None |});
        ("./global.alt", {| generator := None;
                            iife := Some {| iifeName := None;
                                            iifeGlobals := None;
                                            iifeGenerator := None |} |})];
     relSrcPathMap :=
       [("./global", ["global.ts"]);
        ("./lib", ["lib.ts"]);
        ("./global.alt", ["./global.tsx"])];
     entryContentMap := [];
     iifeEntryContentMap := [] |}.

(** A package with a root entry and an [internal] entry; the declaration
    file of the root imports the other one. *)
Definition twoEntryAnalysis : PkgAnalysis :=
  {| pkgDir := "/pkg";
     pkgMeta := {| dependencies := ∅; peerDependencies := ∅;
                   devDependencies := ∅; buildConfig := None |};
     entryConfigMap := [(".", {| generator := None; iife := None |});
                        ("./internal", {| generator := None; iife := None |})];
     relSrcPathMap := [(".", ["index.ts"]); ("./internal", ["internal.ts"])];
     entryContentMap := [];
     iifeEntryContentMap := [] |}.

(** A package with a generated wildcard entry and a root entry that has an
    IIFE generator: the callback of the root entry takes two turns. *)
Definition concurrentEnv : Env :=
  {| importDefault := λ path,
       if String.eqb path "/pkg/generate-plugins.js" then
         Returns (JFunction (λ _, Returns
           (JObject [("a", JString "export const a = 1");
                     ("b", JString "export const b = 2")])))
       else if String.eqb path "/pkg/generate-global.js" then
         Returns (JFunction (λ _, Returns (JString "import './index.js'")))
       else Returns JUndefined;
     globby := λ pattern _,
       Fulfilled
         (if String.eqb pattern "index.{ts,tsx}" then ["index.ts"] else []);
     readSrcPkgMeta := λ _,
       Fulfilled
         {| dependencies := ∅; peerDependencies := ∅; devDependencies := ∅;
            buildConfig := Some
              {| esm := None; cjs := None; types := None;
                 exports := Some
                   [("./plugins/*",
                     {| generator := Some "./generate-plugins.js";
                        iife := None |});
                    (".",
                     {| generator := None;
                        iife := Some
                          {| iifeName := Some "FullCalendar";
                             iifeGlobals := None;
                             iifeGenerator := Some "./generate-global.js" |}
                     |})] |} |};
     cwd := "/pkg";
     builtinCall := objectPrototypeCall |}.

(** A package whose generator fails while it runs. *)
Definition failingGeneratorEnv : Env :=
  {| importDefault := λ path,
       if String.eqb path "/pkg/generate-locales.js" then
         Returns (JFunction (λ _, Throws
           "ENOENT: no such file or directory, scandir 'src/locales'"))
       else Returns JUndefined;
     globby := λ _ _, Fulfilled [];
     readSrcPkgMeta := λ _,
       Fulfilled
         {| dependencies := ∅; peerDependencies := ∅; devDependencies := ∅;
            buildConfig := Some
              {| esm := None; cjs := None; types := None;
                 exports := Some
                   [("./locales/*",
                     {| generator := Some "./generate-locales.js";
                        iife := None |})] |} |};
     cwd := "/pkg";
     builtinCall := objectPrototypeCall |}.

(** A directory without manifest: the reader of the manifest rejects. *)
Definition missingManifestEnv : Env :=
  {| importDefault := λ _, Throws "Cannot find module";
     globby := λ _ _, Fulfilled [];
     readSrcPkgMeta := λ _,
       Rejected
         (IoError "ENOENT: no such file or directory, open 'package.json'");
     cwd := "/pkg";
     builtinCall := objectPrototypeCall |}.

(** A package whose root entry is generated. *)
Definition generatedRootEnv : Env :=
  {| importDefault := λ path,
       if String.eqb path "/pkg/generate-index.js" then
         Returns (JFunction (λ _, Returns
           (JString "export const version = '6.0.0'")))
       else Returns JUndefined;
     globby := λ _ _, Fulfilled [];
     readSrcPkgMeta := λ _,
       Fulfilled
         {| dependencies := ∅; peerDependencies := ∅; devDependencies := ∅;
            buildConfig := Some
              {| esm := None; cjs := None; types := None;
                 exports := Some
                   [(".", {| generator := Some "./generate-index.js";
                             iife := None |})] |} |};
     cwd := "/pkg";
     builtinCall := objectPrototypeCall |}.

(** * The vocabulary of the further properties *)

(** ** Paths *)

(** The text after the last slash of a path. *)
Definition lastSegment (path : string) : string :=
  List.last (Str.splitSlash path) "".

(** A segment that names a file or a directory: not empty, not [.] and not
    [..]. *)
Definition isName (seg : string) : bool :=
  negb (String.eqb seg "" || String.eqb seg "." || String.eqb seg "..").

(** The path ends in the name of a file or a directory. *)
Definition endsInName (path : string) : bool := isName (lastSegment path).

(** The path ends in [.ts] or [.tsx]. *)
Definition hasTsExt (path : string) : bool :=
  Str.endsWith ".ts" path || Str.endsWith ".tsx" path.


(** ** The pipelines *)


(** The types output, as [bundleTypes] reads it from the build
    configuration. *)
Definition typesEnabled (pkgAnalysis : PkgAnalysis) : bool :=
  orDefault (buildConfig (pkgMeta pkgAnalysis) ≫= types) true.

(** The names of the plugins of a pass, in their order. *)
Definition pluginNames (plugins : list PluginRef) : list string :=
  map (λ p, match p with
            | Own plugin => pluginName plugin
            | Imported package => package
            end) plugins.

(** The pass of a one-shot build that bundles what a watcher keeps
    bundling, and minifies the result. *)
Definition oneShotPass (watcher : RollupWatchOptions) : list Request :=
  [ Rollup (watchInput watcher) (watchPlugins watcher);
    BundleWrite (watchOutput watcher);
    BundleClose;
    minifyFile (orDefault (file (watchOutput watcher)) "") ].

(** ** Package analysis, entry by entry *)

(** A generator that the entry declares ends in an exception: the one of
    the entry itself, or its IIFE generator on one of the source paths of
    the entry. *)
Definition generatorRejects (env : Env) (pkgDir : string)
    (entryConfigMap : EntryConfigMap) (entryId : string) : Prop :=
  ∃ entryConfig,
    objGet entryId entryConfigMap = Some entryConfig
    ∧ ((∃ generatorRef exn,
          truthyRef (generator entryConfig) = Some generatorRef
          ∧ generateEntryContent env entryId
              (joinPaths [pkgDir; generatorRef])
            = Rejected exn)
       ∨ (∃ generatorRef relSrcPath exn,
            truthyRef (iife entryConfig ≫= iifeGenerator)
            = Some generatorRef
            ∧ relSrcPath
              ∈ resolvedSrcPaths env pkgDir entryConfigMap entryId
            ∧ generateEntryContent env (stripFirstTsx relSrcPath)
                (joinPaths [pkgDir; generatorRef])
              = Rejected exn)).

(** The entry declares no generator and the search for its source files
    fails. *)
Definition sourceQueryRejects (env : Env) (pkgDir : string)
    (entryConfigMap : EntryConfigMap) (entryId : string) : Prop :=
  ∃ entryConfig exn,
    objGet entryId entryConfigMap = Some entryConfig
    ∧ truthyRef (generator entryConfig) = None
    ∧ queryRelSrcPaths env pkgDir entryId = Rejected exn.

(** ** The plugins *)


(** ** Package names *)

(** The characters that a package name found by [extractPkgName] is made
    of. *)
Definition isScopedNameChar (c : ascii) : bool :=
  isPkgNameChar c || Ascii.eqb c "@" || Ascii.eqb c "/".

(** ** Packages without generators *)

(** No entry of the export map declares a generator, for itself or for
    its IIFE bundle. *)
Definition withoutGenerators (entryConfigMap : EntryConfigMap) : Prop :=
  ∀ entryId entryConfig,
    objGet entryId entryConfigMap = Some entryConfig →
    truthyRef (generator entryConfig) = None
    ∧ truthyRef (iife entryConfig ≫= iifeGenerator) = None.

(** The package of end-to-end scenario 1: a root entry without generator,
    one source file, no types; its environment cannot import anything. *)
Definition rootOnlyEnv : Env :=
  {| importDefault := λ _, Throws "Cannot find module";
     globby := λ pattern _,
       Fulfilled
         (if String.eqb pattern "index.{ts,tsx}" then ["index.ts"] else []);
     readSrcPkgMeta := λ _,
       Fulfilled
         {| dependencies := ∅; peerDependencies := ∅; devDependencies := ∅;
            buildConfig := Some
              {| esm := None; cjs := None; types := Some false;
                 exports := Some [(".", {| generator := None;
                                           iife := None |})] |} |};
     cwd := "/pkg";
     builtinCall := objectPrototypeCall |}.

(** ** Normalized paths *)

(** The shape of the stack of [normalizeString]: names above the [..]
    segments that climbed out of the start, which only a relative path
    keeps. *)
Definition normalStack (allowAboveRoot : bool) (stack : list string) : Prop :=
  ∃ names ups,
    stack = names ++ ups
    ∧ Forall (λ seg, isName seg = true) names
    ∧ Forall (λ seg, seg = "..") ups
    ∧ (allowAboveRoot = false → ups = []).

(** [pkgDir/dist/.tsc], as the plugins compute it. *)
Definition tscDirOf (pkgDir : string) : string :=
  joinPaths [pkgDir; "dist"; ".tsc"].

(** * Properties *)

(** ** Facts about the string functions *)

#[local] Arguments String.append !_ _ / : simpl nomatch.
#[local] Arguments Ascii.eqb : simpl never.

Lemma append_length (s t : string) :
  String.length (s +:+ t) = String.length s + String.length t.
Proof. induction s as [|c s IH]; simpl; [done | by rewrite IH]. Qed.

Lemma append_nil_r (s : string) : s +:+ "" = s.
Proof. induction s as [|c s IH]; simpl; [done | by rewrite IH]. Qed.

Lemma append_assoc (s t u : string) : (s +:+ t) +:+ u = s +:+ t +:+ u.
Proof. induction s as [|c s IH]; simpl; [done | by rewrite IH]. Qed.


Lemma eqb_neq_length (s t : string) :
  String.length s ≠ String.length t → String.eqb s t = false.
Proof.
  intros H. destruct (String.eqb s t) eqn:E; [|done].
  apply String.eqb_eq in E. by subst.
Qed.

(** A suffix that the expression matches, and that no longer suffix
    matches, is what [replaceAtEnd] replaces. *)
Lemma endsWith_app (suf s : string) :
  Str.endsWith suf s = true ↔ ∃ stem, s = stem +:+ suf.
Proof.
  induction s as [|c s IH]; cbn [Str.endsWith].
  - destruct (String.eqb "" suf) eqn:E.
    + apply String.eqb_eq in E as <-. split; [|done]. by exists "".
    + apply String.eqb_neq in E. split; [done|].
      intros ([|? ?] & Hs); simpl in Hs; [done | discriminate].
  - destruct (String.eqb (String c s) suf) eqn:E.
    + apply String.eqb_eq in E as <-. split; [|done]. by exists "".
    + apply String.eqb_neq in E. rewrite IH. split.
      * intros (stem & ->). by exists (String c stem).
      * intros ([|c' stem] & Hs); simpl in Hs; [done|].
        injection Hs as <- ->. by exists stem.
Qed.

Lemma replaceAtEnd_app (lang : string → bool) (repl s suf : string) :
  lang suf = true →
  (∀ c t, lang (String c t +:+ suf) = false) →
  Str.replaceAtEnd lang repl (s +:+ suf) = s +:+ repl.
Proof.
  intros Hsuf Hlonger. induction s as [|c s IH]; simpl.
  - destruct suf; simpl in *; by rewrite Hsuf.
  - pose proof (Hlonger c s) as Hc. simpl in Hc. by rewrite Hc, IH.
Qed.

Lemma isScriptExt_cases (t : string) :
  isScriptExt t = true → t = ".js" ∨ t = ".jsx" ∨ t = ".ts" ∨ t = ".tsx".
Proof.
  unfold isScriptExt. rewrite !orb_true_iff, !String.eqb_eq. tauto.
Qed.

Lemma isScriptExt_longer (ext : string) (c : ascii) (t : string) :
  isScriptExt ext = true → isScriptExt (String c t +:+ ext) = false.
Proof.
  intros Hext. destruct (isScriptExt (String c t +:+ ext)) eqn:E; [|done].
  apply isScriptExt_cases in E.
  apply isScriptExt_cases in Hext.
  destruct t as [|d t]; simpl in E.
  - destruct Hext as [-> | [-> | [-> | ->]]]; destruct E as [E|[E|[E|E]]];
      discriminate E.
  - assert (String.length (String c (String d (t +:+ ext))) ≥ 5) as Hlen.
    { simpl. rewrite append_length.
      destruct Hext as [-> | [-> | [-> | ->]]]; simpl; lia. }
    destruct E as [E|[E|[E|E]]]; rewrite E in Hlen; simpl in Hlen; lia.
Qed.

Lemma isTsExt_longer (c : ascii) (t : string) :
  isTsExt (String c t +:+ ".js") = false.
Proof.
  unfold isTsExt. apply orb_false_iff.
  split; destruct (String.eqb _ _) eqn:E; try done;
    apply String.eqb_eq in E; destruct t as [|d t]; simpl in E;
    try discriminate E;
    apply (f_equal String.length) in E; simpl in E;
    rewrite append_length in E; simpl in E; lia.
Qed.

Lemma stripDotSlash_prefixed (s : string) : stripDotSlash ("./" +:+ s) = s.
Proof. done. Qed.

Lemma stripDotSlash_other (s : string) :
  Str.startsWith "./" s = false → stripDotSlash s = s.
Proof.
  unfold Str.startsWith, stripDotSlash.
  by destruct (Str.stripPrefix "./" s).
Qed.

Lemma startsWith_dotSlash_ext (stem ext : string) :
  isScriptExt ext = true →
  Str.startsWith "./" (stem +:+ ext) = Str.startsWith "./" stem.
Proof.
  intros Hext%isScriptExt_cases.
  destruct stem as [|c [|d stem]].
  - by destruct Hext as [-> | [-> | [-> | ->]]].
  - destruct Hext as [-> | [-> | [-> | ->]]]; unfold Str.startsWith; simpl;
      by destruct (Ascii.eqb "." c).
  - unfold Str.startsWith. simpl.
    by destruct (Ascii.eqb "." c), (Ascii.eqb "/" d).
Qed.

Lemma buildOutputId_prefixed (stem ext : string) :
  isScriptExt ext = true → buildOutputId ("./" +:+ stem +:+ ext) = stem.
Proof.
  intros Hext. unfold buildOutputId. rewrite stripDotSlash_prefixed.
  rewrite replaceAtEnd_app; [apply append_nil_r | done |].
  intros c t. by apply isScriptExt_longer.
Qed.

Lemma buildOutputId_unprefixed (stem ext : string) :
  isScriptExt ext = true → Str.startsWith "./" stem = false →
  buildOutputId (stem +:+ ext) = stem.
Proof.
  intros Hext Hstem. unfold buildOutputId.
  rewrite stripDotSlash_other by (by rewrite startsWith_dotSlash_ext).
  rewrite replaceAtEnd_app; [apply append_nil_r | done |].
  intros c t. by apply isScriptExt_longer.
Qed.

(** C5.  [buildOutputId] is a function of the relative source path alone
    (equal paths give equal identifiers, however often it is called); it
    strips one leading [./] and one trailing [.js], [.jsx], [.ts] or [.tsx]:
    ["./foo/bar.ts"] gives ["foo/bar"], ["./index.tsx"] gives ["index"], a
    second [./] or a second extension stays. *)
Theorem buildOutputId_spec :
  buildOutputId "./foo/bar.ts" = "foo/bar"
  ∧ buildOutputId "./index.tsx" = "index"
  ∧ (∀ stem ext, isScriptExt ext = true →
       buildOutputId ("./" +:+ stem +:+ ext) = stem)
  ∧ (∀ stem ext, isScriptExt ext = true → Str.startsWith "./" stem = false →
       buildOutputId (stem +:+ ext) = stem)
  ∧ buildOutputId "././a.ts.tsx" = "./a.ts"
  ∧ (∀ p q, p = q → buildOutputId p = buildOutputId q).
Proof.
  split_and!; try reflexivity.
  - apply buildOutputId_prefixed.
  - apply buildOutputId_unprefixed.
  - by intros p q ->.
Qed.

Lemma buildOutputId_spec_witness :
  buildOutputId ("./" +:+ "locales/fr" +:+ ".jsx") = "locales/fr"
  ∧ buildOutputId ("index" +:+ ".js") = "index"
  ∧ buildOutputId "./a.ts" = buildOutputId "./a.ts".
Proof.
  destruct buildOutputId_spec as (_ & _ & Hpre & Hun & _ & Hfun).
  split_and!.
  - apply Hpre. reflexivity.
  - apply Hun; reflexivity.
  - apply Hfun. reflexivity.
Defined.

(** ** Facts about enumerated objects *)

Section ObjFacts.
Context {V : Type}.
Implicit Types (obj : list (string * V)) (k : string) (v : V).

Lemma objGet_is_Some k obj : is_Some (objGet k obj) ↔ k ∈ objKeys obj.
Proof.
  unfold objKeys. induction obj as [|[k0 v0] obj IH]; simpl.
  - rewrite elem_of_nil. split; [by intros [? ?] | done].
  - rewrite elem_of_cons. destruct (String.eqb k0 k) eqn:E.
    + apply String.eqb_eq in E. subst. split; eauto.
    + rewrite IH. split; [tauto|]. intros [->|H]; [|done].
      by rewrite String.eqb_refl in E.
Qed.

Lemma objKeys_objReplace k v obj : objKeys (objReplace k v obj) = objKeys obj.
Proof.
  unfold objKeys. induction obj as [|[k0 v0] obj IH]; simpl; [done|].
  destruct (String.eqb k0 k); simpl; [done|]. f_equal. apply IH.
Qed.

Lemma objGet_objReplace k v obj k' :
  objGet k' (objReplace k v obj)
  = if String.eqb k k' then (λ _, v) <$> objGet k obj else objGet k' obj.
Proof.
  induction obj as [|[k0 v0] obj IH]; simpl.
  - by destruct (String.eqb k k').
  - destruct (String.eqb k0 k) eqn:E; simpl.
    + apply String.eqb_eq in E. subst. by destruct (String.eqb k k').
    + rewrite IH. destruct (String.eqb k0 k') eqn:E'; [|done].
      apply String.eqb_eq in E'. subst. by rewrite String.eqb_sym, E.
Qed.

Lemma objKeys_objInsert k v obj : objKeys (objInsert k v obj) ≡ₚ k :: objKeys obj.
Proof.
  unfold objKeys. induction obj as [|[k0 v0] obj IH]; simpl; [done|].
  destruct (keyBefore k k0); simpl; [done|].
  etrans; [apply Permutation_skip, IH | apply Permutation_swap].
Qed.

Lemma objGet_objInsert k v obj k' :
  objGet k obj = None →
  objGet k' (objInsert k v obj)
  = if String.eqb k k' then Some v else objGet k' obj.
Proof.
  induction obj as [|[k0 v0] obj IH]; simpl; [done|].
  destruct (String.eqb k0 k) eqn:E; [done|]. intros Hnone.
  destruct (keyBefore k k0); simpl; [done|].
  rewrite IH by done. destruct (String.eqb k0 k') eqn:E'; [|done].
  apply String.eqb_eq in E'. subst. by rewrite String.eqb_sym, E.
Qed.


Lemma objKeys_objSet k v obj k' :
  k' ∈ objKeys (objSet k v obj) ↔ k' = k ∨ k' ∈ objKeys obj.
Proof.
  unfold objSet. destruct (objGet k obj) as [v0|] eqn:E.
  - rewrite objKeys_objReplace. split; [tauto|]. intros [->|?]; [|done].
    apply objGet_is_Some. by rewrite E.
  - by rewrite objKeys_objInsert, elem_of_cons.
Qed.


Lemma objGet_objSet k v obj k' :
  objGet k' (objSet k v obj) = if String.eqb k k' then Some v
                               else objGet k' obj.
Proof.
  unfold objSet. destruct (objGet k obj) as [v0|] eqn:E.
  - by rewrite objGet_objReplace, E.
  - by apply objGet_objInsert.
Qed.


Lemma objGet_Some_elem k v obj : objGet k obj = Some v → (k, v) ∈ obj.
Proof.
  induction obj as [|[k0 v0] obj IH]; simpl; [done|].
  destruct (String.eqb k0 k) eqn:E.
  - apply String.eqb_eq in E. intros [= <-]. subst. apply elem_of_cons. tauto.
  - intros H. apply elem_of_cons. right. by apply IH.
Qed.


End ObjFacts.

(** ** Facts about inherited properties *)

Lemma inheritsProp_elem (k : string) :
  inheritsProp k = true ↔ k ∈ objectPrototypeKeys.
Proof.
  unfold inheritsProp. rewrite existsb_exists. split.
  - intros (x & Hx%list_elem_of_In & ->%String.eqb_eq). done.
  - intros Hk. exists k. split; [by apply list_elem_of_In|].
    apply String.eqb_refl.
Qed.

Lemma not_inheritsProp (k : string) :
  k ∉ objectPrototypeKeys → inheritsProp k = false.
Proof.
  intros Hk. destruct (inheritsProp k) eqn:E; [|done].
  by apply inheritsProp_elem in E.
Qed.



(** ** The content generator adapter *)

Lemma generatorFault_returned (env : Env) (entryId generatorPath : string)
    (generatorFunc : string → Completion JsValue) (generatorRes : JsValue) :
  importDefault env generatorPath = Returns (JFunction generatorFunc) →
  generatorFunc entryId = Returns generatorRes →
  generatorReturns env entryId generatorPath
  ∧ (generatorFault env entryId generatorPath
     ↔ (typeOf generatorRes = "string" ∧ Str.contains "*" entryId = true)
       ∨ (typeOf generatorRes = "object" ∧ Str.contains "*" entryId = false)
       ∨ (typeOf generatorRes ≠ "string" ∧ typeOf generatorRes ≠ "object")).
Proof.
  intros Himport Hcall. unfold generatorReturns, generatorFault.
  rewrite Himport. split; [by exists generatorFunc, generatorRes|]. split.
  - intros [(d & [= <-] & Hty)|(f & res & [= <-] & Hres & Hcases)].
    + by destruct Hty.
    + rewrite Hcall in Hres. by injection Hres as <-.
  - intros Hcases. right. by exists generatorFunc, generatorRes.
Qed.

Lemma generatorFault_thrown (env : Env) (entryId generatorPath : string)
    (generatorFunc : string → Completion JsValue) (reason : string) :
  importDefault env generatorPath = Returns (JFunction generatorFunc) →
  generatorFunc entryId = Throws reason →
  ¬ generatorReturns env entryId generatorPath
  ∧ ¬ generatorFault env entryId generatorPath.
Proof.
  intros Himport Hcall. unfold generatorReturns, generatorFault.
  rewrite Himport. split.
  - intros (f & res & [= <-] & Hres). by rewrite Hcall in Hres.
  - intros [(d & [= <-] & Hty)|(f & res & [= <-] & Hres & _)].
    + by destruct Hty.
    + by rewrite Hcall in Hres.
Qed.

Lemma generatorFault_not_function (env : Env)
    (entryId generatorPath : string) (defaultExport : JsValue) :
  importDefault env generatorPath = Returns defaultExport →
  typeOf defaultExport ≠ "function" →
  ¬ generatorReturns env entryId generatorPath
  ∧ generatorFault env entryId generatorPath.
Proof.
  intros Himport Hty. unfold generatorReturns, generatorFault.
  rewrite Himport. split.
  - intros (f & res & [= ->] & _). by destruct Hty.
  - left. by exists defaultExport.
Qed.

Lemma generatorFault_import_throws (env : Env)
    (entryId generatorPath reason : string) :
  importDefault env generatorPath = Throws reason →
  ¬ generatorReturns env entryId generatorPath
  ∧ ¬ generatorFault env entryId generatorPath.
Proof.
  intros Himport. unfold generatorReturns, generatorFault.
  rewrite Himport. split.
  - by intros (f & res & [=] & _).
  - by intros [(d & [=] & _)|(f & res & [=] & _)].
Qed.

(** C1, as stated, fails: a generator that throws is none of the four
    faults, and [generateEntryContent] returns no content mapping. *)
Lemma generateEntryContent_generator_throws :
  ¬ generatorFault failingGeneratorEnv "./locales/*"
      "/pkg/generate-locales.js"
  ∧ generateEntryContent failingGeneratorEnv "./locales/*"
      "/pkg/generate-locales.js"
    = Rejected (GeneratorError
        "ENOENT: no such file or directory, scandir 'src/locales'").
Proof.
  split; [|reflexivity].
  intros [(d & [= <-] & Hty)|(f & res & [= <-] & [=] & _)]. by apply Hty.
Qed.

(** C1, amended.  [generateEntryContent] raises a configuration error
    exactly when the default export of the generator module is not a
    function, or the generator's result is a string for an entry id with a
    [*], or is an object (what [typeof] calls an object: a mapping, an array
    or [null]) for an entry id without [*], or is neither a string nor an
    object.  In every other case in which the module loads and the
    generator's call returns, it returns a content mapping; an exception of
    the [import] or of the generator itself propagates unmodified. *)
Theorem generateEntryContent_throws_iff (env : Env)
    (entryId generatorPath : string) :
  ((∃ msg, generateEntryContent env entryId generatorPath
           = Rejected (ConfigError msg))
   ↔ generatorFault env entryId generatorPath)
  ∧ ((∃ contentMap,
        generateEntryContent env entryId generatorPath = Fulfilled contentMap)
     ↔ generatorReturns env entryId generatorPath
       ∧ ¬ generatorFault env entryId generatorPath)
  ∧ (∀ reason,
       importDefault env generatorPath = Throws reason →
       generateEntryContent env entryId generatorPath
       = Rejected (ImportError reason))
  ∧ (∀ generatorFunc reason,
       importDefault env generatorPath = Returns (JFunction generatorFunc) →
       generatorFunc entryId = Throws reason →
       generateEntryContent env entryId generatorPath
       = Rejected (GeneratorError reason)).
Proof.
  unfold generateEntryContent.
  destruct (importDefault env generatorPath) as [defaultExport|reason]
    eqn:Himport.
  - destruct (typeOf defaultExport =? "function")%string eqn:Hty.
    + destruct defaultExport as [| | | | | |generatorFunc]; try done.
      clear Hty.
      destruct (generatorFunc entryId) as [generatorRes|reason] eqn:Hcall.
      * destruct (generatorFault_returned _ _ _ _ _ Himport Hcall)
          as [Hret ->].
        rewrite <- !(String.eqb_eq (typeOf generatorRes)).
        split_and!; [| |done|intros ? ? [= <-]; by rewrite Hcall].
        all: destruct generatorRes; eval_eqb; simpl;
          destruct (Str.contains "*" entryId); simpl; split.
        all: try (intros _; by eexists).
        all: try (intros [? [=]]).
        all: try (intuition congruence).
      * destruct (generatorFault_thrown _ _ _ _ _ Himport Hcall)
          as [Hret Hfault].
        split_and!; [split | split | done | ].
        -- by intros [? [=]].
        -- done.
        -- by intros [? [=]].
        -- by intros [? _].
        -- intros ? ? [= <-]. rewrite Hcall. by intros [= <-].
    + assert (typeOf defaultExport ≠ "function") as Hne.
      { intros Heq. rewrite Heq in Hty. done. }
      destruct (generatorFault_not_function _ entryId _ _ Himport Hne)
        as [Hret Hfault].
      destruct defaultExport; try done;
        (split_and!; [split | split | done | done];
         [done | intros _; by eexists | by intros [? [=]] | by intros [? _]]).
  - destruct (generatorFault_import_throws _ entryId _ _ Himport)
      as [Hret Hfault].
    split_and!; [split | split | by intros ? [= <-] | done].
    + by intros [? [=]].
    + done.
    + by intros [? [=]].
    + by intros [? _].
Qed.

Lemma generateEntryContent_throws_iff_witness :
  generateEntryContent pluginsEnv "./plugins/*" "/pkg/missing.js"
  = Rejected (ConfigError "Generator must have a default function export")
  ∧ generateEntryContent failingGeneratorEnv "./locales/*"
      "/pkg/generate-locales.js"
    = Rejected (GeneratorError
        "ENOENT: no such file or directory, scandir 'src/locales'").
Proof.
  split.
  - destruct (proj2 (proj1 (generateEntryContent_throws_iff pluginsEnv
                              "./plugins/*" "/pkg/missing.js")))
      as [msg Hmsg].
    + left. exists JUndefined. split; [reflexivity | discriminate].
    + reflexivity.
  - apply (proj2 (proj2 (proj2 (generateEntryContent_throws_iff
             failingGeneratorEnv "./locales/*" "/pkg/generate-locales.js")))
             _ _ eq_refl eq_refl).
Defined.

(** C2.  The claim fails on keys that hold a replacement pattern:
    [entryId.replace('*', key)] reads [$&] in the key as the text that
    matched and [$$] as one dollar sign.  The generator of ["./themes/*"]
    returns three keys, [$&], [a$$] and [a$]; the content mapping has two
    entries, the first under the entry id itself and the second under the
    id that the last two keys share, with the text of the last one, and
    the analysis resolves two source paths. *)
Theorem generateEntryContent_dollar_keys :
  generateEntryContent dollarKeysEnv "./themes/*" "/pkg/generate-themes.js"
  = Fulfilled [("./themes/*", JString "export const all = 0");
               ("./themes/a$", JString "export const b = 2")]
  ∧ match analyzePkg dollarKeysEnv "/pkg" with
    | Fulfilled pkgAnalysis =>
        relSrcPathMap pkgAnalysis
        = [("./themes/*", ["./themes/*.ts"; "./themes/a$.ts"])]
    | Rejected _ => False
    end.
Proof. split; vm_compute; reflexivity. Qed.

(** ** Externalize-Dependencies *)

Lemma extractPkgName_nonempty (importId pkgName : string) :
  extractPkgName importId = Some pkgName → Str.isEmpty pkgName = false.
Proof.
  unfold extractPkgName.
  destruct (Str.stripPrefix "@" importId) as [afterAt|].
  - destruct (Str.span isPkgNameChar afterAt) as [scope rest].
    destruct (Str.stripPrefix "/" rest) as [afterSlash|]; [|done].
    destruct (Str.span isPkgNameChar afterSlash) as [name ?].
    destruct (Str.isEmpty scope || Str.isEmpty name); [done|].
    by intros [= <-].
  - destruct (Str.span isPkgNameChar importId) as [name ?].
    destruct (Str.isEmpty name) eqn:E; [done|]. by intros [= <-].
Qed.

Lemma externalizeDeps_resolveId (pkgAnalysis : PkgAnalysis)
    (id : string) (importer : option string) :
  resolveId (externalizeDepsPlugin pkgAnalysis) id importer
  = match extractPkgName id with
    | Some pkgName =>
        if bool_decide (isRuntimeOrPeerDep (pkgMeta pkgAnalysis) pkgName)
           || inheritsProp pkgName
        then Some (External id) else None
    | None => None
    end.
Proof.
  unfold externalizeDepsPlugin, isRuntimeOrPeerDep, hasProp. simpl.
  destruct (extractPkgName id) as [pkgName|] eqn:E; [|done].
  rewrite (extractPkgName_nonempty _ _ E). simpl.
  erewrite bool_decide_ext; [done|].
  rewrite <- elem_of_dom, dom_union, elem_of_union. tauto.
Qed.

Lemma span_app (p : ascii → bool) (name rest : string) :
  allChars p name = true →
  match rest with EmptyString => True | String c _ => p c = false end →
  Str.span p (name +:+ rest) = (name, rest).
Proof.
  intros Hname Hrest. induction name as [|c name IH]; simpl in *.
  - destruct rest as [|c rest]; [done|]. simpl. by rewrite Hrest.
  - apply andb_true_iff in Hname as [-> Hname]. by rewrite IH.
Qed.

Lemma endsName_not_pkgNameChar (rest : string) :
  endsName rest = true →
  match rest with
  | EmptyString => True
  | String c _ => isPkgNameChar c = false
  end.
Proof.
  destruct rest as [|c rest]; [done|]. unfold endsName, Path.isSlash.
  intros ->%Ascii.eqb_eq. reflexivity.
Qed.

Lemma allChars_not_at (name : string) :
  allChars isPkgNameChar name = true → Str.isEmpty name = false →
  Str.stripPrefix "@" name = None.
Proof.
  destruct name as [|c name]; [done|]. simpl.
  intros [Hc _]%andb_true_iff _.
  destruct (Ascii.eqb "@" c) eqn:E; [|done].
  apply Ascii.eqb_eq in E. by subst.
Qed.

Lemma extractPkgName_unscoped (name rest : string) :
  allChars isPkgNameChar name = true → Str.isEmpty name = false →
  endsName rest = true →
  extractPkgName (name +:+ rest) = Some name.
Proof.
  intros Hname Hne Hrest. unfold extractPkgName.
  assert (Str.stripPrefix "@" (name +:+ rest) = None) as ->.
  { pose proof (allChars_not_at name Hname Hne) as Hat.
    destruct name as [|c name]; [done|]. simpl in *.
    by destruct (Ascii.eqb "@" c). }
  rewrite span_app; [by rewrite Hne | done |].
  by apply endsName_not_pkgNameChar.
Qed.

Lemma extractPkgName_scoped (scope name rest : string) :
  allChars isPkgNameChar scope = true → Str.isEmpty scope = false →
  allChars isPkgNameChar name = true → Str.isEmpty name = false →
  endsName rest = true →
  extractPkgName ("@" +:+ scope +:+ "/" +:+ name +:+ rest)
  = Some ("@" +:+ scope +:+ "/" +:+ name).
Proof.
  intros Hscope Hs Hname Hn Hrest. unfold extractPkgName. simpl.
  rewrite span_app; [|done|reflexivity]. simpl.
  rewrite span_app; [|done|by apply endsName_not_pkgNameChar].
  by rewrite Hs, Hn.
Qed.

(** C3.  The claim fails on a package name that holds a digit:
    ["d3-array"] is a runtime dependency and the leading package-name
    segment of ["d3-array/src/bisect.js"], yet the plugin defers, because
    the character class of [extractPkgName] has no digits and the name it
    finds is ["d"]. *)
Theorem externalizeDeps_digit_name_deferred :
  leadingPackageSegment "d3-array/src/bisect.js" = "d3-array"
  ∧ "d3-array" ∈ dom (dependencies (pkgMeta d3Analysis))
  ∧ extractPkgName "d3-array/src/bisect.js" = Some "d"
  ∧ resolveId (externalizeDepsPlugin d3Analysis) "d3-array/src/bisect.js"
      None = None.
Proof.
  split_and!; [reflexivity | | reflexivity | vm_compute; reflexivity].
  apply elem_of_dom. simpl. rewrite lookup_singleton_eq. by eexists.
Qed.

Example externalizeDeps_devDependency_bundled :
  resolveId (externalizeDepsPlugin devOnlyAnalysis) "lodash/debounce" None
  = None
  ∧ resolveId (externalizeDepsPlugin devOnlyAnalysis) "preact/hooks" None
    = Some (External "preact/hooks")
  ∧ resolveId (externalizeDepsPlugin devOnlyAnalysis)
      "@fullcalendar/core/internal.js" None
    = Some (External "@fullcalendar/core/internal.js").
Proof. split_and!; vm_compute; reflexivity. Qed.

(** ** The module pipeline *)

(** C4.  [bundleModules] invokes the bundler unless both the [esm] and the
    [cjs] flag are disabled (an absent flag is enabled, and an absent build
    configuration disables nothing).  When it runs, it writes ESM output
    exactly when [esm] is enabled, and CJS output exactly when [cjs] is
    enabled and dev mode is off; so in dev mode with [esm] disabled and
    [cjs] enabled the pass runs and writes nothing. *)
Theorem bundleModules_outputs (env : Env) (pkgAnalysis : PkgAnalysis)
    (isDev : bool) :
  (invokesBundler (bundleModules env pkgAnalysis isDev) = false
   ↔ esmEnabled pkgAnalysis = false ∧ cjsEnabled pkgAnalysis = false)
  ∧ (invokesBundler (bundleModules env pkgAnalysis isDev) = false →
       bundleModules env pkgAnalysis isDev = [])
  ∧ (invokesBundler (bundleModules env pkgAnalysis isDev) = true →
       ("esm" ∈ writtenFormats (bundleModules env pkgAnalysis isDev)
        ↔ esmEnabled pkgAnalysis = true)
       ∧ ("cjs" ∈ writtenFormats (bundleModules env pkgAnalysis isDev)
          ↔ cjsEnabled pkgAnalysis = true ∧ isDev = false))
  ∧ (isDev = true → esmEnabled pkgAnalysis = false →
       cjsEnabled pkgAnalysis = true →
       invokesBundler (bundleModules env pkgAnalysis isDev) = true
       ∧ writtenFormats (bundleModules env pkgAnalysis isDev) = [])
  ∧ (esm emptyBuildConfig = None ∧ cjs emptyBuildConfig = None
     ∧ orDefault (@None bool) true = true).
Proof.
  unfold bundleModules, esmEnabled, cjsEnabled, invokesBundler, writtenFormats.
  destruct (orDefault (esm _) true), (orDefault (cjs _) true), isDev; simpl;
    rewrite ?elem_of_cons, ?elem_of_nil;
    split_and!; try done; try (intros [? ?]; done); try (split; done);
    intuition (try discriminate; auto).
Qed.

Lemma bundleModules_outputs_witness :
  invokesBundler
    (bundleModules pluginsEnv
       {| pkgDir := "/pkg";
          pkgMeta := {| dependencies := ∅; peerDependencies := ∅;
                        devDependencies := ∅;
                        buildConfig := Some
                          {| esm := Some false; cjs := None; types := None;
                             exports := None |} |};
          entryConfigMap := []; relSrcPathMap := [];
          entryContentMap := []; iifeEntryContentMap := [] |}
       true) = true
  ∧ writtenFormats
      (bundleModules pluginsEnv
         {| pkgDir := "/pkg";
            pkgMeta := {| dependencies := ∅; peerDependencies := ∅;
                          devDependencies := ∅;
                          buildConfig := Some
                            {| esm := Some false; cjs := None; types := None;
                               exports := None |} |};
            entryConfigMap := []; relSrcPathMap := [];
            entryContentMap := []; iifeEntryContentMap := [] |}
         true) = [].
Proof.
  apply bundleModules_outputs; reflexivity.
Defined.

(** ** The IIFE pipeline *)

Lemma filter_pairs_of_entry {A B} (p : A → bool) (a : A) (bs : list B) :
  List.filter (λ pr : A * B, p pr.1) (map (pair a) bs)
  = if p a then map (pair a) bs else [].
Proof.
  induction bs as [|b bs IH]; simpl; [by destruct (p a)|].
  rewrite IH. by destruct (p a).
Qed.

Lemma iifePasses_spec (env : Env) (pkgAnalysis : PkgAnalysis)
    (entries : list (string * list string)) :
  (∀ kv, kv ∈ entries →
         is_Some (objGet kv.1 (entryConfigMap pkgAnalysis))) →
  ∃ passes,
    iifePasses env pkgAnalysis entries = Fulfilled passes
    ∧ map passOutputFiles passes
      = map (λ pr, [iifeOutputFile (pkgDir pkgAnalysis) pr.2])
          (List.filter (λ pr, declaresIife (entryConfigMap pkgAnalysis) pr.1)
             (flat_map (λ kv, map (pair kv.1) kv.2) entries))
    ∧ map rollupInputs passes
      = map (λ pr, [InputFile
                      (buildTscPath (pkgDir pkgAnalysis) pr.2 ".iife.js")])
          (List.filter (λ pr, declaresIife (entryConfigMap pkgAnalysis) pr.1)
             (flat_map (λ kv, map (pair kv.1) kv.2) entries)).
Proof.
  induction entries as [|[entryId relSrcPaths] entries IH]; intros Hcfg.
  - exists []. by split_and!.
  - destruct IH as (more & Hmore & Hfiles & Hinputs).
    { intros kv Hkv. apply Hcfg, elem_of_cons. by right. }
    destruct (Hcfg (entryId, relSrcPaths)) as [entryConfig Hget].
    { apply elem_of_cons. by left. }
    simpl in Hget. simpl. rewrite Hget, Hmore.
    eexists. split; [done|].
    assert (declaresIife (entryConfigMap pkgAnalysis) entryId
            = bool_decide (is_Some (iife entryConfig))) as Hdecl.
    { unfold declaresIife. by rewrite Hget. }
    rewrite !map_app, Hfiles, Hinputs, !List.filter_app, !map_app,
      !filter_pairs_of_entry, Hdecl.
    destruct (iife entryConfig) as [iifeConfig|]; simpl; [|done].
    by rewrite !map_map.
Qed.

(** C6.  For every (entry, resolved source path) pair whose entry
    configuration declares an [iife] sub-configuration, and for no other
    pair, [bundleIifes] runs one bundler pass of its own, over the
    [.iife.js] intermediate file of the source path, and writes
    [pkgDir/dist/<buildOutputId relSrcPath>.js].  The file name is a
    function of the source path's output identifier and not of the entry
    identifier: two entries whose source paths have the same output
    identifier write the same file. *)
Theorem bundleIifes_output_files (env : Env) (pkgAnalysis : PkgAnalysis) :
  (∀ entryId, entryId ∈ objKeys (relSrcPathMap pkgAnalysis) →
              is_Some (objGet entryId (entryConfigMap pkgAnalysis))) →
  (∃ passes,
     bundleIifes env pkgAnalysis = Fulfilled passes
     ∧ map passOutputFiles passes
       = map (λ pr, [iifeOutputFile (pkgDir pkgAnalysis) pr.2])
           (iifePairs pkgAnalysis)
     ∧ map rollupInputs passes
       = map (λ pr, [InputFile
                       (buildTscPath (pkgDir pkgAnalysis) pr.2 ".iife.js")])
           (iifePairs pkgAnalysis))
  ∧ (∀ entryConfig1 entryConfig2 relSrcPath1 relSrcPath2,
       buildOutputId relSrcPath1 = buildOutputId relSrcPath2 →
       file (buildIifeOutputOptions (pkgDir pkgAnalysis) entryConfig1
               relSrcPath1)
       = file (buildIifeOutputOptions (pkgDir pkgAnalysis) entryConfig2
                 relSrcPath2))
  ∧ (∀ entryConfig relSrcPath,
       file (buildIifeOutputOptions (pkgDir pkgAnalysis) entryConfig
               relSrcPath)
       = Some (iifeOutputFile (pkgDir pkgAnalysis) relSrcPath)).
Proof.
  intros Hcfg. split_and!.
  - apply iifePasses_spec. intros [k v] Hkv. simpl. apply Hcfg.
    unfold forInEntries in Hkv. apply list_elem_of_omap in Hkv.
    destruct Hkv as (k' & Hk' & Hsome).
    destruct (objGet k' (relSrcPathMap pkgAnalysis)); simplify_eq/=. done.
  - intros c1 c2 r1 r2 Hid. unfold buildIifeOutputOptions. simpl.
    by rewrite Hid.
  - done.
Qed.

Lemma bundleIifes_output_files_witness :
  ∃ passes,
    bundleIifes pluginsEnv collidingAnalysis = Fulfilled passes
    ∧ map passOutputFiles passes
      = [["/pkg/dist/global.js"]; ["/pkg/dist/global.js"]].
Proof.
  destruct (bundleIifes_output_files pluginsEnv collidingAnalysis)
    as [(passes & Hrun & Hfiles & _) _].
  - intros entryId Hin. apply objGet_is_Some. exact Hin.
  - exists passes. split; [exact Hrun|]. rewrite Hfiles. reflexivity.
Defined.

(** ** Externalize-Exports *)

Lemma elem_of_tscPathMap (pkgAnalysis : PkgAnalysis) (path : string) :
  path ∈ tscPathMap pkgAnalysis
  ↔ ∃ pr, pr ∈ entrySrcPairs (relSrcPathMap pkgAnalysis)
          ∧ path = buildTscPath (pkgDir pkgAnalysis) pr.2 ".js".
Proof.
  unfold tscPathMap.
  assert (∀ (l : list (string * string)) (acc : gset string),
    path ∈ fold_left
             (λ acc pr,
                {[ buildTscPath (pkgDir pkgAnalysis) pr.2 ".js" ]} ∪ acc)
             l acc
    ↔ path ∈ acc
      ∨ ∃ pr, pr ∈ l ∧ path = buildTscPath (pkgDir pkgAnalysis) pr.2 ".js")
    as Hgen.
  { induction l as [|pr l IH]; intros acc; simpl.
    - split; [by left | intros [?|(? & Hin & _)]; [done|]].
      by apply elem_of_nil in Hin.
    - rewrite IH, elem_of_union, elem_of_singleton. split.
      + intros [[->|?]|(pr' & ? & ?)]; [right; exists pr | by left
          | right; exists pr']; rewrite elem_of_cons; auto.
      + intros [?|(pr' & [->|?]%elem_of_cons & ->)]; [tauto | tauto|].
        right. by exists pr'. }
  rewrite Hgen. split; [intros [Hin|?]; [|done] | by right].
  by apply elem_of_empty in Hin.
Qed.

Lemma buildTscPath_nonempty (pkgDir relSrcPath : string) :
  Str.isEmpty (buildTscPath pkgDir relSrcPath ".js") = false.
Proof.
  unfold buildTscPath. by destruct (Str.replaceAtEnd _ _ _).
Qed.

Lemma replace_js_by_mjs (stem : string) :
  Str.replaceAtEnd (String.eqb ".js") ".mjs" (stem +:+ ".js")
  = stem +:+ ".mjs".
Proof.
  apply replaceAtEnd_app; [done|]. intros c t.
  rewrite String.eqb_sym. apply eqb_neq_length. simpl.
  rewrite append_length. simpl. lia.
Qed.


(** ** Externalize-Globals *)

(** C8, as stated, fails: a key of the globals map whose value is the empty
    string is not marked external. *)
Lemma externalizeGlobals_empty_name_deferred :
  "jquery" ∈ dom ({[ "jquery" := JString "" ]} : gmap string JsValue)
  ∧ resolveId (externalizeGlobals {[ "jquery" := JString "" ]}) "jquery" None
    = None.
Proof.
  split; [|vm_compute; reflexivity].
  apply elem_of_dom. rewrite lookup_singleton_eq. by eexists.
Qed.

(** C8, amended.  In an IIFE pass the Externalize-Globals plugin marks a
    specifier external exactly when the specifier is a key of the entry's
    globals map and the value under that key is truthy (for a global name:
    a non-empty string), and otherwise defers; with [{"jquery": "jQuery"}]
    every import of ["jquery"] is external.  This is stated of a specifier
    that is a key of the map, or is not the name of a property that the map
    inherits from [Object.prototype]. *)
Theorem externalizeGlobals_external_iff (iifeGlobals : gmap string JsValue)
    (id : string) (importer : option string) :
  id ∈ dom iifeGlobals ∨ id ∉ objectPrototypeKeys →
  (resolveId (externalizeGlobals iifeGlobals) id importer
     = Some (External id)
   ↔ ∃ globalName, iifeGlobals !! id = Some globalName
                   ∧ truthy globalName = true)
  ∧ (resolveId (externalizeGlobals iifeGlobals) id importer = None
     ↔ ¬ ∃ globalName, iifeGlobals !! id = Some globalName
                       ∧ truthy globalName = true)
  ∧ (∀ globalName : string,
       truthy (JString globalName) = true ↔ globalName ≠ "")
  ∧ resolveId (externalizeGlobals {[ "jquery" := JString "jQuery" ]})
      "jquery" importer
    = Some (External "jquery").
Proof.
  intros Hid.
  assert (iifeGlobals !! id = None → inheritsProp id = false) as Hnone.
  { intros Hlook. destruct Hid as [Hin%elem_of_dom|Hnot].
    - rewrite Hlook in Hin. by destruct Hin.
    - by apply not_inheritsProp. }
  unfold externalizeGlobals, truthyProp. simpl. split_and!.
  - destruct (iifeGlobals !! id) as [v|]; [|split].
    + destruct (truthy v) eqn:E; split; try done.
      * intros _. by exists v.
      * intros (? & [= <-] & ?). congruence.
    + by rewrite Hnone.
    + by intros (? & [=] & _).
  - destruct (iifeGlobals !! id) as [v|]; [|split].
    + destruct (truthy v) eqn:E; split; try done.
      * intros Hno. exfalso. apply Hno. by exists v.
      * intros _ (? & [= <-] & ?). congruence.
    + by intros _ (? & [=] & _).
    + intros _. by rewrite Hnone.
  - intros [|c s]; simpl; split; done.
  - by rewrite lookup_singleton_eq.
Qed.

Lemma externalizeGlobals_external_iff_witness :
  resolveId (externalizeGlobals {[ "jquery" := JString "jQuery" ]})
    "jquery" (Some "/pkg/dist/.tsc/global.iife.js")
  = Some (External "jquery")
  ∧ resolveId (externalizeGlobals {[ "jquery" := JString "jQuery" ]})
      "preact" (Some "/pkg/dist/.tsc/global.iife.js")
    = None.
Proof.
  split.
  - destruct (externalizeGlobals_external_iff
                {[ "jquery" := JString "jQuery" ]} "jquery"
                (Some "/pkg/dist/.tsc/global.iife.js")) as (Hext & _).
    + left. apply (bool_decide_unpack _). vm_compute. reflexivity.
    + apply Hext. exists (JString "jQuery"). split; reflexivity.
  - destruct (externalizeGlobals_external_iff
                {[ "jquery" := JString "jQuery" ]} "preact"
                (Some "/pkg/dist/.tsc/global.iife.js")) as (_ & Hdefer & _).
    + right. apply (bool_decide_unpack _). vm_compute. reflexivity.
    + apply Hdefer. intros (globalName & Hlook & _). discriminate Hlook.
Defined.

(** ** Package analysis under concurrency *)

(** *** Schedules *)

Lemma concat_take_head {A} (queues : list (list A)) (i : nat) (x : A)
    (q : list A) :
  queues !! i = Some (x :: q) →
  concat queues ≡ₚ x :: concat (<[i := q]> queues).
Proof.
  revert i. induction queues as [|q0 queues IH]; intros [|i] Hi;
    simplify_eq/=; [done|].
  rewrite (IH _ Hi). by rewrite Permutation_middle.
Qed.

(** Whatever the schedule, the steps that ran are the steps of the
    callbacks. *)
Lemma followSchedule_Permutation {A} (schedule : list nat)
    (queues : list (list A)) (ran : list A) :
  followSchedule schedule queues = Some ran → ran ≡ₚ concat queues.
Proof.
  revert queues ran.
  induction schedule as [|i schedule IH]; intros queues ran; simpl.
  - destruct (forallb _ queues) eqn:E; [|done]. intros [= <-].
    induction queues as [|[|x q] queues IHq]; simpl in *; try done.
    by apply IHq.
  - destruct (queues !! i) as [[|x q]|] eqn:Hi; try done.
    destruct (followSchedule schedule (<[i:=q]> queues)) as [ran'|] eqn:E;
      [|done].
    intros [= <-]. rewrite (concat_take_head _ _ _ _ Hi).
    constructor. by apply IH.
Qed.

(** Running the callbacks one after the other is one of the schedules. *)
Lemma followSchedule_sequential {A} (done rest : list (list A)) :
  Forall (λ q, q = []) done →
  followSchedule (sequentialFrom (length done) rest) (done ++ rest)
  = Some (concat rest).
Proof.
  revert done. induction rest as [|q rest IH]; intros done Hdone; simpl.
  - rewrite app_nil_r.
    assert (forallb (λ q : list A, match q with [] => true | _ => false end)
              done = true) as ->; [|done].
    induction Hdone as [|? ? -> ? IHd]; simpl; [done | apply IHd].
  - induction q as [|x q IHq]; simpl.
    + specialize (IH (done ++ [[]])).
      rewrite length_app, Nat.add_1_r, <- app_assoc in IH. simpl in IH.
      apply IH, Forall_app. split; [done|]. by constructor.
    + rewrite list_lookup_middle by done.
      rewrite insert_app_r_alt, Nat.sub_diag by done. simpl.
      by rewrite IHq.
Qed.

(** *** Running the steps *)

Lemma runStep_Rejected (steps : list Step) (msg : Exception) :
  fold_left runStep steps (Rejected msg) = Rejected msg.
Proof. induction steps as [|s steps IH]; simpl; [done | apply IH]. Qed.

Lemma runSteps_Fulfilled (steps : list Step) (m : Maps) :
  Forall succeeds steps →
  fold_left runStep steps (Fulfilled m)
  = Fulfilled (fold_left applyWrite (flat_map stepWrites steps) m).
Proof.
  intros Hok. revert m.
  induction Hok as [|[ws|msg] steps Hs Hok IH]; intros m; simpl;
    [done | | done].
  by rewrite IH, fold_left_app.
Qed.

Lemma runSteps_Rejected (steps : list Step) (m : Maps) :
  ¬ Forall succeeds steps →
  ∃ msg, fold_left runStep steps (Fulfilled m) = Rejected msg.
Proof.
  revert m. induction steps as [|[ws|msg] steps IH]; intros m Hnot; simpl.
  - destruct Hnot. constructor.
  - apply IH. intros Hok. apply Hnot. by constructor.
  - exists msg. apply runStep_Rejected.
Qed.

(** *** The keys and values that a sequence of assignments leaves *)

Lemma entryContent_keys_after (ws : list Write) (m : Maps) (k : string) :
  k ∈ objKeys (mEntryContent (fold_left applyWrite ws m))
  ↔ k ∈ objKeys (mEntryContent m) ∨ k ∈ omap entryContentKey ws.
Proof.
  revert m. induction ws as [|w ws IH]; intros m; simpl.
  - rewrite elem_of_nil. tauto.
  - rewrite IH. destruct w; simpl;
      rewrite ?objKeys_objSet, ?elem_of_cons; tauto.
Qed.

Lemma iifeEntryContent_keys_after (ws : list Write) (m : Maps) (k : string) :
  k ∈ objKeys (mIifeEntryContent (fold_left applyWrite ws m))
  ↔ k ∈ objKeys (mIifeEntryContent m) ∨ k ∈ omap iifeEntryContentKey ws.
Proof.
  revert m. induction ws as [|w ws IH]; intros m; simpl.
  - rewrite elem_of_nil. tauto.
  - rewrite IH. destruct w; simpl;
      rewrite ?objKeys_objSet, ?elem_of_cons; tauto.
Qed.

Lemma relSrcPaths_keys_after (ws : list Write) (m : Maps) (k : string) :
  k ∈ objKeys (mRelSrcPaths (fold_left applyWrite ws m))
  ↔ k ∈ objKeys (mRelSrcPaths m) ∨ k ∈ omap relSrcPathsKey ws.
Proof.
  revert m. induction ws as [|w ws IH]; intros m; simpl.
  - rewrite elem_of_nil. tauto.
  - rewrite IH. destruct w; simpl;
      rewrite ?objKeys_objSet, ?elem_of_cons; tauto.
Qed.

Lemma relSrcPaths_after (ws : list Write) (m : Maps) (k : string) :
  objGet k (mRelSrcPaths (fold_left applyWrite ws m))
  = match lastRelSrcPaths k ws with
    | Some paths => Some paths
    | None => objGet k (mRelSrcPaths m)
    end.
Proof.
  revert m. induction ws as [|w ws IH]; intros m; simpl; [done|].
  rewrite IH. destruct (lastRelSrcPaths k ws); [done|].
  destruct w as [| k' paths |]; simpl; try done.
  rewrite objGet_objSet. by destruct (String.eqb k' k).
Qed.

Lemma lastRelSrcPaths_Some (k : string) (ws : list Write)
    (paths : list string) :
  lastRelSrcPaths k ws = Some paths → WriteRelSrcPaths k paths ∈ ws.
Proof.
  induction ws as [|w ws IH]; simpl; [done|].
  destruct (lastRelSrcPaths k ws).
  - intros [= <-]. apply elem_of_cons. right. by apply IH.
  - destruct w as [| k' paths' |]; try done.
    destruct (String.eqb k' k) eqn:E; [|done].
    apply String.eqb_eq in E. intros [= <-]. subst. apply elem_of_cons.
    by left.
Qed.

Lemma lastRelSrcPaths_None (k : string) (ws : list Write)
    (paths : list string) :
  lastRelSrcPaths k ws = None → WriteRelSrcPaths k paths ∉ ws.
Proof.
  induction ws as [|w ws IH]; simpl; [intros _; apply not_elem_of_nil|].
  destruct (lastRelSrcPaths k ws); [done|].
  intros Hw. apply not_elem_of_cons. split; [|by apply IH].
  intros <-. by rewrite String.eqb_refl in Hw.
Qed.

Lemma lastRelSrcPaths_Permutation (k : string) (ws ws' : list Write) :
  ws ≡ₚ ws' → singleValued ws →
  lastRelSrcPaths k ws = lastRelSrcPaths k ws'.
Proof.
  intros Hperm Hsingle.
  destruct (lastRelSrcPaths k ws) as [paths|] eqn:E,
           (lastRelSrcPaths k ws') as [paths'|] eqn:E'; [| | |done].
  - apply lastRelSrcPaths_Some in E, E'. rewrite <- Hperm in E'.
    f_equal. by apply (Hsingle k).
  - apply lastRelSrcPaths_Some in E. rewrite Hperm in E.
    by apply (lastRelSrcPaths_None _ _ paths) in E'.
  - apply lastRelSrcPaths_Some in E'. rewrite <- Hperm in E'.
    by apply (lastRelSrcPaths_None _ _ paths') in E.
Qed.

(** *** The assignments of one analysis *)

Lemma elem_of_flat_map {A B} (f : A → list B) (l : list A) (y : B) :
  y ∈ flat_map f l ↔ ∃ x, x ∈ l ∧ y ∈ f x.
Proof.
  rewrite list_elem_of_In, in_flat_map.
  split; intros (x & Hx & Hy); exists x; by rewrite ?list_elem_of_In in *.
Qed.

Lemma analysisTasks_exportMap (env : Env) (pkgDir : string) :
  analysisTasks env pkgDir
  = map (entrySteps env pkgDir (exportMapOf env pkgDir))
      (objKeys (exportMapOf env pkgDir)).
Proof.
  unfold analysisTasks, exportMapOf.
  by destruct (readSrcPkgMeta env pkgDir).
Qed.

Lemma iifeSteps_writes (env : Env) (pkgDir iifeGenerator : string)
    (relSrcPaths : list string) (w : Write) :
  w ∈ flat_map stepWrites (iifeSteps env pkgDir iifeGenerator relSrcPaths) →
  relSrcPathsKey w = None.
Proof.
  induction relSrcPaths as [|relSrcPath rest IH]; simpl.
  - by intros ?%elem_of_nil.
  - destruct (generateEntryContent env _ _) as [contentMap|msg]; simpl.
    + rewrite elem_of_app, list_elem_of_fmap.
      intros [([k v] & -> & _)|Hin]; [done | by apply IH].
    + by intros ?%elem_of_nil.
Qed.

Lemma entrySteps_relSrcPaths (env : Env) (pkgDir : string)
    (entryConfigMap : EntryConfigMap) (entryId k : string)
    (paths : list string) :
  WriteRelSrcPaths k paths
    ∈ flat_map stepWrites (entrySteps env pkgDir entryConfigMap entryId) →
  k = entryId ∧ paths = resolvedSrcPaths env pkgDir entryConfigMap entryId.
Proof.
  unfold entrySteps, resolvedSrcPaths.
  destruct (objGet entryId entryConfigMap) as [entryConfig|];
    [|by intros ?%elem_of_nil].
  assert (∀ first rels,
    (∀ w, w ∈ first → relSrcPathsKey w = None) →
    WriteRelSrcPaths k paths
      ∈ flat_map stepWrites
          (Writes (first ++ [WriteRelSrcPaths entryId rels])
           :: match truthyRef (iife entryConfig ≫= iifeGenerator) with
              | Some iifeGenerator =>
                  iifeSteps env pkgDir iifeGenerator rels
              | None => []
              end) →
    k = entryId ∧ paths = rels) as Hfirst.
  { intros first rels Hnone. simpl.
    rewrite !elem_of_app, list_elem_of_singleton.
    intros [[Hin|[= -> ->]]|Hin]; [|done|].
    - by apply Hnone in Hin.
    - destruct (truthyRef _); [|by apply elem_of_nil in Hin].
      by apply iifeSteps_writes in Hin. }
  destruct (truthyRef (generator entryConfig)) as [generator|].
  - destruct (generateEntryContent env entryId _) as [contentMap|msg];
      [|by intros ?%elem_of_nil].
    apply Hfirst. intros w ([k' v] & -> & _)%list_elem_of_fmap. done.
  - destruct (queryRelSrcPaths env pkgDir entryId) as [rels|exn];
      [|by intros ?%elem_of_nil].
    apply Hfirst. by intros w ?%elem_of_nil.
Qed.

Lemma analysis_writes_singleValued (env : Env) (pkgDir : string) :
  singleValued (flat_map stepWrites (concat (analysisTasks env pkgDir))).
Proof.
  assert (∀ k paths,
    WriteRelSrcPaths k paths
      ∈ flat_map stepWrites (concat (analysisTasks env pkgDir)) →
    paths = resolvedSrcPaths env pkgDir
              (exportMapOf env pkgDir) k) as Hres.
  { intros k paths (step & Hstep & Hw)%elem_of_flat_map.
    apply list_elem_of_In, in_concat in Hstep as (task & Htask & Hin).
    apply list_elem_of_In in Htask, Hin.
    rewrite analysisTasks_exportMap in Htask.
    apply list_elem_of_fmap in Htask as (entryId & -> & _).
    destruct (entrySteps_relSrcPaths env pkgDir
                (exportMapOf env pkgDir)
                entryId k paths) as [-> ->]; [|done].
    apply elem_of_flat_map. by exists step. }
  intros k paths paths' H1%Hres H2%Hres. congruence.
Qed.

(** *** Determinism *)

Lemma settleAnalysis_Permutation (env : Env) (pkgDir : string)
    (ran1 ran2 : list Step) :
  ran1 ≡ₚ ran2 → singleValued (flat_map stepWrites ran1) →
  sameOutcome (settleAnalysis env pkgDir ran1)
              (settleAnalysis env pkgDir ran2).
Proof.
  intros Hperm Hsingle. unfold settleAnalysis, runSteps.
  destruct (readSrcPkgMeta env pkgDir) as [meta|exn]; [|done].
  destruct (decide (Forall succeeds ran1)) as [Hok|Hfail].
  - assert (Forall succeeds ran2) as Hok2 by (by rewrite <- Hperm).
    rewrite !runSteps_Fulfilled by done.
    unfold sameOutcome, sameStructure. simpl.
    assert (flat_map stepWrites ran1 ≡ₚ flat_map stepWrites ran2) as Hws
      by (by apply Permutation_flat_map).
    split_and!; try done.
    + intros k. rewrite !relSrcPaths_keys_after. by rewrite Hws.
    + intros k. rewrite !relSrcPaths_after.
      by rewrite (lastRelSrcPaths_Permutation k _ _ Hws Hsingle).
    + intros k. rewrite !entryContent_keys_after. by rewrite Hws.
    + intros k. rewrite !iifeEntryContent_keys_after. by rewrite Hws.
  - assert (¬ Forall succeeds ran2) as Hfail2 by (by rewrite <- Hperm).
    destruct (runSteps_Rejected ran1 emptyMaps Hfail) as [msg1 ->].
    destruct (runSteps_Rejected ran2 emptyMaps Hfail2) as [msg2 ->].
    done.
Qed.

(** C9.  Two runs of [analyzePkg] on the same package directory, with the
    same manifest, source files and generator modules, end alike however
    the event loop interleaves the entry callbacks: both reject, or both
    return analyses of the same structure (the same entry identifiers, the
    same resolved source paths per entry, the same keys in both
    generated-content mappings). *)
Theorem analyzePkg_deterministic (env : Env) (pkgDir : string)
    (schedule1 schedule2 : list nat) (r1 r2 : Promise PkgAnalysis) :
  analyzePkgScheduled env pkgDir schedule1 = Some r1 →
  analyzePkgScheduled env pkgDir schedule2 = Some r2 →
  sameOutcome r1 r2.
Proof.
  unfold analyzePkgScheduled. intros H1 H2.
  destruct (followSchedule schedule1 _) as [ran1|] eqn:E1; [|done].
  destruct (followSchedule schedule2 _) as [ran2|] eqn:E2; [|done].
  simplify_eq/=.
  apply followSchedule_Permutation in E1, E2.
  apply settleAnalysis_Permutation.
  - by rewrite E1, E2.
  - intros k paths paths' Hp Hp'.
    apply (analysis_writes_singleValued env pkgDir k);
      by rewrite <- (Permutation_flat_map stepWrites E1).
Qed.


(** The sequential run is the run under one of the schedules. *)
Lemma analyzePkg_sequential (env : Env) (pkgDir : string) :
  analyzePkgScheduled env pkgDir
    (sequentialFrom 0 (analysisTasks env pkgDir))
  = Some (analyzePkg env pkgDir).
Proof.
  unfold analyzePkgScheduled, analyzePkg.
  pose proof (followSchedule_sequential [] (analysisTasks env pkgDir))
    as Hseq.
  simpl in Hseq. by rewrite Hseq.
Qed.

Lemma analyzePkg_deterministic_witness :
  match analyzePkgScheduled concurrentEnv "/pkg" [0; 1; 1],
        analyzePkgScheduled concurrentEnv "/pkg" [1; 0; 1] with
  | Some r1, Some r2 => sameOutcome r1 r2
  | _, _ => False
  end.
Proof.
  pose proof (analyzePkg_deterministic concurrentEnv "/pkg"
                [0; 1; 1] [1; 0; 1]) as Hsame.
  destruct (analyzePkgScheduled concurrentEnv "/pkg" [0; 1; 1])
    as [r1|] eqn:E1; [|vm_compute in E1; discriminate E1].
  destruct (analyzePkgScheduled concurrentEnv "/pkg" [1; 0; 1])
    as [r2|] eqn:E2; [|vm_compute in E2; discriminate E2].
  apply Hsame; reflexivity.
Defined.

Example analyzePkg_orders_differ :
  entryIdsOf (analyzePkgScheduled concurrentEnv "/pkg" [0; 1; 1])
  = ["./plugins/*"; "."]
  ∧ entryIdsOf (analyzePkgScheduled concurrentEnv "/pkg" [1; 0; 1])
    = ["."; "./plugins/*"].
Proof. split; vm_compute; reflexivity. Qed.

(** ** Generated entry points *)

(** C10, where the code departs from it.  A generated root entry ["."]
    contributes the source path ["..ts"]; the module input map sends its
    output identifier to [/pkg/dist/.tsc/..js], while the Generated-Content
    plugin keeps the content under [/pkg/dist/.tsc.js]: it neither claims
    the input path in [resolveId] nor serves it in [load]. *)
Theorem generated_root_entry_not_served :
  match analyzePkg generatedRootEnv "/pkg" with
  | Fulfilled pkgAnalysis =>
      objKeys (entryContentMap pkgAnalysis) = ["."]
      ∧ relSrcPathMap pkgAnalysis = [(".", ["..ts"])]
      ∧ buildInputMap pkgAnalysis ".js" = [(".", "/pkg/dist/.tsc/..js")]
      ∧ buildTscPath "/pkg" ("." +:+ ".ts") ".js" = "/pkg/dist/.tsc/..js"
      ∧ dom (pathContentMap pkgAnalysis) = {[ "/pkg/dist/.tsc.js" ]}
      ∧ resolveId (generatedContentPlugin generatedRootEnv pkgAnalysis)
          "/pkg/dist/.tsc/..js" None = None
      ∧ load (generatedContentPlugin generatedRootEnv pkgAnalysis)
          "/pkg/dist/.tsc/..js" = None
  | Rejected _ => False
  end.
Proof. vm_compute. split_and!; reflexivity. Qed.

(** Where the expanded entry id is an ordinary subpath the invariant holds:
    the entries of scenario 2 are claimed and served from memory. *)
Example generated_plugin_entries_served :
  match analyzePkg pluginsEnv "/pkg" with
  | Fulfilled pkgAnalysis =>
      objGet "plugins/a" (buildInputMap pkgAnalysis ".js")
      = Some (buildTscPath "/pkg" ("./plugins/a" +:+ ".ts") ".js")
      ∧ resolveId (generatedContentPlugin pluginsEnv pkgAnalysis)
          "/pkg/dist/.tsc/plugins/a.js" None
        = Some (ResolvedPath "/pkg/dist/.tsc/plugins/a.js")
      ∧ load (generatedContentPlugin pluginsEnv pkgAnalysis)
          "/pkg/dist/.tsc/plugins/a.js"
        = Some (JString "export const a = 1")
  | Rejected _ => False
  end.
Proof. vm_compute. split_and!; reflexivity. Qed.

(** * Further properties *)

(** ** Paths that end in a name *)

Lemma stripPrefix_spec (p s r : string) :
  Str.stripPrefix p s = Some r → s = p +:+ r.
Proof.
  revert s. induction p as [|a p IH]; intros [|b s]; simpl; try done.
  - by intros [= <-].
  - by intros [= <-].
  - destruct (Ascii.eqb a b) eqn:E; [|done].
    apply Ascii.eqb_eq in E as <-. intros ->%IH. done.
Qed.

Lemma splitSlash_snoc (s : string) :
  ∃ init l, Str.splitSlash s = init ++ [l].
Proof.
  induction s as [|c s (init & l & IH)]; simpl.
  - by exists [], "".
  - destruct (Ascii.eqb c "/").
    + exists ("" :: init), l. by rewrite IH.
    + rewrite IH. destruct init as [|h init]; simpl.
      * by exists [], (String c l).
      * by exists (String c h :: init), l.
Qed.

Lemma splitSlash_not_nil (s : string) : Str.splitSlash s ≠ [].
Proof. destruct (splitSlash_snoc s) as ([|? ?] & ? & ->); done. Qed.

Lemma splitSlash_lastSegment (s : string) (init : list string) (l : string) :
  Str.splitSlash s = init ++ [l] → lastSegment s = l.
Proof. unfold lastSegment. intros ->. apply last_last. Qed.

Lemma splitSlash_no_slash (s : string) :
  Str.contains "/" s = false → Str.splitSlash s = [s].
Proof.
  induction s as [|c s IH]; simpl; [done|].
  intros [Hc Hs]%orb_false_iff. rewrite Hc, IH; done.
Qed.

Lemma splitSlash_app_suffix (s suf : string) (init : list string)
    (l : string) :
  Str.contains "/" suf = false →
  Str.splitSlash s = init ++ [l] →
  Str.splitSlash (s +:+ suf) = init ++ [l +:+ suf].
Proof.
  intros Hsuf. revert init l.
  induction s as [|c s IH]; intros init l; simpl.
  - destruct init as [|? [|? ?]]; intros [= <-]. by apply splitSlash_no_slash.
  - destruct (splitSlash_snoc s) as (init' & l' & Hs).
    rewrite (IH _ _ Hs), Hs.
    destruct (Ascii.eqb c "/").
    + destruct init as [|h init]; simpl.
      { destruct init'; done. }
      intros [= <- Heq]. apply app_inj_tail in Heq as [-> ->]. done.
    + destruct init' as [|h' init']; simpl.
      * destruct init as [|? [|? ?]]; intros [= <-]. done.
      * destruct init as [|h init]; simpl.
        { destruct init'; done. }
        intros [= <- Heq]. apply app_inj_tail in Heq as [-> ->]. done.
Qed.

Lemma splitSlash_app_slash (a b : string) :
  Str.splitSlash (a +:+ "/" +:+ b) = Str.splitSlash a ++ Str.splitSlash b.
Proof.
  change ("/" +:+ b) with (String "/" b).
  induction a as [|c a IH]; simpl.
  - done.
  - rewrite IH. destruct (Ascii.eqb c "/"); [done|].
    destruct (splitSlash_snoc a) as ([|h init] & l & ->); done.
Qed.

Lemma concat_cons_cons (sep p q : string) (l : list string) :
  String.concat sep (p :: q :: l) = p +:+ sep +:+ String.concat sep (q :: l).
Proof. done. Qed.

Lemma concat_snoc_suffix (parts : list string) (x suf : string) :
  String.concat "/" (parts ++ [x +:+ suf])
  = String.concat "/" (parts ++ [x]) +:+ suf.
Proof.
  induction parts as [|p parts IH]; [done|].
  destruct parts as [|q parts].
  - cbn [app]. by rewrite !concat_cons_cons, !append_assoc.
  - cbn [app] in *. rewrite !concat_cons_cons, IH. by rewrite !append_assoc.
Qed.

Lemma concat_snoc_splitSlash (parts : list string) (x : string) :
  ∃ pre, Str.splitSlash (String.concat "/" (parts ++ [x]))
         = pre ++ Str.splitSlash x.
Proof.
  induction parts as [|p parts (pre & IH)].
  - by exists [].
  - destruct parts as [|q parts]; cbn [app] in *.
    + exists (Str.splitSlash p). rewrite concat_cons_cons.
      apply splitSlash_app_slash.
    + exists (Str.splitSlash p ++ pre).
      rewrite concat_cons_cons, splitSlash_app_slash, IH.
      by rewrite app_assoc.
Qed.

Lemma concat_snoc_nonempty (parts : list string) (x : string) :
  Str.isEmpty x = false →
  Str.isEmpty (String.concat "/" (parts ++ [x])) = false.
Proof.
  intros Hx. induction parts as [|p parts IH]; [done|].
  destruct parts as [|q parts]; cbn [app] in *;
    rewrite concat_cons_cons; by destruct p.
Qed.

Lemma isName_nonempty (seg : string) :
  isName seg = true → Str.isEmpty seg = false.
Proof. by destruct seg. Qed.

Lemma isName_app (l suf : string) :
  isName l = true → Str.isEmpty suf = false → isName (l +:+ suf) = true.
Proof.
  unfold isName. destruct l as [|a [|b l]], suf as [|s suf]; try done.
  - simpl. destruct (Ascii.eqb a "."); [done|]. done.
  - intros _ _. simpl.
    destruct (Ascii.eqb a "."), (Ascii.eqb b "."); try done.
    by destruct l.
Qed.

Lemma normalizeStep_name (allowAboveRoot : bool) (stack : list string)
    (seg : string) :
  isName seg = true →
  Path.normalizeStep allowAboveRoot stack seg = seg :: stack.
Proof.
  unfold isName, Path.normalizeStep.
  intros [H1 H2]%negb_true_iff%orb_false_iff. by rewrite H1, H2.
Qed.

Lemma endsInName_split (path : string) :
  endsInName path = true →
  ∃ init l, Str.splitSlash path = init ++ [l] ∧ isName l = true.
Proof.
  unfold endsInName.
  destruct (splitSlash_snoc path) as (init & l & Hs).
  rewrite (splitSlash_lastSegment _ _ _ Hs). by exists init, l.
Qed.

Lemma endsInName_app (path suf : string) :
  endsInName path = true → Str.contains "/" suf = false →
  Str.isEmpty suf = false → endsInName (path +:+ suf) = true.
Proof.
  intros (init & l & Hs & Hl)%endsInName_split Hslash Hsuf.
  unfold endsInName.
  rewrite (splitSlash_lastSegment _ _ _
             (splitSlash_app_suffix _ _ _ _ Hslash Hs)).
  by apply isName_app.
Qed.

Lemma endsInName_nonempty (path : string) :
  endsInName path = true → Str.isEmpty path = false.
Proof. by destruct path. Qed.

Lemma normalizeString_suffix (allowAboveRoot : bool) (path suf : string) :
  endsInName path = true → Str.contains "/" suf = false →
  Str.isEmpty suf = false →
  Path.normalizeString allowAboveRoot (path +:+ suf)
  = Path.normalizeString allowAboveRoot path +:+ suf
  ∧ Str.isEmpty (Path.normalizeString allowAboveRoot path) = false.
Proof.
  intros (init & l & Hs & Hl)%endsInName_split Hslash Hsuf.
  unfold Path.normalizeString.
  rewrite (splitSlash_app_suffix _ _ _ _ Hslash Hs), Hs, !fold_left_app.
  cbn [fold_left].
  rewrite !normalizeStep_name by (done || by apply isName_app).
  cbn [rev]. split.
  - apply concat_snoc_suffix.
  - apply concat_snoc_nonempty. by apply isName_nonempty.
Qed.

Lemma endsWith_slash_split (s : string) :
  Str.endsWith "/" s = true → ∃ h init, Str.splitSlash s = h :: init ++ [""].
Proof.
  induction s as [|c s IH]; [done|].
  cbn [Str.endsWith Str.splitSlash].
  destruct (String.eqb (String c s) "/") eqn:E.
  - apply String.eqb_eq in E as [= -> ->]. intros _. by exists "", [].
  - intros (h & init & ->)%IH.
    destruct (Ascii.eqb c "/").
    + by exists "", (h :: init).
    + by exists (String c h), init.
Qed.

Lemma endsInName_no_trailing_slash (path : string) :
  endsInName path = true → Str.endsWith "/" path = false.
Proof.
  intros (init & l & Hs & Hl)%endsInName_split.
  destruct (Str.endsWith "/" path) eqn:E; [|done].
  apply endsWith_slash_split in E as (h & init' & E).
  rewrite E, app_comm_cons in Hs.
  apply app_inj_tail in Hs as [_ <-]. done.
Qed.

Lemma normalize_suffix (path suf : string) :
  endsInName path = true → Str.contains "/" suf = false →
  Str.isEmpty suf = false →
  Path.normalize (path +:+ suf) = Path.normalize path +:+ suf.
Proof.
  intros Hpath Hslash Hsuf. unfold Path.normalize.
  pose proof (endsInName_nonempty _ Hpath) as Hne.
  pose proof (endsInName_app _ _ Hpath Hslash Hsuf) as Hpath'.
  rewrite !endsInName_no_trailing_slash by done.
  assert (Path.isAbsolute (path +:+ suf) = Path.isAbsolute path) as ->.
  { destruct path as [|c path]; [done|].
    unfold Path.isAbsolute, Str.startsWith. simpl.
    by destruct (Ascii.eqb "/" c). }
  rewrite Hne, (endsInName_nonempty _ Hpath').
  destruct (normalizeString_suffix (negb (Path.isAbsolute path)) path suf)
    as [-> Hp]; [done..|].
  rewrite Hp.
  assert (Str.isEmpty (Path.normalizeString (negb (Path.isAbsolute path)) path
                       +:+ suf) = false) as ->.
  { by destruct (Path.normalizeString _ path). }
  by destruct (Path.isAbsolute path).
Qed.

Lemma join_snoc (args : list string) (x : string) :
  Str.isEmpty x = false →
  Path.join (args ++ [x])
  = Path.normalize
      (String.concat "/"
         (List.filter (λ a, negb (Str.isEmpty a)) args ++ [x])).
Proof.
  intros Hx. unfold Path.join. rewrite List.filter_app. cbn [List.filter].
  rewrite Hx. cbn [negb]. by destruct (List.filter _ args).
Qed.

Lemma join_suffix (args : list string) (stem suf : string) :
  endsInName stem = true → Str.contains "/" suf = false →
  Str.isEmpty suf = false →
  Path.join (args ++ [stem +:+ suf]) = Path.join (args ++ [stem]) +:+ suf.
Proof.
  intros Hstem Hslash Hsuf.
  rewrite !join_snoc
    by eauto using endsInName_nonempty, endsInName_app.
  rewrite concat_snoc_suffix.
  apply normalize_suffix; [|done..].
  apply endsInName_split in Hstem as (init & l & Hs & Hl).
  destruct (concat_snoc_splitSlash
              (List.filter (λ a, negb (Str.isEmpty a)) args) stem)
    as (pre & Hpre).
  unfold endsInName.
  rewrite Hs, app_assoc in Hpre.
  by rewrite (splitSlash_lastSegment _ _ _ Hpre).
Qed.

(** ** Intermediate paths *)

Lemma isTsExt_longer_ts (c : ascii) (t : string) :
  isTsExt (String c t +:+ ".ts") = false.
Proof.
  unfold isTsExt. apply orb_false_iff. split.
  - apply eqb_neq_length. simpl. rewrite append_length. simpl. lia.
  - destruct t as [|d t].
    + simpl. destruct (Ascii.eqb c "."); [|done]. by eval_eqb.
    + apply eqb_neq_length. simpl. rewrite append_length. simpl. lia.
Qed.

Lemma isTsExt_longer_tsx (c : ascii) (t : string) :
  isTsExt (String c t +:+ ".tsx") = false.
Proof.
  unfold isTsExt. apply orb_false_iff.
  split; apply eqb_neq_length; simpl; rewrite append_length; simpl; lia.
Qed.

Lemma replaceAtEnd_unmatched (lang : string → bool) (repl s : string) :
  (∀ t, lang t = true → Str.endsWith t s = false) →
  Str.replaceAtEnd lang repl s = s.
Proof.
  induction s as [|c s IH]; intros Hno; simpl.
  - destruct (lang "") eqn:E; [|done]. by apply Hno in E.
  - destruct (lang (String c s)) eqn:E.
    + apply Hno in E. cbn [Str.endsWith] in E.
      by rewrite String.eqb_refl in E.
    + f_equal. apply IH. intros t Ht. apply Hno in Ht.
      cbn [Str.endsWith] in Ht. by destruct (String.eqb (String c s) t).
Qed.

Lemma replaceAtEnd_no_ts (s : string) :
  hasTsExt s = false → Str.replaceAtEnd isTsExt "" s = s.
Proof.
  intros [H1 H2]%orb_false_iff. apply replaceAtEnd_unmatched.
  unfold isTsExt.
  intros t [->%String.eqb_eq | ->%String.eqb_eq]%orb_true_iff; done.
Qed.

Lemma splitSlash_segment_no_slash (s seg : string) :
  seg ∈ Str.splitSlash s → Str.contains "/" seg = false.
Proof.
  revert seg. induction s as [|c s IH]; intros seg; simpl.
  - by intros ->%list_elem_of_singleton.
  - destruct (Ascii.eqb c "/") eqn:E.
    + intros [-> | Hin]%elem_of_cons; [done | by apply IH].
    + destruct (Str.splitSlash s) as [|h t].
      * intros ->%list_elem_of_singleton. simpl. by rewrite E.
      * intros [-> | Hin]%elem_of_cons.
        -- simpl. rewrite E. apply IH, elem_of_cons. by left.
        -- apply IH, elem_of_cons. by right.
Qed.

Lemma splitSlash_singleton (s l : string) : Str.splitSlash s = [l] → s = l.
Proof.
  revert l. induction s as [|c s IH]; intros l; simpl; [by intros [= <-]|].
  destruct (Ascii.eqb c "/").
  - destruct (splitSlash_snoc s) as ([|? ?] & ? & ->); done.
  - destruct (Str.splitSlash s) as [|h [|? ?]] eqn:E; intros [= <-].
    + by apply splitSlash_not_nil in E.
    + f_equal. by apply IH.
Qed.

Lemma splitSlash_many_contains (s h1 h2 : string) (t : list string) :
  Str.splitSlash s = h1 :: h2 :: t → Str.contains "/" s = true.
Proof.
  revert h1 h2 t. induction s as [|c s IH]; intros h1 h2 t; simpl; [done|].
  destruct (Ascii.eqb c "/"); [done|].
  destruct (Str.splitSlash s) as [|h [|h' t']] eqn:E; intros [= <- <- <-].
  simpl. eapply IH. done.
Qed.

Lemma endsWith_lastSegment (suf s : string) :
  Str.contains "/" suf = false → Str.isEmpty suf = false →
  Str.endsWith suf s = Str.endsWith suf (lastSegment s).
Proof.
  intros Hslash Hsuf. induction s as [|c s IH]; [done|].
  unfold lastSegment in *. cbn [Str.endsWith Str.splitSlash].
  destruct (Ascii.eqb c "/") eqn:Ec.
  - apply Ascii.eqb_eq in Ec as ->.
    assert (String.eqb (String "/" s) suf = false) as ->.
    { apply String.eqb_neq. intros <-. done. }
    rewrite IH. destruct (splitSlash_snoc s) as (init & l & ->).
    by rewrite app_comm_cons, !last_last.
  - destruct (Str.splitSlash s) as [|h [|h' t]] eqn:E.
    + by apply splitSlash_not_nil in E.
    + apply splitSlash_singleton in E as ->. done.
    + assert (String.eqb (String c s) suf = false) as ->.
      { apply String.eqb_neq. intros <-. simpl in Hslash.
        apply splitSlash_many_contains in E. rewrite E in Hslash.
        by destruct (Ascii.eqb c "/"). }
      rewrite IH. done.
Qed.

Lemma lastSegment_normalize (path : string) :
  endsInName path = true →
  lastSegment (Path.normalize path) = lastSegment path.
Proof.
  intros Hpath.
  pose proof Hpath as (init & l & Hs & Hl)%endsInName_split.
  unfold Path.normalize.
  rewrite (endsInName_nonempty _ Hpath),
          (endsInName_no_trailing_slash _ Hpath).
  set (allow := negb (Path.isAbsolute path)).
  assert (∃ pre, Str.splitSlash (Path.normalizeString allow path)
                 = pre ++ [l]
                 ∧ Str.isEmpty (Path.normalizeString allow path) = false)
    as (pre & Hpre & Hne).
  { unfold Path.normalizeString. rewrite Hs, fold_left_app. cbn [fold_left].
    rewrite normalizeStep_name by done. cbn [rev].
    destruct (concat_snoc_splitSlash
                (rev (fold_left (Path.normalizeStep allow) init [])) l)
      as (pre & Hpre).
    rewrite (splitSlash_no_slash l) in Hpre.
    - exists pre. split; [done|].
      apply concat_snoc_nonempty. by apply isName_nonempty.
    - apply (splitSlash_segment_no_slash path). rewrite Hs.
      apply elem_of_app. right. by apply list_elem_of_singleton. }
  rewrite Hne, (splitSlash_lastSegment _ _ _ Hs).
  destruct (Path.isAbsolute path).
  - apply (splitSlash_lastSegment _ ("" :: pre)).
    change ("/" +:+ Path.normalizeString allow path)
      with (String "/" (Path.normalizeString allow path)).
    cbn [Str.splitSlash]. eval_eqb. by rewrite Hpre.
  - by apply (splitSlash_lastSegment _ pre).
Qed.

Lemma lastSegment_join (args : list string) (stem : string) :
  endsInName stem = true →
  lastSegment (Path.join (args ++ [stem])) = lastSegment stem.
Proof.
  intros Hstem.
  pose proof Hstem as (init & l & Hs & Hl)%endsInName_split.
  rewrite join_snoc by eauto using endsInName_nonempty.
  destruct (concat_snoc_splitSlash
              (List.filter (λ a, negb (Str.isEmpty a)) args) stem)
    as (pre & Hpre).
  rewrite Hs, app_assoc in Hpre.
  rewrite lastSegment_normalize.
  - by rewrite (splitSlash_lastSegment _ _ _ Hpre),
               (splitSlash_lastSegment _ _ _ Hs).
  - unfold endsInName. by rewrite (splitSlash_lastSegment _ _ _ Hpre).
Qed.

Lemma hasTsExt_join (args : list string) (stem : string) :
  endsInName stem = true →
  hasTsExt (Path.join (args ++ [stem])) = hasTsExt stem.
Proof.
  intros Hstem. unfold hasTsExt.
  rewrite (endsWith_lastSegment ".ts" (Path.join _)),
          (endsWith_lastSegment ".tsx" (Path.join _)) by done.
  rewrite lastSegment_join by done.
  by rewrite <- !endsWith_lastSegment.
Qed.

Lemma buildTscPath_ts (pkgDir stem ext : string) :
  endsInName stem = true →
  buildTscPath pkgDir (stem +:+ ".ts") ext
  = joinPaths [pkgDir; "dist"; ".tsc"; stem] +:+ ext.
Proof.
  intros Hstem. unfold buildTscPath, joinPaths.
  pose proof (join_suffix [pkgDir; "dist"; ".tsc"] stem ".ts" Hstem)
    as Hjoin.
  cbn [app] in Hjoin. rewrite Hjoin by done.
  rewrite replaceAtEnd_app, append_nil_r;
    [done | done | apply isTsExt_longer_ts].
Qed.

Lemma buildTscPath_tsx (pkgDir stem ext : string) :
  endsInName stem = true →
  buildTscPath pkgDir (stem +:+ ".tsx") ext
  = joinPaths [pkgDir; "dist"; ".tsc"; stem] +:+ ext.
Proof.
  intros Hstem. unfold buildTscPath, joinPaths.
  pose proof (join_suffix [pkgDir; "dist"; ".tsc"] stem ".tsx" Hstem)
    as Hjoin.
  cbn [app] in Hjoin. rewrite Hjoin by done.
  rewrite replaceAtEnd_app, append_nil_r;
    [done | done | apply isTsExt_longer_tsx].
Qed.

Lemma buildTscPath_plain (pkgDir path ext : string) :
  endsInName path = true → hasTsExt path = false →
  buildTscPath pkgDir path ext
  = joinPaths [pkgDir; "dist"; ".tsc"; path] +:+ ext.
Proof.
  intros Hpath Hno. unfold buildTscPath, joinPaths.
  pose proof (hasTsExt_join [pkgDir; "dist"; ".tsc"] path Hpath) as Hts.
  cbn [app] in Hts. rewrite replaceAtEnd_no_ts; [done|]. by rewrite Hts.
Qed.

(** X1.  The intermediate path of a source file is its path under
    [pkgDir/dist/.tsc] with the final [.ts] or [.tsx] replaced by the
    extension asked for, so that [stem.ts] and [stem.tsx] share their
    intermediate path; a path that does not end in [.ts] or [.tsx] keeps
    its own ending before the extension.  This holds for every path whose
    last segment is a name. *)
Theorem buildTscPath_of_source (pkgDir stem ext : string) :
  endsInName stem = true →
  buildTscPath pkgDir (stem +:+ ".ts") ext
  = joinPaths [pkgDir; "dist"; ".tsc"; stem] +:+ ext
  ∧ buildTscPath pkgDir (stem +:+ ".tsx") ext
    = joinPaths [pkgDir; "dist"; ".tsc"; stem] +:+ ext
  ∧ (hasTsExt stem = false →
     buildTscPath pkgDir stem ext
     = joinPaths [pkgDir; "dist"; ".tsc"; stem] +:+ ext).
Proof.
  intros Hstem. split_and!.
  - by apply buildTscPath_ts.
  - by apply buildTscPath_tsx.
  - by apply buildTscPath_plain.
Qed.

Lemma buildTscPath_of_source_witness :
  buildTscPath "/pkg" ("./locales/fr" +:+ ".ts") ".js"
  = "/pkg/dist/.tsc/locales/fr.js"
  ∧ buildTscPath "/pkg" ("./locales/fr" +:+ ".tsx") ".js"
    = "/pkg/dist/.tsc/locales/fr.js"
  ∧ buildTscPath "/pkg" "./locales/fr" ".d.ts"
    = "/pkg/dist/.tsc/locales/fr.d.ts".
Proof.
  destruct (buildTscPath_of_source "/pkg" "./locales/fr" ".js")
    as (Hts & Htsx & _); [reflexivity|].
  destruct (buildTscPath_of_source "/pkg" "./locales/fr" ".d.ts")
    as (_ & _ & Hplain); [reflexivity|].
  rewrite Hts, Htsx, Hplain by reflexivity.
  split_and!; reflexivity.
Defined.

(** ** Objects filled in a loop *)

Section ObjFolds.
Context {V : Type}.
Implicit Types (obj : list (string * V)) (k : string) (v : V).



Context {A : Type} (key : A → string).




End ObjFolds.

(** The place that a new key takes depends on the keys only. *)
Lemma objKeys_objInsert_ext {V W} (k : string) (v : V) (w : W)
    (obj : list (string * V)) (obj' : list (string * W)) :
  objKeys obj = objKeys obj' →
  objKeys (objInsert k v obj) = objKeys (objInsert k w obj').
Proof.
  revert obj'. induction obj as [|[k0 v0] obj IH]; intros [|[k1 w1] obj'];
    try done.
  intros [= <- Hkeys]. cbn [objInsert].
  destruct (keyBefore k k0).
  - unfold objKeys in *. cbn [fmap list_fmap fst]. by rewrite Hkeys.
  - unfold objKeys in *. cbn [fmap list_fmap fst]. f_equal. by apply IH.
Qed.

Lemma objKeys_objSet_ext {V W} (k : string) (v : V) (w : W)
    (obj : list (string * V)) (obj' : list (string * W)) :
  objKeys obj = objKeys obj' →
  objKeys (objSet k v obj) = objKeys (objSet k w obj').
Proof.
  intros Hkeys. unfold objSet.
  pose proof (objGet_is_Some k obj) as Hobj.
  pose proof (objGet_is_Some k obj') as Hobj'. rewrite <- Hkeys in Hobj'.
  destruct (objGet k obj) as [v0|], (objGet k obj') as [w0|].
  - by rewrite !objKeys_objReplace.
  - exfalso. eapply is_Some_None, Hobj', Hobj. by eexists.
  - exfalso. eapply is_Some_None, Hobj, Hobj'. by eexists.
  - by apply objKeys_objInsert_ext.
Qed.

Lemma fold_objSet_keys_ext {A V W} (key : A → string) (val : A → V)
    (val' : A → W) (l : list A) (obj : list (string * V))
    (obj' : list (string * W)) :
  objKeys obj = objKeys obj' →
  objKeys (fold_left (λ acc x, objSet (key x) (val x) acc) l obj)
  = objKeys (fold_left (λ acc x, objSet (key x) (val' x) acc) l obj').
Proof.
  revert obj obj'. induction l as [|x l IH]; intros obj obj' Hkeys; simpl;
    [done|].
  by apply IH, objKeys_objSet_ext.
Qed.

(** ** The input map *)


(** ** The types pipeline *)

(** X3.  The types pass is skipped exactly when the manifest sets
    [types: false]; a manifest without build configuration, or without the
    flag, gets it.  When it runs it is one bundler call over the [.d.ts]
    intermediate files, under the output names of the module pass, written
    once as [[name].d.ts] into [dist]. *)
Theorem bundleTypes_requests (env : Env) (pkgAnalysis : PkgAnalysis) :
  (typesEnabled pkgAnalysis = false
   ↔ ∃ config, buildConfig (pkgMeta pkgAnalysis) = Some config
               ∧ types config = Some false)
  ∧ (typesEnabled pkgAnalysis = false → bundleTypes env pkgAnalysis = [])
  ∧ (typesEnabled pkgAnalysis = true →
     ∃ inputs plugins options,
       bundleTypes env pkgAnalysis
       = [Rollup (InputMap inputs) plugins; BundleWrite options; BundleClose]
       ∧ inputs = buildInputMap pkgAnalysis ".d.ts"
       ∧ objKeys inputs = objKeys (buildInputMap pkgAnalysis ".js")
       ∧ pluginNames plugins
         = ["externalize-assets"; "externalize-deps"; "externalize-exports";
            "rollup-plugin-dts"; "@rollup/plugin-node-resolve"]
       ∧ format options = "esm"
       ∧ dir options = Some (joinPaths [pkgDir pkgAnalysis; "dist"])
       ∧ entryFileNames options = Some "[name].d.ts").
Proof.
  unfold typesEnabled, bundleTypes. split_and!.
  - destruct (buildConfig (pkgMeta pkgAnalysis)) as [bc|]; simpl.
    + split.
      * intros Hoff. exists bc. split; [done|].
        by destruct (types bc) as [[]|].
      * intros (? & [= <-] & ->). done.
    + split; [done|]. by intros (? & ? & _).
  - by intros ->.
  - intros ->. simpl. eexists _, _, _. split_and!; try done.
    apply (fold_objSet_keys_ext (λ pr : string * string, buildOutputId pr.2)
             (λ pr, buildTscPath (pkgDir pkgAnalysis) pr.2 ".d.ts")
             (λ pr, buildTscPath (pkgDir pkgAnalysis) pr.2 ".js")).
    done.
Qed.

Lemma bundleTypes_requests_witness :
  ∃ inputs plugins options,
    bundleTypes pluginsEnv twoEntryAnalysis
    = [Rollup (InputMap inputs) plugins; BundleWrite options; BundleClose]
    ∧ inputs = buildInputMap twoEntryAnalysis ".d.ts"
    ∧ objKeys inputs = objKeys (buildInputMap twoEntryAnalysis ".js")
    ∧ pluginNames plugins
      = ["externalize-assets"; "externalize-deps"; "externalize-exports";
         "rollup-plugin-dts"; "@rollup/plugin-node-resolve"]
    ∧ format options = "esm"
    ∧ dir options = Some (joinPaths [pkgDir twoEntryAnalysis; "dist"])
    ∧ entryFileNames options = Some "[name].d.ts".
Proof.
  apply (proj2 (proj2 (bundleTypes_requests pluginsEnv twoEntryAnalysis))).
  reflexivity.
Defined.

(** ** The IIFE pipeline, built once and watched *)

Lemma iifeWatchers_passes (env : Env) (pkgAnalysis : PkgAnalysis)
    (entries : list (string * list string)) (passes : list (list Request)) :
  iifePasses env pkgAnalysis entries = Fulfilled passes →
  ∃ watchers,
    iifeWatchers env pkgAnalysis entries = (watchers, None)
    ∧ passes = map oneShotPass watchers.
Proof.
  revert passes.
  induction entries as [|[entryId relSrcPaths] rest IH]; intros passes; simpl.
  - intros [= <-]. by exists [].
  - destruct (objGet entryId (entryConfigMap pkgAnalysis)) as [entryConfig|];
      [|destruct (inheritsProp entryId); [by apply IH | done]].
    destruct (iifePasses env pkgAnalysis rest) as [more|]; [|done].
    destruct (IH more eq_refl) as (watchers & -> & ->).
    intros [= <-]. eexists. split; [done|].
    rewrite map_app. f_equal.
    destruct (iife entryConfig) as [iifeConfig|]; [|done].
    by rewrite map_map.
Qed.

Lemma iifePasses_elem (env : Env) (pkgAnalysis : PkgAnalysis)
    (entries : list (string * list string)) (passes : list (list Request))
    (pass : list Request) :
  iifePasses env pkgAnalysis entries = Fulfilled passes → pass ∈ passes →
  ∃ entryId relSrcPaths entryConfig iifeConfig relSrcPath,
    (entryId, relSrcPaths) ∈ entries
    ∧ objGet entryId (entryConfigMap pkgAnalysis) = Some entryConfig
    ∧ iife entryConfig = Some iifeConfig
    ∧ relSrcPath ∈ relSrcPaths
    ∧ pass = iifePass env pkgAnalysis entryConfig iifeConfig relSrcPath.
Proof.
  revert passes.
  induction entries as [|[entryId relSrcPaths] rest IH]; intros passes; simpl.
  - intros [= <-] ?%elem_of_nil. done.
  - destruct (objGet entryId (entryConfigMap pkgAnalysis))
      as [entryConfig|] eqn:Hcfg.
    2: { destruct (inheritsProp entryId); [|done]. intros Hrest Hin.
         destruct (IH passes Hrest Hin)
           as (entryId' & rels & ec & ic & rel & ? & ? & ? & ? & ->).
         exists entryId', rels, ec, ic, rel. split_and!; try done.
         apply elem_of_cons. by right. }
    destruct (iifePasses env pkgAnalysis rest) as [more|]; [|done].
    intros [= <-] [Hin|Hin]%elem_of_app.
    + destruct (iife entryConfig) as [iifeConfig|] eqn:Hiife;
        [|by apply elem_of_nil in Hin].
      apply list_elem_of_fmap in Hin as (relSrcPath & -> & Hrel).
      exists entryId, relSrcPaths, entryConfig, iifeConfig, relSrcPath.
      split_and!; try done. apply elem_of_cons. by left.
    + destruct (IH more eq_refl Hin)
        as (entryId' & rels & ec & ic & rel & ? & ? & ? & ? & ->).
      exists entryId', rels, ec, ic, rel. split_and!; try done.
      apply elem_of_cons. by right.
Qed.

Lemma replace_js_by_min_js (stem : string) :
  Str.replaceAtEnd (String.eqb ".js") ".min.js" (stem +:+ ".js")
  = stem +:+ ".min.js".
Proof.
  apply replaceAtEnd_app; [done|].
  intros c t. rewrite String.eqb_sym. apply eqb_neq_length.
  simpl. rewrite append_length. simpl. lia.
Qed.

Lemma elem_of_iifePairs (pkgAnalysis : PkgAnalysis)
    (entryId relSrcPath : string) (relSrcPaths : list string)
    (entryConfig : EntryConfig) :
  (entryId, relSrcPaths) ∈ forInEntries (relSrcPathMap pkgAnalysis) →
  relSrcPath ∈ relSrcPaths →
  objGet entryId (entryConfigMap pkgAnalysis) = Some entryConfig →
  is_Some (iife entryConfig) →
  (entryId, relSrcPath) ∈ iifePairs pkgAnalysis.
Proof.
  intros Hentry Hrel Hcfg Hiife. unfold iifePairs, entrySrcPairs.
  apply list_elem_of_In, filter_In. split.
  - apply list_elem_of_In, elem_of_flat_map. exists (entryId, relSrcPaths).
    split; [done|]. apply list_elem_of_fmap. by exists relSrcPath.
  - unfold declaresIife. simpl. rewrite Hcfg. by apply bool_decide_eq_true_2.
Qed.

(** X4.  Every pass of [bundleIifes] belongs to a source path of an entry
    that declares [iife]; it bundles the [.iife.js] intermediate file of
    that source path, writes [pkgDir/dist/<output id>.js] in the [iife]
    format, closes the bundle, and then has the minifier read that very
    file and write its sibling [pkgDir/dist/<output id>.min.js]. *)
Theorem bundleIifes_minifies (env : Env) (pkgAnalysis : PkgAnalysis)
    (passes : list (list Request)) (pass : list Request) :
  bundleIifes env pkgAnalysis = Fulfilled passes → pass ∈ passes →
  ∃ pr plugins options,
    pr ∈ iifePairs pkgAnalysis
    ∧ pass
      = [ Rollup (InputFile
                    (buildTscPath (pkgDir pkgAnalysis) pr.2 ".iife.js"))
                 plugins;
          BundleWrite options;
          BundleClose;
          Minify (joinPaths [pkgDir pkgAnalysis; "dist"; buildOutputId pr.2]
                    +:+ ".min.js")
                 (joinPaths [pkgDir pkgAnalysis; "dist"; buildOutputId pr.2]
                    +:+ ".js") ]
    ∧ format options = "iife"
    ∧ file options
      = Some (joinPaths [pkgDir pkgAnalysis; "dist"; buildOutputId pr.2]
                +:+ ".js").
Proof.
  unfold bundleIifes. intros Hpasses Hpass.
  destruct (iifePasses_elem _ _ _ _ _ Hpasses Hpass)
    as (entryId & rels & ec & ic & rel & Hentry & Hcfg & Hiife & Hrel & ->).
  exists (entryId, rel). eexists _, _. split_and!.
  - by eapply elem_of_iifePairs.
  - unfold iifePass, minifyFile. simpl. by rewrite replace_js_by_min_js.
  - done.
  - done.
Qed.

Lemma bundleIifes_minifies_witness :
  ∃ pr plugins options,
    pr ∈ iifePairs collidingAnalysis
    ∧ [ Rollup (InputFile "/pkg/dist/.tsc/global.iife.js")
               (buildIifePlugins pluginsEnv collidingAnalysis ∅);
        BundleWrite
          (buildIifeOutputOptions "/pkg"
             {| generator := None;
                iife := Some {| iifeName := Some "FullCalendar";
                                iifeGlobals := None;
                                iifeGenerator := None |} |}
             "global.ts");
        BundleClose;
        Minify "/pkg/dist/global.min.js" "/pkg/dist/global.js" ]
      = [ Rollup (InputFile
                    (buildTscPath (pkgDir collidingAnalysis) pr.2 ".iife.js"))
                 plugins;
          BundleWrite options;
          BundleClose;
          Minify (joinPaths [pkgDir collidingAnalysis; "dist";
                             buildOutputId pr.2] +:+ ".min.js")
                 (joinPaths [pkgDir collidingAnalysis; "dist";
                             buildOutputId pr.2] +:+ ".js") ]
    ∧ format options = "iife"
    ∧ file options
      = Some (joinPaths [pkgDir collidingAnalysis; "dist";
                         buildOutputId pr.2] +:+ ".js").
Proof.
  eapply (bundleIifes_minifies pluginsEnv collidingAnalysis).
  - reflexivity.
  - apply elem_of_cons. left. reflexivity.
Defined.

Lemma iifeWatchers_rejected (env : Env) (pkgAnalysis : PkgAnalysis)
    (entries : list (string * list string)) (exn : Exception) :
  iifePasses env pkgAnalysis entries = Rejected exn →
  ∃ watchers, iifeWatchers env pkgAnalysis entries = (watchers, Some exn).
Proof.
  induction entries as [|[entryId relSrcPaths] rest IH]; simpl; [done|].
  destruct (objGet entryId (entryConfigMap pkgAnalysis)) as [entryConfig|].
  - destruct (iifePasses env pkgAnalysis rest) as [more|exn']; [done|].
    intros [= <-]. destruct (IH eq_refl) as (watchers & ->). by eexists.
  - destruct (inheritsProp entryId); [done|]. intros [= <-]. by eexists.
Qed.

Lemma iifeWatchers_formats (env : Env) (pkgAnalysis : PkgAnalysis)
    (entries : list (string * list string)) :
  Forall (λ watcher, format (watchOutput watcher) = "iife")
    (iifeWatchers env pkgAnalysis entries).1.
Proof.
  induction entries as [|[entryId relSrcPaths] rest IH]; simpl; [done|].
  destruct (objGet entryId (entryConfigMap pkgAnalysis)) as [entryConfig|];
    [|by destruct (inheritsProp entryId)].
  destruct (iifeWatchers env pkgAnalysis rest) as [more exn]. simpl in *.
  apply Forall_app. split; [|done].
  destruct (iife entryConfig); [|done]. by apply Forall_fmap, Forall_true.
Qed.

(** X5.  Watch mode and the one-shot build treat the IIFE pipeline alike:
    where [bundleIifes] starts its passes, [continuouslyBundleIifes] starts
    one watcher per pass, in the same order, with the input, the plugins
    and the output options of that pass; what the watcher leaves out is
    the minifier.  Where [bundleIifes] throws, so does
    [continuouslyBundleIifes], with the same exception. *)
Theorem continuouslyBundleIifes_as_bundleIifes (env : Env)
    (pkgAnalysis : PkgAnalysis) :
  (∀ passes,
     bundleIifes env pkgAnalysis = Fulfilled passes →
     ∃ watchers,
       continuouslyBundleIifes env pkgAnalysis = (watchers, None)
       ∧ passes = map oneShotPass watchers
       ∧ Forall (λ watcher, format (watchOutput watcher) = "iife") watchers)
  ∧ (∀ exn,
       bundleIifes env pkgAnalysis = Rejected exn →
       ∃ watchers,
         continuouslyBundleIifes env pkgAnalysis = (watchers, Some exn)).
Proof.
  unfold bundleIifes, continuouslyBundleIifes. split.
  - intros passes (watchers & Hw & ->)%iifeWatchers_passes.
    exists watchers. split_and!; [done..|].
    pose proof (iifeWatchers_formats env pkgAnalysis
                  (forInEntries (relSrcPathMap pkgAnalysis))) as Hf.
    by rewrite Hw in Hf.
  - intros exn. apply iifeWatchers_rejected.
Qed.

Lemma continuouslyBundleIifes_as_bundleIifes_witness :
  match bundleIifes pluginsEnv collidingAnalysis with
  | Fulfilled passes =>
      ∃ watchers,
        continuouslyBundleIifes pluginsEnv collidingAnalysis
        = (watchers, None)
        ∧ passes = map oneShotPass watchers
        ∧ Forall (λ watcher, format (watchOutput watcher) = "iife") watchers
  | Rejected _ => False
  end.
Proof.
  pose proof (proj1 (continuouslyBundleIifes_as_bundleIifes pluginsEnv
                       collidingAnalysis)) as Hwatch.
  destruct (bundleIifes pluginsEnv collidingAnalysis) as [passes|exn] eqn:E;
    [|vm_compute in E; discriminate E].
  apply Hwatch. reflexivity.
Defined.

(** ** The entry point of the script *)






(** ** Package analysis, entry by entry *)

Lemma analysis_ran (env : Env) (pkgDir : string) (schedule : list nat)
    (r : Promise PkgAnalysis) :
  analyzePkgScheduled env pkgDir schedule = Some r →
  ∃ ran, ran ≡ₚ concat (analysisTasks env pkgDir)
         ∧ r = settleAnalysis env pkgDir ran.
Proof.
  unfold analyzePkgScheduled.
  destruct (followSchedule schedule _) as [ran|] eqn:E; [|done].
  intros [= <-]. exists ran. split; [|done].
  by apply (followSchedule_Permutation schedule).
Qed.

Lemma elem_of_analysis_steps (env : Env) (pkgDir : string) (step : Step) :
  step ∈ concat (analysisTasks env pkgDir)
  ↔ ∃ entryId,
      entryId ∈ objKeys (exportMapOf env pkgDir)
      ∧ step ∈ entrySteps env pkgDir
                 (exportMapOf env pkgDir) entryId.
Proof.
  rewrite analysisTasks_exportMap. rewrite list_elem_of_In, in_concat. split.
  - intros (task & Htask%list_elem_of_In & Hin%list_elem_of_In).
    apply list_elem_of_fmap in Htask as (entryId & -> & Hk).
    by exists entryId.
  - intros (entryId & Hk & Hin). eexists. rewrite <- !list_elem_of_In.
    split; [|done]. apply list_elem_of_fmap. by exists entryId.
Qed.

Lemma not_Forall_succeeds (steps : list Step) :
  ¬ Forall succeeds steps ↔ ∃ exn, Fails exn ∈ steps.
Proof.
  split.
  - intros (step & Hin & Hfail)%not_Forall_Exists%Exists_exists; [|apply _].
    destruct step as [ws|exn]; [by destruct Hfail | by exists exn].
  - intros (exn & Hin) Hall. rewrite Forall_forall in Hall.
    by apply Hall in Hin.
Qed.

Lemma iifeSteps_fails (env : Env) (pkgDir iifeGenerator : string)
    (relSrcPaths : list string) :
  (∃ exn, Fails exn ∈ iifeSteps env pkgDir iifeGenerator relSrcPaths)
  ↔ ∃ relSrcPath exn,
      relSrcPath ∈ relSrcPaths
      ∧ generateEntryContent env (stripFirstTsx relSrcPath)
          (joinPaths [pkgDir; iifeGenerator])
        = Rejected exn.
Proof.
  induction relSrcPaths as [|relSrcPath rest IH]; simpl.
  - split; [by intros (? & ?%elem_of_nil)|].
    by intros (? & ? & ?%elem_of_nil & _).
  - destruct (generateEntryContent env (stripFirstTsx relSrcPath) _)
      as [contentMap|exn] eqn:E.
    + split.
      * intros (exn & [?|Hin]%elem_of_cons); [done|].
        destruct (proj1 IH) as (rel & exn' & ? & ?); [by exists exn|].
        exists rel, exn'. split; [apply elem_of_cons; by right | done].
      * intros (rel & exn & [->|Hin]%elem_of_cons & Hrej).
        { by rewrite E in Hrej. }
        destruct (proj2 IH) as (exn' & ?); [by exists rel, exn|].
        exists exn'. apply elem_of_cons. by right.
    + split.
      * intros _. exists relSrcPath, exn.
        split; [apply elem_of_cons; by left | done].
      * intros _. exists exn. apply elem_of_cons. by left.
Qed.

Lemma entrySteps_fails (env : Env) (pkgDir : string)
    (entryConfigMap : EntryConfigMap) (entryId : string) :
  is_Some (objGet entryId entryConfigMap) →
  (∃ exn, Fails exn ∈ entrySteps env pkgDir entryConfigMap entryId)
  ↔ generatorRejects env pkgDir entryConfigMap entryId
    ∨ sourceQueryRejects env pkgDir entryConfigMap entryId.
Proof.
  intros [entryConfig Hcfg].
  unfold entrySteps, generatorRejects, sourceQueryRejects, resolvedSrcPaths.
  rewrite Hcfg.
  assert (∀ first rels,
    (∃ exn, Fails exn
       ∈ Writes (first ++ [WriteRelSrcPaths entryId rels])
         :: match truthyRef (iife entryConfig ≫= iifeGenerator) with
            | Some iifeGenerator => iifeSteps env pkgDir iifeGenerator rels
            | None => []
            end)
    ↔ ∃ generatorRef relSrcPath exn,
        truthyRef (iife entryConfig ≫= iifeGenerator) = Some generatorRef
        ∧ relSrcPath ∈ rels
        ∧ generateEntryContent env (stripFirstTsx relSrcPath)
            (joinPaths [pkgDir; generatorRef])
          = Rejected exn) as Hafter.
  { intros first rels.
    destruct (truthyRef (iife entryConfig ≫= iifeGenerator)) as [g|].
    - split.
      + intros (exn & [?|Hin]%elem_of_cons); [done|].
        destruct (proj1 (iifeSteps_fails env pkgDir g rels))
          as (rel & exn' & ? & ?); [by exists exn|].
        by exists g, rel, exn'.
      + intros (g' & rel & exn & [= <-] & Hrel & Hrej).
        destruct (proj2 (iifeSteps_fails env pkgDir g rels))
          as (exn' & ?); [by exists rel, exn|].
        exists exn'. apply elem_of_cons. by right.
    - split.
      + intros (exn & [?|?%elem_of_nil]%elem_of_cons); done.
      + intros (? & ? & ? & ? & _). done. }
  destruct (truthyRef (generator entryConfig)) as [g|] eqn:Hgen.
  - destruct (generateEntryContent env entryId (joinPaths [pkgDir; g]))
      as [contentMap|exn] eqn:E.
    + rewrite Hafter. split.
      * intros Hiife. left. exists entryConfig. split; [done|]. by right.
      * intros [(ec & Hec & [(g' & exn & Hg & Hrej)|Hiife])
               |(ec & exn & Hec & Hg & _)]; simplify_eq;
          [congruence | done].
    + split.
      * intros _. left. exists entryConfig. split; [done|]. left.
        by exists g, exn.
      * intros _. exists exn. by apply list_elem_of_singleton.
  - destruct (queryRelSrcPaths env pkgDir entryId) as [rels|exn] eqn:Hq.
    + rewrite Hafter. split.
      * intros Hiife. left. exists entryConfig. split; [done|]. by right.
      * intros [(ec & Hec & [(g' & exn & Hg & _)|Hiife])
               |(ec & exn & Hec & _ & Hrej)]; by simplify_eq.
    + split.
      * intros _. right. by exists entryConfig, exn.
      * intros _. exists exn. by apply list_elem_of_singleton.
Qed.

Lemma settleAnalysis_Fulfilled (env : Env) (dir : string)
    (ran : list Step) (pkgAnalysis : PkgAnalysis) :
  settleAnalysis env dir ran = Fulfilled pkgAnalysis →
  Forall succeeds ran
  ∧ pkgDir pkgAnalysis = dir
  ∧ readSrcPkgMeta env dir = Fulfilled (pkgMeta pkgAnalysis)
  ∧ entryConfigMap pkgAnalysis = exportMapOf env dir
  ∧ relSrcPathMap pkgAnalysis
    = mRelSrcPaths (fold_left applyWrite (flat_map stepWrites ran) emptyMaps)
  ∧ entryContentMap pkgAnalysis
    = mEntryContent (fold_left applyWrite (flat_map stepWrites ran) emptyMaps)
  ∧ iifeEntryContentMap pkgAnalysis
    = mIifeEntryContent
        (fold_left applyWrite (flat_map stepWrites ran) emptyMaps).
Proof.
  unfold settleAnalysis, runSteps, exportMapOf.
  destruct (readSrcPkgMeta env dir) as [meta|exn]; [|done].
  destruct (decide (Forall succeeds ran)) as [Hok|Hfail].
  - rewrite runSteps_Fulfilled by done. by intros [= <-].
  - destruct (runSteps_Rejected ran emptyMaps Hfail) as [msg ->]. done.
Qed.

Lemma settleAnalysis_Rejected (env : Env) (pkgDir : string)
    (ran : list Step) (exn : Exception) :
  settleAnalysis env pkgDir ran = Rejected exn →
  readSrcPkgMeta env pkgDir = Rejected exn ∨ ¬ Forall succeeds ran.
Proof.
  unfold settleAnalysis, runSteps.
  destruct (readSrcPkgMeta env pkgDir) as [meta|exn'];
    [|intros [= <-]; by left].
  intros Hrej. right. intros Hok. by rewrite runSteps_Fulfilled in Hrej.
Qed.

(** The analysis rejects when the manifest cannot be read, or when a step
    of a callback fails. *)
Lemma settleAnalysis_rejects (env : Env) (pkgDir : string)
    (ran : list Step) :
  (∃ exn, settleAnalysis env pkgDir ran = Rejected exn)
  ↔ (∃ exn, readSrcPkgMeta env pkgDir = Rejected exn)
    ∨ ¬ Forall succeeds ran.
Proof.
  split.
  - intros (exn & [Hmeta|Hfail]%settleAnalysis_Rejected);
      [left; by exists exn | by right].
  - unfold settleAnalysis, runSteps.
    destruct (readSrcPkgMeta env pkgDir) as [meta|exn']; [|by eexists].
    intros [(exn & [=])|Hfail].
    destruct (runSteps_Rejected ran emptyMaps Hfail) as [msg ->].
    by exists msg.
Qed.

(** A step of the analysis fails when a generator of an entry ends in an
    exception or the search for its source files fails. *)
Lemma analysis_fails (env : Env) (pkgDir : string) (ran : list Step) :
  ran ≡ₚ concat (analysisTasks env pkgDir) →
  ¬ Forall succeeds ran
  ↔ ∃ entryId,
      entryId ∈ objKeys (exportMapOf env pkgDir)
      ∧ (generatorRejects env pkgDir (exportMapOf env pkgDir) entryId
         ∨ sourceQueryRejects env pkgDir (exportMapOf env pkgDir) entryId).
Proof.
  intros Hperm. rewrite not_Forall_succeeds. split.
  - intros (exn & Hin). rewrite Hperm in Hin.
    apply elem_of_analysis_steps in Hin as (entryId & Hk & Hin).
    exists entryId. split; [done|].
    apply entrySteps_fails; [by apply objGet_is_Some | by exists exn].
  - intros (entryId & Hk & Hrej).
    apply entrySteps_fails in Hrej as (exn & Hin);
      [|by apply objGet_is_Some].
    exists exn. rewrite Hperm. apply elem_of_analysis_steps.
    by exists entryId.
Qed.

(** X9.  [analyzePkg] is all or nothing, whatever the order in which its
    callbacks run.  It rejects exactly when the manifest cannot be read, or
    a generator that some entry of the export map declares ends in an
    exception, be it the generator of the entry or its IIFE generator on
    one of the resolved source paths, or the search for the source files
    of an entry without generator fails.  A manifest that cannot be read
    rejects the analysis with the exception of the reader. *)
Theorem analyzePkg_rejects_iff (env : Env) (pkgDir : string)
    (schedule : list nat) (r : Promise PkgAnalysis) :
  analyzePkgScheduled env pkgDir schedule = Some r →
  ((∃ exn, r = Rejected exn)
   ↔ (∃ exn, readSrcPkgMeta env pkgDir = Rejected exn)
     ∨ ∃ entryId,
         entryId ∈ objKeys (exportMapOf env pkgDir)
         ∧ (generatorRejects env pkgDir (exportMapOf env pkgDir) entryId
            ∨ sourceQueryRejects env pkgDir (exportMapOf env pkgDir)
                entryId))
  ∧ (∀ exn, readSrcPkgMeta env pkgDir = Rejected exn → r = Rejected exn).
Proof.
  intros Hrun. apply analysis_ran in Hrun as (ran & Hperm & ->). split.
  - rewrite <- (analysis_fails env pkgDir ran Hperm).
    apply settleAnalysis_rejects.
  - intros exn Hmeta. unfold settleAnalysis. by rewrite Hmeta.
Qed.

Lemma analyzePkg_rejects_iff_witness :
  (∃ exn, analyzePkg failingGeneratorEnv "/pkg" = Rejected exn)
  ∧ analyzePkg missingManifestEnv "/pkg"
    = Rejected
        (IoError "ENOENT: no such file or directory, open 'package.json'").
Proof.
  split.
  - apply (proj1 (analyzePkg_rejects_iff failingGeneratorEnv "/pkg" [0]
                    (analyzePkg failingGeneratorEnv "/pkg") eq_refl)).
    right. exists "./locales/*". split.
    + apply elem_of_cons. left. reflexivity.
    + left. eexists. split; [reflexivity|]. left.
      eexists _, _. split; reflexivity.
  - apply (proj2 (analyzePkg_rejects_iff missingManifestEnv "/pkg" []
                    (analyzePkg missingManifestEnv "/pkg") eq_refl)).
    reflexivity.
Defined.


Lemma entrySteps_writes_relSrcPaths (env : Env) (pkgDir : string)
    (entryConfigMap : EntryConfigMap) (entryId : string) :
  is_Some (objGet entryId entryConfigMap) →
  Forall succeeds (entrySteps env pkgDir entryConfigMap entryId) →
  WriteRelSrcPaths entryId
    (resolvedSrcPaths env pkgDir entryConfigMap entryId)
  ∈ flat_map stepWrites (entrySteps env pkgDir entryConfigMap entryId).
Proof.
  intros [entryConfig Hcfg]. unfold entrySteps, resolvedSrcPaths.
  rewrite Hcfg.
  destruct (truthyRef (generator entryConfig)) as [g|].
  - destruct (generateEntryContent env entryId _) as [contentMap|exn].
    + intros _. simpl. rewrite !elem_of_app, list_elem_of_singleton. tauto.
    + by intros [[] _]%Forall_cons.
  - destruct (queryRelSrcPaths env pkgDir entryId) as [rels|exn].
    + intros _. simpl. apply elem_of_cons. by left.
    + by intros [[] _]%Forall_cons.
Qed.

Lemma analysis_writes (env : Env) (pkgDir : string) (ran : list Step)
    (w : Write) :
  ran ≡ₚ concat (analysisTasks env pkgDir) →
  w ∈ flat_map stepWrites ran
  ↔ ∃ entryId,
      entryId ∈ objKeys (exportMapOf env pkgDir)
      ∧ w ∈ flat_map stepWrites
              (entrySteps env pkgDir
                 (exportMapOf env pkgDir) entryId).
Proof.
  intros Hperm. rewrite elem_of_flat_map. split.
  - intros (step & Hstep & Hw). rewrite Hperm in Hstep.
    apply elem_of_analysis_steps in Hstep as (entryId & Hk & Hstep).
    exists entryId. split; [done|]. apply elem_of_flat_map. by exists step.
  - intros (entryId & Hk & (step & Hstep & Hw)%elem_of_flat_map).
    exists step. split; [|done]. rewrite Hperm.
    apply elem_of_analysis_steps. by exists entryId.
Qed.

Lemma analysis_relSrcPaths (env : Env) (pkgDir : string) (ran : list Step)
    (entryId : string) :
  ran ≡ₚ concat (analysisTasks env pkgDir) → Forall succeeds ran →
  entryId ∈ objKeys (exportMapOf env pkgDir) →
  objGet entryId
    (mRelSrcPaths (fold_left applyWrite (flat_map stepWrites ran) emptyMaps))
  = Some (resolvedSrcPaths env pkgDir
            (exportMapOf env pkgDir) entryId).
Proof.
  intros Hperm Hok Hk. rewrite relSrcPaths_after. simpl.
  set (ecm := exportMapOf env pkgDir) in *.
  assert (WriteRelSrcPaths entryId (resolvedSrcPaths env pkgDir ecm entryId)
          ∈ flat_map stepWrites ran) as Hw.
  { apply (analysis_writes env pkgDir); [done|]. exists entryId.
    split; [done|].
    apply entrySteps_writes_relSrcPaths; [by apply objGet_is_Some|].
    apply Forall_forall. intros step Hstep.
    rewrite Forall_forall in Hok. apply Hok. rewrite Hperm.
    apply elem_of_analysis_steps. by exists entryId. }
  destruct (lastRelSrcPaths entryId (flat_map stepWrites ran))
    as [paths|] eqn:Hlast.
  - apply lastRelSrcPaths_Some in Hlast.
    apply (analysis_writes env pkgDir) in Hlast as (k & Hk' & Hlast);
      [|done].
    by apply entrySteps_relSrcPaths in Hlast as [-> ->].
  - by eapply lastRelSrcPaths_None in Hlast.
Qed.



(** ** The Generated-Content plugin *)






















(** ** Import paths *)

(** X13.  [computeImportPath] gives no import path exactly for a specifier
    that does not start with a dot and is imported from a module (an empty
    importer counts as none); the four plugins that go by the import path,
    Externalize-Exports, Externalize-Assets, Reroot-Assets and
    Generated-Content, then take no decision, so that such a specifier is
    left to Externalize-Dependencies and to the resolvers after it. *)
Theorem bare_import_deferred (env : Env) (pkgAnalysis : PkgAnalysis)
    (pkgDir id : string) (importer : option string) :
  (computeImportPath (cwd env) id importer = None
   ↔ isPathRelative id = false
     ∧ ∃ c rest, importer = Some (String c rest))
  ∧ computeImportPath (cwd env) id (Some "")
    = computeImportPath (cwd env) id None
  ∧ (computeImportPath (cwd env) id importer = None →
     resolveId (externalizeExportsPlugin env pkgAnalysis) id importer = None
     ∧ resolveId (externalizeAssetsPlugin env) id importer = None
     ∧ resolveId (rerootAssetsPlugin env pkgDir) id importer = None
     ∧ resolveId (generatedContentPlugin env pkgAnalysis) id importer = None).
Proof.
  split_and!.
  - unfold computeImportPath.
    destruct importer as [[|c rest]|], (isPathRelative id); split;
      try done; try (by intros [_ (? & ? & ?)]); try (by intros [? _]).
    intros _. split; [done|]. by exists c, rest.
  - done.
  - intros Hnone. simpl. by rewrite Hnone.
Qed.

Lemma bare_import_deferred_witness :
  resolveId (externalizeExportsPlugin pluginsEnv twoEntryAnalysis)
    "preact/hooks" (Some "/pkg/dist/.tsc/index.js") = None
  ∧ resolveId (externalizeAssetsPlugin pluginsEnv)
      "some-theme/main.css" (Some "/pkg/dist/.tsc/index.js") = None
  ∧ resolveId (rerootAssetsPlugin pluginsEnv "/pkg")
      "some-theme/main.css" (Some "/pkg/dist/.tsc/index.js") = None
  ∧ resolveId (generatedContentPlugin pluginsEnv twoEntryAnalysis)
      "preact/hooks" (Some "/pkg/dist/.tsc/index.js") = None.
Proof.
  pose proof (bare_import_deferred pluginsEnv twoEntryAnalysis "/pkg"
                "preact/hooks" (Some "/pkg/dist/.tsc/index.js"))
    as (_ & _ & Hscript).
  pose proof (bare_import_deferred pluginsEnv twoEntryAnalysis "/pkg"
                "some-theme/main.css" (Some "/pkg/dist/.tsc/index.js"))
    as (_ & _ & Hstyle).
  destruct (Hscript eq_refl) as (? & _ & _ & ?).
  destruct (Hstyle eq_refl) as (_ & ? & ? & _).
  done.
Defined.

(** ** Externalize-Exports, path by path *)

Lemma absolute_not_inherited (path : string) :
  Path.isAbsolute path = true → path ∉ objectPrototypeKeys.
Proof.
  intros Habs Hin. unfold objectPrototypeKeys in Hin.
  repeat (apply elem_of_cons in Hin as [->|Hin]; [by vm_compute in Habs|]).
  by apply elem_of_nil in Hin.
Qed.

(** X22.  The Externalize-Exports plugin, for every specifier.  A
    specifier whose import path is the [.js] intermediate path of one of
    the resolved source paths of the package is answered with the
    specifier itself, its trailing [.js] replaced by [.mjs], marked
    external; so is a specifier whose import path is the name of a
    property of [Object.prototype], which the map of these paths inherits.
    To every other specifier the plugin defers.  An absolute import path is
    no such name. *)
Theorem externalizeExports_resolveId (env : Env) (pkgAnalysis : PkgAnalysis)
    (id : string) (importer : option string) :
  (importsOwnEntryPoint env pkgAnalysis id importer →
     resolveId (externalizeExportsPlugin env pkgAnalysis) id importer
     = Some (External (Str.replaceAtEnd (String.eqb ".js") ".mjs" id)))
  ∧ (∀ importPath,
       computeImportPath (cwd env) id importer = Some importPath →
       importPath ∈ objectPrototypeKeys →
       resolveId (externalizeExportsPlugin env pkgAnalysis) id importer
       = Some (External (Str.replaceAtEnd (String.eqb ".js") ".mjs" id)))
  ∧ (¬ importsOwnEntryPoint env pkgAnalysis id importer →
     (∀ importPath,
        computeImportPath (cwd env) id importer = Some importPath →
        importPath ∉ objectPrototypeKeys) →
     resolveId (externalizeExportsPlugin env pkgAnalysis) id importer
     = None)
  ∧ (∀ importPath,
       Path.isAbsolute importPath = true → importPath ∉ objectPrototypeKeys)
  ∧ (∀ stem, Str.replaceAtEnd (String.eqb ".js") ".mjs" (stem +:+ ".js")
             = stem +:+ ".mjs").
Proof.
  unfold importsOwnEntryPoint, externalizeExportsPlugin. simpl.
  split_and!; [| | |apply absolute_not_inherited|apply replace_js_by_mjs].
  - intros (pr & Hpr & ->). rewrite buildTscPath_nonempty. simpl.
    rewrite bool_decide_eq_true_2; [done|].
    apply elem_of_tscPathMap. by exists pr.
  - intros importPath -> Hname%inheritsProp_elem. rewrite Hname.
    rewrite orb_true_r. by destruct importPath.
  - intros Hnot Hname.
    destruct (computeImportPath (cwd env) id importer) as [importPath|];
      [|done].
    rewrite bool_decide_eq_false_2, (not_inheritsProp importPath),
      andb_false_r; [done | by apply Hname |].
    intros (pr & Hpr & ->)%elem_of_tscPathMap. apply Hnot. by exists pr.
Qed.

Lemma externalizeExports_resolveId_witness :
  resolveId (externalizeExportsPlugin pluginsEnv twoEntryAnalysis)
    "./internal.js" (Some "/pkg/dist/.tsc/index.d.ts")
  = Some (External "./internal.mjs")
  ∧ resolveId (externalizeExportsPlugin pluginsEnv twoEntryAnalysis)
      "./util.js" (Some "/pkg/dist/.tsc/index.d.ts")
    = None.
Proof.
  split.
  - apply (proj1 (externalizeExports_resolveId pluginsEnv twoEntryAnalysis
                    "./internal.js" (Some "/pkg/dist/.tsc/index.d.ts"))).
    exists ("./internal", "internal.ts"). split; [|reflexivity].
    apply elem_of_cons. right. apply elem_of_cons. left. reflexivity.
  - apply (proj1 (proj2 (proj2 (externalizeExports_resolveId pluginsEnv
                                  twoEntryAnalysis "./util.js"
                                  (Some "/pkg/dist/.tsc/index.d.ts"))))).
    + intros (pr & Hpr & Heq).
      apply elem_of_cons in Hpr as [->|Hpr]; [discriminate Heq|].
      apply elem_of_cons in Hpr as [->|Hpr]; [discriminate Heq|].
      by apply elem_of_nil in Hpr.
    + intros importPath [= <-]. apply (bool_decide_unpack _).
      vm_compute. reflexivity.
Defined.

(** ** Externalize-Assets *)

Lemma isPathAsset_join (args : list string) (id : string) :
  endsInName id = true →
  isPathAsset (Path.join (args ++ [id])) = isPathAsset id
  ∧ Str.isEmpty (Path.join (args ++ [id])) = false.
Proof.
  intros Hid. split.
  - unfold isPathAsset. cbn [existsb].
    rewrite (endsWith_lastSegment ".css" (Path.join _)) by done.
    rewrite lastSegment_join by done.
    by rewrite <- endsWith_lastSegment.
  - apply endsInName_nonempty. unfold endsInName.
    by rewrite lastSegment_join.
Qed.

(** X14.  Externalize-Assets.  A path counts as an asset exactly when it
    ends in [.css].  The plugin marks a specifier external when its import
    path is such a path, and hands the specifier back as it came; it
    never resolves to a path.  For a dot-relative specifier that ends in a
    name and is imported from a module, this comes to: external exactly
    when the specifier itself ends in [.css], whatever the importer. *)
Theorem externalizeAssets_stylesheets (env : Env) (id : string)
    (importer : option string) :
  (∀ path, isPathAsset path = true ↔ ∃ stem, path = stem +:+ ".css")
  ∧ (∀ result,
       resolveId (externalizeAssetsPlugin env) id importer = Some result →
       result = External id
       ∧ ∃ stem, computeImportPath (cwd env) id importer
                 = Some (stem +:+ ".css"))
  ∧ (∀ c rest,
       importer = Some (String c rest) →
       isPathRelative id = true → endsInName id = true →
       resolveId (externalizeAssetsPlugin env) id importer
       = if isPathAsset id then Some (External id) else None).
Proof.
  assert (∀ path, isPathAsset path = true ↔ ∃ stem, path = stem +:+ ".css")
    as Hasset.
  { intros path. unfold isPathAsset. cbn [existsb].
    rewrite orb_false_r. apply endsWith_app. }
  split_and!; [done| |].
  - intros result. simpl.
    destruct (computeImportPath (cwd env) id importer) as [importPath|];
      [|done].
    destruct (isPathAsset importPath) eqn:E;
      [|by rewrite andb_false_r].
    destruct (negb (Str.isEmpty importPath)); [|done].
    intros [= <-]. split; [done|]. apply Hasset in E as (stem & ->).
    by exists stem.
  - intros c rest -> Hrel Hname. simpl. rewrite Hrel.
    destruct (isPathAsset_join [dirname (String c rest)] id Hname)
      as [Hjoin Hne].
    cbn [app] in Hjoin, Hne. unfold joinPaths. by rewrite Hjoin, Hne.
Qed.

Lemma externalizeAssets_stylesheets_witness :
  resolveId (externalizeAssetsPlugin pluginsEnv) "./styles/main.css"
    (Some "/pkg/dist/.tsc/index.d.ts")
  = Some (External "./styles/main.css")
  ∧ resolveId (externalizeAssetsPlugin pluginsEnv) "./styles/main.js"
      (Some "/pkg/dist/.tsc/index.d.ts")
    = None.
Proof.
  pose proof (externalizeAssets_stylesheets pluginsEnv "./styles/main.css"
                (Some "/pkg/dist/.tsc/index.d.ts")) as (_ & _ & Hcss).
  pose proof (externalizeAssets_stylesheets pluginsEnv "./styles/main.js"
                (Some "/pkg/dist/.tsc/index.d.ts")) as (_ & _ & Hjs).
  rewrite (Hcss "/"%char "pkg/dist/.tsc/index.d.ts") by reflexivity.
  rewrite (Hjs "/"%char "pkg/dist/.tsc/index.d.ts") by reflexivity.
  split; reflexivity.
Defined.

(** ** Wildcard entries *)












Section Expansion.
Context {V : Type}.
Implicit Types (obj : list (string * V)).


End Expansion.



(** ** Package names *)

Lemma span_spec (p : ascii → bool) (s a b : string) :
  Str.span p s = (a, b) → s = a +:+ b ∧ allChars p a = true.
Proof.
  revert a b. induction s as [|c s IH]; intros a b; simpl.
  - by intros [= <- <-].
  - destruct (p c) eqn:Hc.
    + destruct (Str.span p s) as [a' b'].
      intros [= <- <-]. destruct (IH a' b' eq_refl) as [-> Ha].
      simpl. by rewrite Hc, Ha.
    + by intros [= <- <-].
Qed.

Lemma allChars_app (p : ascii → bool) (s t : string) :
  allChars p (s +:+ t) = allChars p s && allChars p t.
Proof.
  induction s as [|c s IH]; simpl; [done|]. by rewrite IH, andb_assoc.
Qed.

Lemma allChars_weaken (p q : ascii → bool) (s : string) :
  (∀ c, p c = true → q c = true) → allChars p s = true → allChars q s = true.
Proof.
  intros Hpq. induction s as [|c s IH]; simpl; [done|].
  intros [Hc Hs]%andb_true_iff. by rewrite (Hpq _ Hc), IH.
Qed.

(** X17.  The package name that [extractPkgName] finds is a prefix of the
    specifier; it is not empty and holds lower-case letters, hyphens and
    dots only, besides the [@] and the slash of a scope.  A specifier that
    starts with any other character, an upper-case letter, a digit or a
    slash for instance, or that is empty, has no package name; a
    dot-relative specifier has the package name [.]. *)
Theorem extractPkgName_prefix (importId : string) :
  (∀ pkgName,
     extractPkgName importId = Some pkgName →
     (∃ rest, importId = pkgName +:+ rest)
     ∧ Str.isEmpty pkgName = false
     ∧ allChars isScopedNameChar pkgName = true)
  ∧ (match importId with
     | EmptyString => True
     | String c _ => isPkgNameChar c = false ∧ Ascii.eqb c "@" = false
     end →
     extractPkgName importId = None)
  ∧ extractPkgName ("./" +:+ importId) = Some ".".
Proof.
  split_and!.
  - intros pkgName. unfold extractPkgName.
    destruct (Str.stripPrefix "@" importId) as [afterAt|] eqn:Hat.
    + apply stripPrefix_spec in Hat as ->.
      destruct (Str.span isPkgNameChar afterAt) as [scope rest] eqn:Hscope.
      apply span_spec in Hscope as [-> Hscope].
      destruct (Str.stripPrefix "/" rest) as [afterSlash|] eqn:Hslash;
        [|done].
      apply stripPrefix_spec in Hslash as ->.
      destruct (Str.span isPkgNameChar afterSlash) as [name rest'] eqn:Hname.
      apply span_spec in Hname as [-> Hname].
      destruct (Str.isEmpty scope || Str.isEmpty name); [done|].
      intros [= <-]. split_and!.
      * exists rest'. simpl. f_equal. rewrite append_assoc. done.
      * done.
      * cbn [allChars]. rewrite allChars_app. cbn [allChars].
        rewrite (allChars_weaken isPkgNameChar isScopedNameChar scope),
                (allChars_weaken isPkgNameChar isScopedNameChar name);
          try done;
          intros c Hc; unfold isScopedNameChar; by rewrite Hc.
    + destruct (Str.span isPkgNameChar importId) as [name rest] eqn:Hname.
      apply span_spec in Hname as [-> Hname].
      destruct (Str.isEmpty name) eqn:Hne; [done|].
      intros [= <-]. split_and!; [by exists rest | done |].
      apply (allChars_weaken isPkgNameChar); [|done].
      intros c Hc. unfold isScopedNameChar. by rewrite Hc.
  - destruct importId as [|c rest]; [done|].
    unfold extractPkgName. intros [Hc Hat]. simpl.
    rewrite Ascii.eqb_sym, Hat, Hc. done.
  - unfold extractPkgName. simpl. eval_eqb.
    change (isPkgNameChar ".") with true.
    change (isPkgNameChar "/") with false. done.
Qed.

Lemma extractPkgName_prefix_witness :
  ((∃ rest, "@fullcalendar/core/internal.js" = "@fullcalendar/core" +:+ rest)
   ∧ Str.isEmpty "@fullcalendar/core" = false
   ∧ allChars isScopedNameChar "@fullcalendar/core" = true)
  ∧ extractPkgName "/pkg/dist/.tsc/index.js" = None
  ∧ extractPkgName "Preact" = None.
Proof.
  split; [|split].
  - apply (proj1 (extractPkgName_prefix "@fullcalendar/core/internal.js")).
    reflexivity.
  - apply (proj1 (proj2 (extractPkgName_prefix "/pkg/dist/.tsc/index.js"))).
    split; reflexivity.
  - apply (proj1 (proj2 (extractPkgName_prefix "Preact"))).
    split; reflexivity.
Defined.

(** ** Externalize-Dependencies, name by name *)

Lemma extractPkgName_chars (importId pkgName : string) :
  extractPkgName importId = Some pkgName →
  allChars isScopedNameChar pkgName = true.
Proof.
  assert (∀ name, allChars isPkgNameChar name = true →
                  allChars isScopedNameChar name = true) as Hweak.
  { intros name. apply allChars_weaken. intros c Hc.
    unfold isScopedNameChar. by rewrite Hc. }
  unfold extractPkgName.
  destruct (Str.stripPrefix "@" importId) as [afterAt|].
  - destruct (Str.span isPkgNameChar afterAt) as [scope rest] eqn:Hscope.
    apply span_spec in Hscope as [_ Hscope].
    destruct (Str.stripPrefix "/" rest) as [afterSlash|]; [|done].
    destruct (Str.span isPkgNameChar afterSlash) as [name rest'] eqn:Hname.
    apply span_spec in Hname as [_ Hname].
    destruct (Str.isEmpty scope || Str.isEmpty name); [done|].
    intros [= <-]. cbn [allChars]. rewrite allChars_app. cbn [allChars].
    by rewrite (Hweak scope), (Hweak name).
  - destruct (Str.span isPkgNameChar importId) as [name rest] eqn:Hname.
    apply span_spec in Hname as [_ Hname].
    destruct (Str.isEmpty name); [done|]. intros [= <-]. by apply Hweak.
Qed.

(** Of the names of [Object.prototype], a package name can only be
    [constructor]: the others hold an upper-case letter or an underscore. *)
Lemma extractPkgName_inherited (importId pkgName : string) :
  extractPkgName importId = Some pkgName →
  inheritsProp pkgName = true ↔ pkgName = "constructor".
Proof.
  intros Hchars%extractPkgName_chars. split; [|by intros ->].
  intros Hin%inheritsProp_elem. unfold objectPrototypeKeys in Hin.
  repeat (apply elem_of_cons in Hin as [->|Hin];
          [done || by vm_compute in Hchars|]).
  by apply elem_of_nil in Hin.
Qed.

(** X21.  The Externalize-Dependencies plugin, for every specifier.  It
    marks a specifier external exactly when [extractPkgName] finds a
    package name in it and that name is a key of the runtime or of the peer
    dependencies, or is [constructor], the one package name that the [in]
    operator finds on every object; otherwise it defers.  A name made of
    lower-case letters, hyphens and dots that ends at a slash or at the end
    of the specifier is found whole, also after an [@scope/] of such
    characters.  ["lodash/debounce"] is external exactly when ["lodash"] is
    a runtime or peer dependency: the development dependencies are not
    read. *)
Theorem externalizeDeps_external_iff (pkgAnalysis : PkgAnalysis)
    (id : string) (importer : option string) :
  (resolveId (externalizeDepsPlugin pkgAnalysis) id importer
     = Some (External id)
   ↔ ∃ pkgName, extractPkgName id = Some pkgName
                ∧ (isRuntimeOrPeerDep (pkgMeta pkgAnalysis) pkgName
                   ∨ pkgName = "constructor"))
  ∧ (resolveId (externalizeDepsPlugin pkgAnalysis) id importer = None
     ↔ ¬ ∃ pkgName, extractPkgName id = Some pkgName
                    ∧ (isRuntimeOrPeerDep (pkgMeta pkgAnalysis) pkgName
                       ∨ pkgName = "constructor"))
  ∧ (∀ name rest,
       allChars isPkgNameChar name = true → Str.isEmpty name = false →
       endsName rest = true →
       extractPkgName (name +:+ rest) = Some name)
  ∧ (∀ scope name rest,
       allChars isPkgNameChar scope = true → Str.isEmpty scope = false →
       allChars isPkgNameChar name = true → Str.isEmpty name = false →
       endsName rest = true →
       extractPkgName ("@" +:+ scope +:+ "/" +:+ name +:+ rest)
       = Some ("@" +:+ scope +:+ "/" +:+ name))
  ∧ (resolveId (externalizeDepsPlugin pkgAnalysis) "lodash/debounce" importer
       = Some (External "lodash/debounce")
     ↔ isRuntimeOrPeerDep (pkgMeta pkgAnalysis) "lodash")
  ∧ (∀ devDeps,
       resolveId
         (externalizeDepsPlugin
            {| pkgDir := pkgDir pkgAnalysis;
               pkgMeta :=
                 {| dependencies := dependencies (pkgMeta pkgAnalysis);
                    peerDependencies :=
                      peerDependencies (pkgMeta pkgAnalysis);
                    devDependencies := devDeps;
                    buildConfig := buildConfig (pkgMeta pkgAnalysis) |};
               entryConfigMap := entryConfigMap pkgAnalysis;
               relSrcPathMap := relSrcPathMap pkgAnalysis;
               entryContentMap := entryContentMap pkgAnalysis;
               iifeEntryContentMap := iifeEntryContentMap pkgAnalysis |})
         id importer
       = resolveId (externalizeDepsPlugin pkgAnalysis) id importer).
Proof.
  assert (∀ id',
    (resolveId (externalizeDepsPlugin pkgAnalysis) id' importer
       = Some (External id')
     ↔ ∃ pkgName, extractPkgName id' = Some pkgName
                  ∧ (isRuntimeOrPeerDep (pkgMeta pkgAnalysis) pkgName
                     ∨ pkgName = "constructor"))
    ∧ (resolveId (externalizeDepsPlugin pkgAnalysis) id' importer = None
       ↔ ¬ ∃ pkgName, extractPkgName id' = Some pkgName
                      ∧ (isRuntimeOrPeerDep (pkgMeta pkgAnalysis) pkgName
                         ∨ pkgName = "constructor")))
    as Hiff.
  { intros id'. rewrite externalizeDeps_resolveId.
    destruct (extractPkgName id') as [pkgName|] eqn:Hname.
    - assert (bool_decide (isRuntimeOrPeerDep (pkgMeta pkgAnalysis) pkgName)
              || inheritsProp pkgName = true
              ↔ isRuntimeOrPeerDep (pkgMeta pkgAnalysis) pkgName
                ∨ pkgName = "constructor") as Hin.
      { rewrite orb_true_iff, bool_decide_eq_true.
        by rewrite (extractPkgName_inherited _ _ Hname). }
      destruct (_ || _); split; split; try done.
      + intros _. exists pkgName. split; [done|]. by apply Hin.
      + intros Hno. exfalso. apply Hno. exists pkgName.
        split; [done|]. by apply Hin.
      + intros (? & [= <-] & Hdep). by apply Hin in Hdep.
      + intros _ (? & [= <-] & Hdep). by apply Hin in Hdep.
    - split; split; try done.
      + by intros (? & [=] & _).
      + by intros _ (? & [=] & _). }
  split_and!.
  - apply Hiff.
  - apply Hiff.
  - apply extractPkgName_unscoped.
  - apply extractPkgName_scoped.
  - rewrite (proj1 (Hiff "lodash/debounce")).
    change (extractPkgName "lodash/debounce") with (Some "lodash").
    split.
    + by intros (? & [= <-] & [?|?]).
    + intros ?. exists "lodash". split; [done | by left].
  - intros devDeps. by rewrite !externalizeDeps_resolveId.
Qed.

Lemma externalizeDeps_external_iff_witness :
  extractPkgName ("@" +:+ "fullcalendar" +:+ "/" +:+ "core" +:+ "/internal.js")
  = Some ("@" +:+ "fullcalendar" +:+ "/" +:+ "core")
  ∧ extractPkgName ("preact" +:+ "/hooks") = Some "preact".
Proof.
  split.
  - apply (proj1 (proj2 (proj2 (proj2
             (externalizeDeps_external_iff devOnlyAnalysis "" None)))));
      reflexivity.
  - apply (proj1 (proj2 (proj2
             (externalizeDeps_external_iff devOnlyAnalysis "" None))));
      reflexivity.
Defined.

(** ** Packages without generators *)

Lemma entrySteps_without_generators (env : Env) (pkgDir : string)
    (entryConfigMap : EntryConfigMap) (entryId : string) :
  withoutGenerators entryConfigMap →
  is_Some (objGet entryId entryConfigMap) →
  entrySteps env pkgDir entryConfigMap entryId
  = match queryRelSrcPaths env pkgDir entryId with
    | Fulfilled relSrcPaths => [Writes [WriteRelSrcPaths entryId relSrcPaths]]
    | Rejected exn => [Fails exn]
    end.
Proof.
  intros Hno [entryConfig Hcfg]. unfold entrySteps. rewrite Hcfg.
  destruct (Hno _ _ Hcfg) as [-> ->]. done.
Qed.

Lemma analysisTasks_without_generators (env : Env) (pkgDir : string) :
  withoutGenerators (exportMapOf env pkgDir) →
  analysisTasks env pkgDir
  = map (λ entryId,
           match queryRelSrcPaths env pkgDir entryId with
           | Fulfilled relSrcPaths =>
               [Writes [WriteRelSrcPaths entryId relSrcPaths]]
           | Rejected exn => [Fails exn]
           end)
        (objKeys (exportMapOf env pkgDir)).
Proof.
  intros Hno. rewrite analysisTasks_exportMap. apply map_ext_in.
  intros entryId Hin%list_elem_of_In.
  apply entrySteps_without_generators; [done|]. by apply objGet_is_Some.
Qed.

Lemma applyWrites_relSrcPaths_only (ws : list Write) (m : Maps) :
  Forall (λ w, is_Some (relSrcPathsKey w)) ws →
  mEntryContent (fold_left applyWrite ws m) = mEntryContent m
  ∧ mIifeEntryContent (fold_left applyWrite ws m) = mIifeEntryContent m.
Proof.
  revert m. induction ws as [|w ws IH]; intros m; simpl; [done|].
  intros [Hw Hws]%Forall_cons. destruct (IH (applyWrite m w) Hws) as [-> ->].
  destruct w; simpl in *; by destruct Hw.
Qed.

(** X10.  For a package none of whose entries declares a generator,
    [analyzePkg] can fail in two ways only, under every schedule: the
    manifest cannot be read, or the search for the source files of an
    entry fails.  When it returns, both content maps of the analysis are
    empty and every entry of the export map has the files found under
    [src] as its source paths.  No module is imported on the way: with
    another [import] in its place, the analysis ends in the same way. *)
Theorem analyzePkg_without_generators (env : Env) (pkgDir : string)
    (schedule : list nat) (r : Promise PkgAnalysis) :
  withoutGenerators (exportMapOf env pkgDir) →
  analyzePkgScheduled env pkgDir schedule = Some r →
  ((∃ exn, r = Rejected exn)
   ↔ (∃ exn, readSrcPkgMeta env pkgDir = Rejected exn)
     ∨ ∃ entryId exn,
         entryId ∈ objKeys (exportMapOf env pkgDir)
         ∧ queryRelSrcPaths env pkgDir entryId = Rejected exn)
  ∧ (∀ pkgAnalysis,
       r = Fulfilled pkgAnalysis →
       entryContentMap pkgAnalysis = []
       ∧ iifeEntryContentMap pkgAnalysis = []
       ∧ ∀ entryId,
           entryId ∈ objKeys (entryConfigMap pkgAnalysis) →
           ∃ relSrcPaths,
             queryRelSrcPaths env pkgDir entryId = Fulfilled relSrcPaths
             ∧ objGet entryId (relSrcPathMap pkgAnalysis)
               = Some relSrcPaths)
  ∧ ∀ importDefault',
      analyzePkgScheduled
        {| importDefault := importDefault'; globby := globby env;
           readSrcPkgMeta := readSrcPkgMeta env; cwd := cwd env;
           builtinCall := builtinCall env |}
        pkgDir schedule
      = Some r.
Proof.
  intros Hno Hrun. split_and!.
  - pose proof Hrun as (ran & Hperm & ->)%analysis_ran.
    rewrite settleAnalysis_rejects, (analysis_fails env pkgDir ran Hperm).
    apply or_iff_compat_l. split.
    + intros (entryId & Hk & [(ec & Hec & Hgen)|(ec & exn & _ & _ & Hq)]).
      * destruct (Hno _ _ Hec) as [Hg Hi]. rewrite Hg, Hi in Hgen.
        by destruct Hgen as [(? & ? & [=] & _)|(? & ? & ? & [=] & _)].
      * by exists entryId, exn.
    + intros (entryId & exn & Hk & Hq). exists entryId. split; [done|].
      right. pose proof Hk as [ec Hec]%objGet_is_Some.
      exists ec, exn. split_and!; [done| |done]. by apply (Hno _ _ Hec).
  - intros pkgAnalysis ->.
    pose proof Hrun as (ran & Hperm & Hsettle)%analysis_ran.
    symmetry in Hsettle.
    apply settleAnalysis_Fulfilled in Hsettle
      as (Hok & Hdir & Hmeta & Hcfg & Hrel & Hcontent & Hiife).
    assert (Forall (λ w, is_Some (relSrcPathsKey w))
              (flat_map stepWrites ran)) as Hws.
    { apply Forall_forall. intros w Hw.
      apply (analysis_writes env pkgDir) in Hw as (entryId & Hk & Hw);
        [|done].
      rewrite entrySteps_without_generators in Hw;
        [|done|by apply objGet_is_Some].
      destruct (queryRelSrcPaths env pkgDir entryId);
        [|by apply elem_of_nil in Hw].
      simpl in Hw. by apply list_elem_of_singleton in Hw as ->. }
    destruct (applyWrites_relSrcPaths_only _ emptyMaps Hws) as [Hc Hi].
    rewrite Hcontent, Hiife, Hc, Hi, Hcfg, Hrel. split_and!; [done..|].
    intros entryId Hk.
    rewrite (analysis_relSrcPaths env pkgDir ran entryId Hperm Hok Hk).
    assert (Forall succeeds
              (entrySteps env pkgDir (exportMapOf env pkgDir) entryId))
      as Hsteps.
    { apply Forall_forall. intros step Hstep. rewrite Forall_forall in Hok.
      apply Hok. rewrite Hperm. apply elem_of_analysis_steps.
      by exists entryId. }
    rewrite entrySteps_without_generators in Hsteps;
      [|done|by apply objGet_is_Some].
    unfold resolvedSrcPaths.
    pose proof Hk as [entryConfig Hec]%objGet_is_Some. rewrite Hec.
    destruct (Hno _ _ Hec) as [-> _].
    destruct (queryRelSrcPaths env pkgDir entryId) as [relSrcPaths|exn].
    + by exists relSrcPaths.
    + by apply Forall_cons in Hsteps as [[] _].
  - intros importDefault'. rewrite <- Hrun. unfold analyzePkgScheduled.
    rewrite !analysisTasks_without_generators by done. simpl.
    done.
Qed.

Lemma analyzePkg_without_generators_witness :
  ∃ pkgAnalysis,
    analyzePkg rootOnlyEnv "/pkg" = Fulfilled pkgAnalysis
    ∧ entryContentMap pkgAnalysis = []
    ∧ iifeEntryContentMap pkgAnalysis = []
    ∧ ∀ entryId,
        entryId ∈ objKeys (entryConfigMap pkgAnalysis) →
        ∃ relSrcPaths,
          queryRelSrcPaths rootOnlyEnv "/pkg" entryId = Fulfilled relSrcPaths
          ∧ objGet entryId (relSrcPathMap pkgAnalysis) = Some relSrcPaths.
Proof.
  destruct (analyzePkg rootOnlyEnv "/pkg") as [pkgAnalysis|exn] eqn:E;
    [|vm_compute in E; discriminate E].
  exists pkgAnalysis. split; [reflexivity|].
  refine (proj1 (proj2 (analyzePkg_without_generators rootOnlyEnv "/pkg" [0]
                          (Fulfilled pkgAnalysis) _ _)) pkgAnalysis eq_refl).
  - intros entryId entryConfig Hget%objGet_Some_elem.
    change (exportMapOf _ _)
      with [(".", {| generator := None; iife := None |})] in Hget.
    apply list_elem_of_singleton in Hget as [= -> ->]. split; reflexivity.
  - rewrite <- E. vm_compute. reflexivity.
Defined.

(** ** Normalized paths *)

Lemma normalizeStep_normalStack (allow : bool) (stack : list string)
    (seg : string) :
  normalStack allow stack →
  normalStack allow (Path.normalizeStep allow stack seg).
Proof.
  intros (names & ups & -> & Hnames & Hups & Hallow).
  unfold Path.normalizeStep.
  destruct (String.eqb seg "" || String.eqb seg ".") eqn:E1.
  { by exists names, ups. }
  destruct (String.eqb seg "..") eqn:E2.
  - apply String.eqb_eq in E2 as ->.
    destruct names as [|n names]; simpl.
    + destruct ups as [|u ups].
      * destruct allow; [|by exists [], []].
        exists [], [".."]. split_and!; try done. by apply Forall_singleton.
      * apply Forall_cons in Hups as [-> Hups]. eval_eqb. cbv iota.
        destruct allow; [|by specialize (Hallow eq_refl)].
        exists [], (".." :: ".." :: ups). split_and!; try done.
        by repeat apply Forall_cons_2.
    + apply Forall_cons in Hnames as [Hn Hnames].
      assert (String.eqb n ".." = false) as ->.
      { unfold isName in Hn. apply negb_true_iff in Hn.
        by apply orb_false_iff in Hn as [_ ?]. }
      by exists names, ups.
  - exists (seg :: names), ups. split_and!; try done.
    apply Forall_cons_2; [|done]. unfold isName. by rewrite E1, E2.
Qed.

Lemma fold_normalStack (allow : bool) (segs stack : list string) :
  normalStack allow stack →
  normalStack allow (fold_left (Path.normalizeStep allow) segs stack).
Proof.
  revert stack. induction segs as [|seg segs IH]; intros stack Hst; simpl;
    [done|].
  by apply IH, normalizeStep_normalStack.
Qed.

Lemma normalizeStep_subset (allow : bool) (stack : list string)
    (seg x : string) :
  x ∈ Path.normalizeStep allow stack seg → x = seg ∨ x ∈ stack.
Proof.
  unfold Path.normalizeStep.
  destruct (String.eqb seg "" || String.eqb seg "."); [by right|].
  destruct (String.eqb seg "..").
  - destruct stack as [|top rest].
    + destruct allow; [|by right]. intros ->%list_elem_of_singleton. by left.
    + destruct (String.eqb top "..").
      * destruct allow; [|by right].
        intros [->|?]%elem_of_cons; [by left | by right].
      * intros ?. right. apply elem_of_cons. by right.
  - intros [->|?]%elem_of_cons; [by left | by right].
Qed.

Lemma fold_normalizeStep_subset (allow : bool) (segs stack : list string)
    (x : string) :
  x ∈ fold_left (Path.normalizeStep allow) segs stack →
  x ∈ segs ∨ x ∈ stack.
Proof.
  revert stack. induction segs as [|seg segs IH]; intros stack; simpl;
    [by right|].
  intros [?|[->|?]%normalizeStep_subset]%IH.
  - left. apply elem_of_cons. by right.
  - left. apply elem_of_cons. by left.
  - by right.
Qed.

Lemma fold_names (allow : bool) (names stack : list string) :
  Forall (λ seg, isName seg = true) names →
  fold_left (Path.normalizeStep allow) names stack = rev names ++ stack.
Proof.
  revert stack. induction names as [|n names IH]; intros stack; simpl;
    [done|].
  intros [Hn Hnames]%Forall_cons.
  rewrite normalizeStep_name, IH by done. by rewrite <- app_assoc.
Qed.

Lemma fold_ups (ups stack : list string) :
  Forall (λ seg, seg = "..") ups → Forall (λ seg, seg = "..") stack →
  fold_left (Path.normalizeStep true) ups stack = rev ups ++ stack.
Proof.
  revert stack. induction ups as [|u ups IH]; intros stack; simpl; [done|].
  intros [-> Hups]%Forall_cons Hstack.
  assert (Path.normalizeStep true stack ".." = ".." :: stack) as ->.
  { unfold Path.normalizeStep. eval_eqb. cbv iota. simpl.
    destruct Hstack as [|top rest -> _]; [done|]. by eval_eqb. }
  rewrite IH by (done || by apply Forall_cons_2). by rewrite <- app_assoc.
Qed.

Lemma normalStack_replay (allow : bool) (stack : list string) :
  normalStack allow stack →
  fold_left (Path.normalizeStep allow) (rev stack) [] = stack.
Proof.
  intros (names & ups & -> & Hnames & Hups & Hallow).
  rewrite rev_app_distr, fold_left_app.
  assert (fold_left (Path.normalizeStep allow) (rev ups) [] = ups) as ->.
  { destruct allow.
    - rewrite fold_ups, rev_involutive, app_nil_r; [done| |done].
      by apply Forall_rev.
    - by rewrite Hallow. }
  rewrite fold_names, rev_involutive; [done|]. by apply Forall_rev.
Qed.

Lemma splitSlash_concat (segs : list string) :
  segs ≠ [] → Forall (λ seg, Str.contains "/" seg = false) segs →
  Str.splitSlash (String.concat "/" segs) = segs.
Proof.
  induction segs as [|seg segs IH]; [done|]. intros _ [Hseg Hsegs]%Forall_cons.
  destruct segs as [|seg' segs].
  - by apply splitSlash_no_slash.
  - rewrite concat_cons_cons, splitSlash_app_slash, IH by done.
    by rewrite splitSlash_no_slash.
Qed.

Lemma concat_not_absolute (segs : list string) (seg : string) :
  Str.isEmpty seg = false → Str.contains "/" seg = false →
  Path.isAbsolute (String.concat "/" (seg :: segs)) = false.
Proof.
  intros Hne Hslash. destruct seg as [|c seg]; [done|].
  assert (Ascii.eqb "/" c = false) as Hc.
  { simpl in Hslash. apply orb_false_iff in Hslash as [Hc _].
    by rewrite Ascii.eqb_sym. }
  unfold Path.isAbsolute, Str.startsWith.
  destruct segs; [|rewrite concat_cons_cons]; simpl; by rewrite Hc.
Qed.

Lemma concat_snoc (segs : list string) (x : string) :
  segs ≠ [] →
  String.concat "/" (segs ++ [x]) = String.concat "/" segs +:+ "/" +:+ x.
Proof.
  induction segs as [|seg segs IH]; [done|]. intros _.
  destruct segs as [|seg' segs]; cbn [app] in *.
  - by rewrite concat_cons_cons.
  - rewrite !concat_cons_cons, IH by done. by rewrite !append_assoc.
Qed.

(** A path that [normalize] returned for a path ending in a name stays as
    it is when a further name is joined to it. *)
Lemma normalize_normalized_snoc (path : string) :
  endsInName path = true →
  Path.normalize (Path.normalize path +:+ "/a") = Path.normalize path +:+ "/a".
Proof.
  intros Hpath.
  pose proof Hpath as (init & l & Hs & Hl)%endsInName_split.
  set (allow := negb (Path.isAbsolute path)).
  set (stack := fold_left (Path.normalizeStep allow) (Str.splitSlash path) []).
  assert (normalStack allow stack) as Hnormal.
  { apply fold_normalStack. exists [], []. by split_and!. }
  assert (∃ rest, stack = l :: rest) as (rest & Hstack).
  { unfold stack. rewrite Hs, fold_left_app. cbn [fold_left].
    rewrite normalizeStep_name by done. by eexists. }
  assert (Forall (λ seg, Str.contains "/" seg = false) stack) as Hslash.
  { apply Forall_forall. intros x [Hx|?%elem_of_nil]%fold_normalizeStep_subset;
      [|done].
    by apply (splitSlash_segment_no_slash path). }
  assert (Forall (λ seg, Str.isEmpty seg = false) stack) as Hne.
  { destruct Hnormal as (names & ups & -> & Hnames & Hups & _).
    apply Forall_app. split.
    - eapply Forall_impl; [done|]. intros seg. apply isName_nonempty.
    - eapply Forall_impl; [done|]. by intros seg ->. }
  set (p := String.concat "/" (rev stack)).
  assert (Path.normalize path
          = if Path.isAbsolute path then String "/" p else p) as Hnorm.
  { unfold Path.normalize.
    rewrite (endsInName_nonempty _ Hpath),
            (endsInName_no_trailing_slash _ Hpath).
    destruct (normalizeString_suffix allow path "x" Hpath) as [_ Hp];
      [done..|].
    fold allow. rewrite Hp. unfold Path.normalizeString. fold stack. fold p.
    by destruct (Path.isAbsolute path). }
  assert (rev stack ≠ []) as Hrev.
  { rewrite Hstack. simpl. by destruct (rev rest). }
  assert (Str.splitSlash p = rev stack) as Hsplit.
  { apply splitSlash_concat; [done|]. by apply Forall_rev. }
  assert (Path.isAbsolute p = false) as Hrelative.
  { unfold p. destruct (rev stack) as [|seg segs] eqn:E; [done|].
    assert (seg ∈ stack) as Hin.
    { apply list_elem_of_In, in_rev, list_elem_of_In. rewrite E.
      apply elem_of_cons. by left. }
    rewrite Forall_forall in Hslash, Hne.
    by apply concat_not_absolute; [apply Hne | apply Hslash]. }
  assert (Str.isEmpty p = false) as Hp.
  { unfold p. rewrite Hstack. cbn [rev].
    apply concat_snoc_nonempty. by apply isName_nonempty. }
  set (normalized := if Path.isAbsolute path then String "/" p else p) in *.
  assert (Path.isAbsolute (normalized +:+ "/a") = Path.isAbsolute path)
    as Habs.
  { unfold normalized. destruct (Path.isAbsolute path); [done|].
    destruct p as [|c p']; [done|]. rewrite <- Hrelative.
    unfold Path.isAbsolute, Str.startsWith. simpl.
    by destruct (Ascii.eqb "/" c). }
  assert (Str.splitSlash (normalized +:+ "/a")
          = (if Path.isAbsolute path then [""] else []) ++ rev stack ++ ["a"])
    as Hsegs.
  { change (normalized +:+ "/a") with (normalized +:+ "/" +:+ "a").
    rewrite splitSlash_app_slash. unfold normalized.
    destruct (Path.isAbsolute path).
    - cbn [Str.splitSlash]. eval_eqb. cbv iota. by rewrite Hsplit.
    - by rewrite Hsplit. }
  assert (endsInName (normalized +:+ "/a") = true) as Hname.
  { unfold endsInName.
    by rewrite (splitSlash_lastSegment _ _ _
                  (eq_trans Hsegs (app_assoc _ _ _))). }
  rewrite Hnorm. unfold Path.normalize at 1.
  rewrite (endsInName_nonempty _ Hname),
          (endsInName_no_trailing_slash _ Hname), Habs.
  fold allow.
  assert (Path.normalizeString allow (normalized +:+ "/a") = p +:+ "/a")
    as ->.
  { unfold Path.normalizeString. rewrite Hsegs, !fold_left_app.
    assert (fold_left (Path.normalizeStep allow)
              (if Path.isAbsolute path then [""] else []) [] = []) as ->
      by (by destruct (Path.isAbsolute path)).
    rewrite normalStack_replay by done. cbn [fold_left].
    rewrite normalizeStep_name by done. cbn [rev].
    by rewrite concat_snoc. }
  assert (Str.isEmpty (p +:+ "/a") = false) as -> by (by destruct p).
  unfold normalized. by destruct (Path.isAbsolute path).
Qed.

(** ** Reroot-Assets *)

Lemma replaceAtEnd_a (s : string) :
  Str.replaceAtEnd (String.eqb "a") "" (s +:+ "a") = s.
Proof.
  rewrite replaceAtEnd_app, ?append_nil_r; [done..|].
  intros c t. apply eqb_neq_length. simpl. rewrite append_length. simpl. lia.
Qed.

Lemma startsWith_stripPrefix (p s : string) :
  Str.startsWith p s = bool_decide (is_Some (Str.stripPrefix p s)).
Proof. unfold Str.startsWith. by destruct (Str.stripPrefix p s). Qed.

Lemma substringFrom_app (s t : string) :
  Str.substringFrom (String.length s) (s +:+ t) = t.
Proof. induction s as [|c s IH]; simpl; [by destruct t | done]. Qed.

Lemma isPathWithinDir_tscDir (pkgDir path : string) :
  isPathWithinDir path (tscDirOf pkgDir)
  = Str.startsWith (tscDirOf pkgDir +:+ "/") path.
Proof.
  unfold isPathWithinDir, tscDirOf, joinPaths. f_equal.
  pose proof (join_snoc [pkgDir; "dist"] ".tsc" eq_refl) as Hjoin.
  cbn [app] in Hjoin. rewrite Hjoin.
  set (joined := String.concat "/" _).
  assert (endsInName joined = true) as Hname.
  { destruct (concat_snoc_splitSlash
                (List.filter (λ a, negb (Str.isEmpty a)) [pkgDir; "dist"])
                ".tsc") as (pre & Hpre).
    unfold endsInName. fold joined in Hpre.
    by rewrite (splitSlash_lastSegment _ pre ".tsc" Hpre). }
  assert (Str.isEmpty (Path.normalize joined) = false) as Hne.
  { apply endsInName_nonempty. unfold endsInName.
    by rewrite lastSegment_normalize. }
  assert (Path.join [Path.normalize joined; "a"]
          = Path.normalize (Path.normalize joined +:+ "/a")) as ->.
  { unfold Path.join. cbn [List.filter]. by rewrite Hne. }
  rewrite normalize_normalized_snoc by done.
  change (Path.normalize joined +:+ "/a")
    with (Path.normalize joined +:+ "/" +:+ "a").
  rewrite <- append_assoc. apply replaceAtEnd_a.
Qed.

(** X15.  Reroot-Assets.  The plugin moves a stylesheet that an import
    path places under [pkgDir/dist/.tsc] to the same place under
    [pkgDir/src], and takes no decision on anything else: a path that does
    not end in [.css], or a stylesheet outside that directory, for
    instance in a sibling directory whose name merely starts with
    [.tsc]. *)
Theorem rerootAssets_reroots (env : Env) (pkgDir id : string)
    (importer : option string) (importPath : string) :
  computeImportPath (cwd env) id importer = Some importPath →
  resolveId (rerootAssetsPlugin env pkgDir) id importer
  = if isPathAsset importPath then
      match Str.stripPrefix (tscDirOf pkgDir +:+ "/") importPath with
      | Some rest =>
          Some (ResolvedPath (joinPaths [pkgDir; "src"] +:+ "/" +:+ rest))
      | None => None
      end
    else None.
Proof.
  intros Himport. simpl. rewrite Himport.
  fold (tscDirOf pkgDir). rewrite isPathWithinDir_tscDir.
  destruct (isPathAsset importPath) eqn:Hasset;
    [|by rewrite andb_false_r].
  assert (Str.isEmpty importPath = false) as ->.
  { destruct importPath; [|done]. done. }
  simpl. unfold Str.startsWith.
  destruct (Str.stripPrefix (tscDirOf pkgDir +:+ "/") importPath)
    as [rest|] eqn:Hprefix; [|done].
  apply stripPrefix_spec in Hprefix as ->.
  by rewrite append_assoc, substringFrom_app.
Qed.

Lemma rerootAssets_reroots_witness :
  resolveId (rerootAssetsPlugin pluginsEnv "/pkg") "./main.css"
    (Some "/pkg/dist/.tsc/styles/index.js")
  = Some (ResolvedPath "/pkg/src/styles/main.css")
  ∧ resolveId (rerootAssetsPlugin pluginsEnv "/pkg") "../.tsc2/main.css"
      (Some "/pkg/dist/.tsc/index.js")
    = None.
Proof.
  rewrite (rerootAssets_reroots pluginsEnv "/pkg" "./main.css"
             (Some "/pkg/dist/.tsc/styles/index.js")
             "/pkg/dist/.tsc/styles/main.css") by reflexivity.
  rewrite (rerootAssets_reroots pluginsEnv "/pkg" "../.tsc2/main.css"
             (Some "/pkg/dist/.tsc/index.js")
             "/pkg/dist/.tsc2/main.css") by reflexivity.
  split; reflexivity.
Defined.

(** ** The manifest written to [dist] *)



(** ** Resource mutations *)

Lemma indexOf_Some (x : string) (l : list string) (i : nat) :
  indexOf x l = Some i →
  ∃ before after,
    l = before ++ x :: after
    ∧ (x ∉ before)
    ∧ delete i l = before ++ after.
Proof.
  revert i. induction l as [|y l IH]; intros i; simpl; [done|].
  destruct (String.eqb y x) eqn:E.
  - apply String.eqb_eq in E as ->. intros [= <-]. exists [], l.
    split_and!; [done| |done]. apply not_elem_of_nil.
  - apply String.eqb_neq in E.
    destruct (indexOf x l) as [j|] eqn:Hj; [|done]. intros [= <-].
    destruct (IH j eq_refl) as (before & after & -> & Hnot & Hdel).
    exists (y :: before), after. split_and!; [done| |].
    + apply not_elem_of_cons. split; [done | done].
    + simpl. by rewrite Hdel.
Qed.

Lemma indexOf_None (x : string) (l : list string) :
  indexOf x l = None ↔ x ∉ l.
Proof.
  induction l as [|y l IH]; simpl.
  - split; [intros _; apply not_elem_of_nil | done].
  - destruct (String.eqb y x) eqn:E.
    + apply String.eqb_eq in E as ->. split; [done|].
      intros []. apply elem_of_cons. by left.
    + apply String.eqb_neq in E. rewrite not_elem_of_cons, <- IH.
      destruct (indexOf x l); simpl; intuition congruence.
Qed.

Lemma applyEventDefMutation_applied (eventDef : EventDef)
    (resourceMutation : ResourceMutation) (context : ReducerContext) :
  computeResourceEditable eventDef context = Returns (Some true) →
  matchResourceId resourceMutation ∈ resourceIds eventDef →
  ∃ before after moved,
    resourceIds eventDef
    = before ++ matchResourceId resourceMutation :: after
    ∧ (matchResourceId resourceMutation ∉ before)
    ∧ applyEventDefMutation eventDef (Some resourceMutation) context
      = Returns moved
    ∧ resourceIds moved
      = if bool_decide (setResourceId resourceMutation ∈ before ++ after)
        then before ++ after
        else before ++ after ++ [setResourceId resourceMutation].
Proof.
  intros Heditable Hmatch. unfold applyEventDefMutation.
  rewrite Heditable. simpl.
  destruct (indexOf (matchResourceId resourceMutation) (resourceIds eventDef))
    as [index|] eqn:Hindex; [|by apply indexOf_None in Hindex].
  apply indexOf_Some in Hindex as (before & after & Hids & Hnot & ->).
  exists before, after. eexists. split_and!; [done..|]. simpl.
  destruct (indexOf (setResourceId resourceMutation) (before ++ after))
    as [j|] eqn:Hset; simpl.
  - rewrite bool_decide_eq_true_2; [done|].
    destruct (decide (setResourceId resourceMutation ∈ before ++ after))
      as [|Hno]; [done|].
    apply indexOf_None in Hno. by rewrite Hno in Hset.
  - apply indexOf_None in Hset. rewrite bool_decide_eq_false_2 by done.
    by rewrite app_assoc.
Qed.

Lemma computeResourceEditable_throws (eventDef : EventDef)
    (context : ReducerContext) :
  (∃ reason, computeResourceEditable eventDef context = Throws reason)
  ↔ resourceEditable eventDef = None
    ∧ eventSources context !! sourceId eventDef = None
    ∧ sourceId eventDef ∈ objectPrototypeKeys.
Proof.
  unfold computeResourceEditable, readEventSource.
  rewrite <- inheritsProp_elem.
  destruct (resourceEditable eventDef) as [b|].
  { split; [by intros [? [=]] | by intros [[=] _]]. }
  destruct (Str.isEmpty (sourceId eventDef)) eqn:Hempty.
  { destruct (sourceId eventDef); [|done].
    split; [by intros [? [=]] | by intros (_ & _ & [=])]. }
  destruct (eventSources context !! sourceId eventDef) as [source|].
  { split; [|by intros (_ & [=] & _)].
    destruct (sourceResourceEditable source); by intros [? [=]]. }
  destruct (inheritsProp (sourceId eventDef)).
  - split; [done | by eexists].
  - split; [by intros [? [=]] | by intros (_ & _ & [=])].
Qed.

(** X19.  [applyEventDefMutation] moves an event from one resource to
    another.  When the event is resource-editable and has the resource to
    match, the event definition it leaves has the resource to set, keeps
    every other resource, and has no more resources than before; if the
    resources of the event were free of duplicates they still are, and the
    matched resource is gone unless it is the one to set.  When the event
    is not editable, or has no such resource, or there is no mutation, the
    event definition stays as it is.  Whether the event is editable cannot
    be told, and the call with a mutation throws, exactly when the event
    has no [resourceEditable] of its own and its source id is no key of the
    event sources but the name of a property that they inherit.  The
    mutation that [massageEventDragMutation] builds from two hits names
    two different resources. *)
Theorem applyEventDefMutation_moves (eventDef : EventDef)
    (resourceMutation : ResourceMutation) (context : ReducerContext) :
  (computeResourceEditable eventDef context = Returns (Some true) →
   matchResourceId resourceMutation ∈ resourceIds eventDef →
   ∃ moved,
     applyEventDefMutation eventDef (Some resourceMutation) context
     = Returns moved
     ∧ setResourceId resourceMutation ∈ resourceIds moved
     ∧ (∀ resourceId,
          resourceId ≠ matchResourceId resourceMutation →
          resourceId ≠ setResourceId resourceMutation →
          resourceId ∈ resourceIds moved
          ↔ resourceId ∈ resourceIds eventDef)
     ∧ length (resourceIds moved) ≤ length (resourceIds eventDef)
     ∧ (NoDup (resourceIds eventDef) →
        NoDup (resourceIds moved)
        ∧ (matchResourceId resourceMutation
           ≠ setResourceId resourceMutation →
           matchResourceId resourceMutation ∉ resourceIds moved)))
  ∧ (∀ editable,
       computeResourceEditable eventDef context = Returns editable →
       editable ≠ Some true
       ∨ matchResourceId resourceMutation ∉ resourceIds eventDef →
       applyEventDefMutation eventDef (Some resourceMutation) context
       = Returns eventDef)
  ∧ applyEventDefMutation eventDef None context = Returns eventDef
  ∧ (∀ reason,
       computeResourceEditable eventDef context = Throws reason →
       applyEventDefMutation eventDef (Some resourceMutation) context
       = Throws reason)
  ∧ ((∃ reason, computeResourceEditable eventDef context = Throws reason)
     ↔ resourceEditable eventDef = None
       ∧ eventSources context !! sourceId eventDef = None
       ∧ sourceId eventDef ∈ objectPrototypeKeys)
  ∧ (∀ previous hit0 hit1 built,
       massageEventDragMutation previous hit0 hit1 = Some built →
       Some built = previous
       ∨ (hit0 = Some (matchResourceId built)
          ∧ hit1 = Some (setResourceId built)
          ∧ matchResourceId built ≠ ""
          ∧ setResourceId built ≠ ""
          ∧ matchResourceId built ≠ setResourceId built)).
Proof.
  split_and!.
  - intros Heditable Hmatch.
    destruct (applyEventDefMutation_applied _ _ _ Heditable Hmatch)
      as (before & after & moved & Hids & Hnot & Hmoved & Hres).
    exists moved. split; [done|]. rewrite Hres, Hids.
    clear Hids Hmatch Heditable Hmoved Hres.
    set (m := matchResourceId resourceMutation) in *.
    set (s := setResourceId resourceMutation) in *.
    split_and!.
    + case_bool_decide as Hin; [done|].
      rewrite !elem_of_app, list_elem_of_singleton. tauto.
    + intros r Hm Hs. case_bool_decide;
        rewrite ?elem_of_app, ?elem_of_cons, ?elem_of_nil; tauto.
    + case_bool_decide; rewrite ?length_app; simpl; lia.
    + intros Hnd. apply NoDup_app in Hnd as (Hb & Hba & Ha).
      apply NoDup_cons in Ha as [Hma Ha].
      assert (NoDup (before ++ after)) as Hnd.
      { apply NoDup_app. split_and!; [done| |done].
        intros x Hx Hx'. apply (Hba x Hx). apply elem_of_cons. by right. }
      assert (m ∉ before ++ after) as Hm.
      { rewrite elem_of_app. tauto. }
      case_bool_decide as Hin; [done|]. split.
      * rewrite app_assoc. apply NoDup_app. split_and!; [done| |].
        -- by intros x Hx ->%list_elem_of_singleton.
        -- apply NoDup_singleton.
      * intros Hms. rewrite app_assoc, elem_of_app, list_elem_of_singleton.
        tauto.
  - unfold applyEventDefMutation. intros editable -> [Hno|Hno].
    + destruct editable as [[]|]; done.
    + apply indexOf_None in Hno. rewrite Hno.
      by destruct (orDefault _ false).
  - done.
  - intros reason Hthrows. unfold applyEventDefMutation. by rewrite Hthrows.
  - apply computeResourceEditable_throws.
  - intros previous hit0 hit1 built. unfold massageEventDragMutation.
    destruct hit0 as [[|c0 r0]|], hit1 as [[|c1 r1]|]; cbn [truthyId];
      try (intros <-; by left).
    destruct (String.eqb (String c0 r0) (String c1 r1)) eqn:E; cbn [negb].
    + intros <-. by left.
    + apply String.eqb_neq in E. intros [= <-]. right. by split_and!.
Qed.

Lemma applyEventDefMutation_moves_witness :
  ∃ moved,
    applyEventDefMutation
      {| resourceIds := ["room-a"; "room-b"]; resourceEditable := None;
         sourceId := "" |}
      (massageEventDragMutation None (Some "room-a") (Some "room-c"))
      {| eventSources := ∅; eventResourceEditable := None;
         editable := Some true |}
    = Returns moved
    ∧ resourceIds moved = ["room-b"; "room-c"]
    ∧ NoDup (resourceIds moved)
    ∧ "room-a" ∉ resourceIds moved.
Proof.
  pose proof (applyEventDefMutation_moves
                {| resourceIds := ["room-a"; "room-b"];
                   resourceEditable := None; sourceId := "" |}
                {| matchResourceId := "room-a"; setResourceId := "room-c" |}
                {| eventSources := ∅; eventResourceEditable := None;
                   editable := Some true |}) as (Hmoves & _).
  destruct Hmoves as (moved & Hmoved & _ & _ & _ & Hnd).
  - reflexivity.
  - apply elem_of_cons. left. reflexivity.
  - destruct Hnd as [Hnd Hgone].
    + apply (bool_decide_unpack _). vm_compute. reflexivity.
    + exists moved. split; [exact Hmoved|]. split.
      * vm_compute in Hmoved. injection Hmoved as <-. reflexivity.
      * split; [exact Hnd|]. apply Hgone. discriminate.
Defined.
